(** * Specifier resolution and file walking: a shallow embedding

    The development follows the two TypeScript modules of the repository:
    the file helpers ([getLocalPath], [visitFiles], [visitMarkdownFiles])
    and the bundler plugins of [rollup.ts] ([resolveImport] and the
    [importMetaResolve] transform).  JavaScript strings are modelled as
    [string]; the functions of [node:path] are modelled by their POSIX
    behaviour on the list of segments between slashes. *)

From Stdlib Require Import Ascii String.
From stdpp Require Import base option list sorting gmap strings.

(** ** Strings *)

Module Str.

(** [s.startsWith(p)] *)
Fixpoint startsWith (s p : string) {struct p} : bool :=
  match p with
  | EmptyString => true
  | String a p' =>
      match s with
      | EmptyString => false
      | String b s' => Ascii.eqb a b && startsWith s' p'
      end
  end.

(** [s.slice(n)] for [0 <= n] *)
Fixpoint slice_from (n : nat) (s : string) : string :=
  match n, s with
  | 0, _ => s
  | S _, EmptyString => EmptyString
  | S m, String _ s' => slice_from m s'
  end.

(** [s.slice(0, n)] for [0 <= n] *)
Fixpoint slice_to (n : nat) (s : string) : string :=
  match n, s with
  | 0, _ => EmptyString
  | S _, EmptyString => EmptyString
  | S m, String c s' => String c (slice_to m s')
  end.

(** [s.slice(a, b)] for [0 <= a], [0 <= b] *)
Definition slice (a b : nat) (s : string) : string :=
  slice_to (b - a) (slice_from a s).

Definition is_slash (c : ascii) : bool := Ascii.eqb c "/".

(** The character class [\w] of JavaScript regular expressions. *)
Definition is_word (c : ascii) : bool :=
  let n := nat_of_ascii c in
  (((48 <=? n) && (n <=? 57)) || ((65 <=? n) && (n <=? 90))
   || ((97 <=? n) && (n <=? 122)) || (n =? 95))%nat.

(** The segments of a path: the maximal runs between slashes, the empty
    ones included, so that ["a//b"] has the segments ["a"], [""], ["b"]. *)
Fixpoint segments (s : string) : list string :=
  match s with
  | EmptyString => [EmptyString]
  | String c s' =>
      if is_slash c then EmptyString :: segments s'
      else match segments s' with
           | [] => [String c EmptyString]
           | seg :: segs => String c seg :: segs
           end
  end.

Fixpoint no_slash (s : string) : bool :=
  match s with
  | EmptyString => true
  | String c s' => negb (is_slash c) && no_slash s'
  end.

(** Index of the last occurrence of [c] in [s], if any. *)
Fixpoint last_index (c : ascii) (s : string) : option nat :=
  match s with
  | EmptyString => None
  | String d s' =>
      match last_index c s' with
      | Some i => Some (S i)
      | None => if Ascii.eqb d c then Some 0 else None
      end
  end.

End Str.

(** ** The POSIX functions of [node:path] *)

Module Path.

(** One round of the segment loop of [normalizeString]: [res] holds the
    segments kept so far, the last one first. *)
Definition normalize_step (allowAboveRoot : bool) (res : list string)
    (seg : string) : list string :=
  if String.eqb seg "" || String.eqb seg "." then res
  else if String.eqb seg ".." then
    match res with
    | last :: res' =>
        if String.eqb last ".."
        then (if allowAboveRoot then ".." :: res else res)
        else res'
    | [] => if allowAboveRoot then [".."] else []
    end
  else seg :: res.

Definition normalize_segments (allowAboveRoot : bool) (segs : list string)
  : list string :=
  reverse (fold_left (normalize_step allowAboveRoot) segs []).

Definition normalizeString (path : string) (allowAboveRoot : bool) : string :=
  String.concat "/" (normalize_segments allowAboveRoot (Str.segments path)).

Definition isAbsolute (path : string) : bool := Str.startsWith path "/".

Definition trailingSeparator (path : string) : bool :=
  match last (Str.segments path) with
  | Some EmptyString => negb (String.eqb path "")
  | _ => false
  end.

Definition normalize (path : string) : string :=
  if String.eqb path "" then "."
  else
    let res := normalizeString path (negb (isAbsolute path)) in
    if String.eqb res "" then
      (if isAbsolute path then "/"
       else if trailingSeparator path then "./" else ".")
    else
      let res := if trailingSeparator path then res +:+ "/" else res in
      if isAbsolute path then "/" +:+ res else res.

(** [join(a, b)]: the non-empty arguments are glued with a slash and the
    result is normalized. *)
Definition joined (a b : string) : option string :=
  match String.eqb a "", String.eqb b "" with
  | true, true => None
  | false, true => Some a
  | true, false => Some b
  | false, false => Some (a +:+ "/" +:+ b)
  end.

Definition join (a b : string) : string :=
  match joined a b with
  | None => "."
  | Some p => normalize p
  end.

(** The loop of [dirname]: [i] runs from [path.length - 1] down to [1]. *)
Fixpoint dirname_scan (path : string) (i : nat) (matchedSlash : bool)
  : option nat :=
  match i with
  | 0 => None
  | S j =>
      match String.get i path with
      | Some c =>
          if Str.is_slash c then
            (if matchedSlash then dirname_scan path j matchedSlash
             else Some i)
          else dirname_scan path j false
      | None => dirname_scan path j false
      end
  end.

Definition dirname (path : string) : string :=
  if String.eqb path "" then "."
  else
    let hasRoot := Str.startsWith path "/" in
    match dirname_scan path (String.length path - 1) true with
    | None => if hasRoot then "/" else "."
    | Some e =>
        if hasRoot && Nat.eqb e 1 then "//" else Str.slice 0 e path
    end.

(** [basename]-like helper of [extname]: the last non-empty segment. *)
Definition last_part (path : string) : string :=
  default "" (last (filter (λ s, s ≠ "") (Str.segments path))).

Definition extname (path : string) : string :=
  let part := last_part path in
  match Str.last_index "." part with
  | None => ""
  | Some 0 => ""
  | Some i => if String.eqb part ".." then "" else Str.slice_from i part
  end.

(** [resolve(p)] against the working directory [cwd], as a list of
    segments from the root. *)
Definition resolve_segments (cwd p : string) : list string :=
  normalize_segments false
    (Str.segments (if isAbsolute p then p else cwd +:+ "/" +:+ p)).

Fixpoint strip_common (from to : list string) : list string * list string :=
  match from, to with
  | f :: from', t :: to' =>
      if String.eqb f t then strip_common from' to' else (from, to)
  | _, _ => (from, to)
  end.

(** [relative(from, to)], with [process.cwd()] passed as [cwd]. *)
Definition relative (cwd from to : string) : string :=
  if String.eqb from to then ""
  else
    let '(f, t) := strip_common (resolve_segments cwd from)
                                (resolve_segments cwd to) in
    String.concat "/" (map (λ _, "..") f ++ t).

End Path.

(** ** [getLocalPath] *)

(** The test [/^\w+:/]: one or more word characters, then a colon. *)
Fixpoint url_scan (seen : bool) (s : string) : bool :=
  match s with
  | EmptyString => false
  | String c s' =>
      if Str.is_word c then url_scan true s'
      else seen && Ascii.eqb c ":"
  end.

Definition is_url (name : string) : bool := url_scan false name.

Definition getLocalPath (sourcePath name : string) : option string :=
  if is_url name then None
  else
    let path :=
      Path.join
        (Path.dirname (if Str.startsWith sourcePath "/"
                       then Str.slice_from (String.length "/") sourcePath
                       else sourcePath))
        name in
    if Str.startsWith path "../" then None
    else Some path.


(** The directory of [sourcePath], the leading root slash stripped. *)
Definition source_dir (sourcePath : string) : string :=
  Path.dirname (if Str.startsWith sourcePath "/"
                then Str.slice_from (String.length "/") sourcePath
                else sourcePath).

(** Walking the segments of a path from a directory [depth] levels below
    the root: does some [".."] step leave the root? *)
Fixpoint ascends (depth : nat) (segs : list string) : bool :=
  match segs with
  | [] => false
  | seg :: rest =>
      if String.eqb seg "" || String.eqb seg "." then ascends depth rest
      else if String.eqb seg ".." then
        match depth with
        | 0 => true
        | S d => ascends d rest
        end
      else ascends (S depth) rest
  end.

(** Resolving [name] from the directory of [sourcePath] requires ascending
    past the root: the walk along the directory and then along [name],
    begun at the root, steps above its starting point.  This is read off
    the segments of the joined text, whether the join is relative or (for
    a source path that begins with two slashes) absolute. *)
Definition goes_above_root (sourcePath name : string) : bool :=
  match Path.joined (source_dir sourcePath) name with
  | None => false
  | Some p => ascends 0 (Str.segments p)
  end.

(** A segment of a normalized path: not empty, and without a slash. *)
Definition good_seg (s : string) : Prop := s ≠ "" ∧ Str.no_slash s = true.

(** What follows the first segment of a rendered path: nothing, or a slash
    and the rest. *)
Definition slash_led (t : string) : Prop := t = "" ∨ ∃ t', t = String "/" t'.

(** ** Generators *)

(** What a rejected promise or a [throw] carries: an [Error] with its
    message, or the failure of a file-system call on a path. *)
Inductive exn :=
  | Error (message : string)
  | SystemError (syscall path : string).

(** One resumption of an async generator whose local state has type [S]:
    it yields a value, goes on without yielding, returns or throws. *)
Inductive event (S : Type) :=
  | Yield (value : string) (s : S)
  | Skip (s : S)
  | Return
  | Throw (e : exn).
Arguments Yield {S} value s.
Arguments Skip {S} s.
Arguments Return {S}.
Arguments Throw {S} e.

(** How a consumer that drains a generator sees it end; [Suspended] when
    the iterations counted by the fuel did not reach its end. *)
Inductive outcome :=
  | Completed
  | Failed (e : exn)
  | Suspended.

(** Draining a generator: the values yielded, in order, and the outcome. *)
Fixpoint run {S : Type} (step : S → event S) (fuel : nat) (s : S)
  : list string * outcome :=
  match fuel with
  | 0 => ([], Suspended)
  | S n =>
      match step s with
      | Yield v s' => let r := run step n s' in (v :: r.1, r.2)
      | Skip s' => run step n s'
      | Return => ([], Completed)
      | Throw e => ([], Failed e)
      end
  end.

(** ** [visitFiles] and [visitMarkdownFiles] *)

(** The fields of [fs.Stats] the walk can tell apart, and the device. *)
Record Stats := { isDirectory : bool; ino : N; dev : N }.

(** The local state of [visitFiles]: the set [visited], the array [queue]
    and the position of the array iterator of [for (const path of queue)]. *)
Record walk := { visited : gset N; queue : list string; index : nat }.

Section Walk.

(** The file system as the walk observes it: [stat] and [readdir] answer or
    reject; [cwd] is the working directory that [relative] resolves against. *)
Variable stat : string → option Stats.
Variable readdir : string → option (list string).
Variable cwd : string.

Definition visitFiles_init (root : string) : walk :=
  {| visited := ∅; queue := [root]; index := 0 |}.

(** One round of the loop; [root] is the normalized root. *)
Definition visitFiles_step (root : string) (w : walk) : event walk :=
  match queue w !! index w with
  | None => Return
  | Some path =>
      match stat path with
      | None => Throw (SystemError "stat" path)
      | Some status =>
          if isDirectory status then
            if decide (ino status ∈ visited w)
            then Throw (Error ("Circular directory: " +:+ path))
            else
              match readdir path with
              | None => Throw (SystemError "scandir" path)
              | Some entries =>
                  Skip {| visited := {[ino status]} ∪ visited w;
                          queue := queue w ++ map (Path.join path) entries;
                          index := S (index w) |}
              end
          else
            Yield (Path.relative cwd root path)
                  {| visited := visited w;
                     queue := queue w;
                     index := S (index w) |}
      end
  end.

Definition visitFiles (fuel : nat) (root : string) : list string * outcome :=
  let root := Path.normalize root in
  run (visitFiles_step root) fuel (visitFiles_init root).

(** The loop of [visitMarkdownFiles] around an inner generator. *)
Definition visitMarkdownFiles_step {S : Type} (inner : S → event S) (s : S)
  : event S :=
  match inner s with
  | Yield file s' =>
      if negb (String.eqb (Path.extname file) ".md") then Skip s'
      else Yield file s'
  | Skip s' => Skip s'
  | Return => Return
  | Throw e => Throw e
  end.

Definition visitMarkdownFiles (fuel : nat) (root : string)
  : list string * outcome :=
  let root := Path.normalize root in
  run (visitMarkdownFiles_step (visitFiles_step root)) fuel
      (visitFiles_init root).

(** The directories the walk descends into, in order: the status of each
    queued path whose entries were read and queued. *)
Fixpoint descents (root : string) (fuel : nat) (w : walk) : list Stats :=
  match fuel with
  | 0 => []
  | S n =>
      match visitFiles_step root w with
      | Skip w' =>
          match queue w !! index w ≫= stat with
          | Some status => status :: descents root n w'
          | None => descents root n w'
          end
      | Yield _ w' => descents root n w'
      | Return | Throw _ => []
      end
  end.

(** *** Directory graphs *)

(** Every directory of the file system has its inode number in [inos]. *)
Definition finite_dirs (inos : gset N) : Prop :=
  ∀ path status,
    stat path = Some status → isDirectory status = true → ino status ∈ inos.

(** [path] is a directory listing the entry [entry]. *)
Definition lists (path entry : string) : Prop :=
  ∃ status entries,
    stat path = Some status ∧ isDirectory status = true
    ∧ readdir path = Some entries ∧ entry ∈ entries.

(** The paths the walk can come to from [root]. *)
Inductive reach (root : string) : string → Prop :=
  | reach_root : reach root root
  | reach_entry path entry :
      reach root path → lists path entry →
      reach root (Path.join path entry).

(** [below p q]: [q] lies strictly beneath the directory [p]. *)
Inductive below (p : string) : string → Prop :=
  | below_entry entry : lists p entry → below p (Path.join p entry)
  | below_deeper q entry :
      below p q → lists q entry → below p (Path.join q entry).

(** Every path the walk can come to has a status, and every directory
    among them can be listed. *)
Definition well_formed (root : string) : Prop :=
  ∀ path, reach root path →
    ∃ status, stat path = Some status
      ∧ (isDirectory status = true → is_Some (readdir path)).

(** A directory is reachable a second time beneath itself: some path
    beneath the reachable directory [p] is the same directory again (same
    device, same inode), as a link to an ancestor makes it. *)
Definition has_cycle (root : string) : Prop :=
  ∃ p q sp sq,
    reach root p ∧ below p q
    ∧ stat p = Some sp ∧ isDirectory sp = true
    ∧ stat q = Some sq ∧ isDirectory sq = true
    ∧ dev sp = dev sq ∧ ino sp = ino sq.

(** *** Directory trees *)

#[local] Unset Elimination Schemes.
Inductive tree :=
  | File
  | Dir (status : Stats) (entries : list (string * tree)).
#[local] Set Elimination Schemes.

(** The tree [t] is what the file system shows at [path]. *)
Fixpoint fs_tree (path : string) (t : tree) {struct t} : Prop :=
  match t with
  | File => ∃ status, stat path = Some status ∧ isDirectory status = false
  | Dir status entries =>
      stat path = Some status ∧ isDirectory status = true
      ∧ readdir path = Some (entries.*1)
      ∧ (fix all (es : list (string * tree)) : Prop :=
           match es with
           | [] => True
           | (name, t') :: es' => fs_tree (Path.join path name) t' ∧ all es'
           end) entries
  end.

(** The entries of a queued directory, under the paths the walk queues. *)
Definition entries_at (node : string * tree) : list (string * tree) :=
  match node.2 with
  | File => []
  | Dir _ entries => map (λ e, (Path.join node.1 e.1, e.2)) entries
  end.

Definition is_file (node : string * tree) : bool :=
  match node.2 with File => true | Dir _ _ => false end.

Definition files_of (level : list (string * tree)) : list string :=
  (filter (λ node, is_file node = true) level).*1.

Definition children_of (level : list (string * tree)) : list (string * tree) :=
  level ≫= entries_at.

Fixpoint height (t : tree) : nat :=
  match t with
  | File => 1
  | Dir _ entries => S (foldr (λ e h, height e.2 `max` h) 0 entries)
  end.

(** Breadth-first order: the files of a level in order, then those of the
    next level, the entries of each directory in listing order. *)
Fixpoint level_order (n : nat) (level : list (string * tree)) : list string :=
  match n with
  | 0 => []
  | S m => files_of level ++ level_order m (children_of level)
  end.

Definition bfs_files (root : string) (t : tree) : list string :=
  level_order (height t) [(root, t)].

(** The files beneath [path], directory by directory. *)
Fixpoint all_files (path : string) (t : tree) {struct t} : list string :=
  match t with
  | File => [path]
  | Dir _ entries =>
      (fix go (es : list (string * tree)) : list string :=
         match es with
         | [] => []
         | (name, t') :: es' => all_files (Path.join path name) t' ++ go es'
         end) entries
  end.

(** The inode numbers of the directories of a tree. *)
Fixpoint dir_inos (t : tree) : list N :=
  match t with
  | File => []
  | Dir status entries =>
      ino status ::
      (fix go (es : list (string * tree)) : list N :=
         match es with
         | [] => []
         | (_, t') :: es' => dir_inos t' ++ go es'
         end) entries
  end.

(** *** Levels of a forest *)

Definition fs_level (level : list (string * tree)) : Prop :=
  Forall (λ node, fs_tree node.1 node.2) level.

Definition level_inos (level : list (string * tree)) : list N :=
  omap (λ node, match node.2 with
                | File => None
                | Dir status _ => Some (ino status)
                end) level.

Definition level_height (level : list (string * tree)) : nat :=
  foldr (λ node h, height node.2 `max` h) 0 level.

Definition all_inos (level : list (string * tree)) : list N :=
  level ≫= (λ node, dir_inos node.2).

Definition files_below (level : list (string * tree)) : list string :=
  level ≫= (λ node, all_files node.1 node.2).

(** The state after the rounds that dequeue a whole level. *)
Definition after_level (w : walk) (level : list (string * tree)) : walk :=
  {| visited := list_to_set (level_inos level) ∪ visited w;
     queue := queue w ++ (children_of level).*1;
     index := index w + length level |}.

(** *** The invariant of the walk *)

(** What holds of the state between two rounds: the queue starts with the
    root and holds reachable paths only; the entries of every directory
    already dequeued are queued behind it; the directories dequeued so far
    have their inode numbers in [visited], pairwise distinct; and [visited]
    holds nothing else. *)
Record walk_inv (root : string) (w : walk) : Prop := {
  inv_root : queue w !! 0 = Some root;
  inv_index : index w ≤ length (queue w);
  inv_reach : ∀ p, p ∈ queue w → reach root p;
  inv_done : ∀ j p sp,
    j < index w → queue w !! j = Some p →
    stat p = Some sp → isDirectory sp = true →
    ino sp ∈ visited w
    ∧ ∀ entry, lists p entry →
        ∃ k, j < k ∧ queue w !! k = Some (Path.join p entry);
  inv_fresh : ∀ j k p q sp sq,
    j < k → k < index w →
    queue w !! j = Some p → queue w !! k = Some q →
    stat p = Some sp → stat q = Some sq →
    isDirectory sp = true → isDirectory sq = true →
    ino sp ≠ ino sq;
  inv_visited : ∀ i, i ∈ visited w →
    ∃ p sp, reach root p ∧ stat p = Some sp
            ∧ isDirectory sp = true ∧ ino sp = i
}.

(** What the round of a queued path adds to the queue: the entries of a
    directory that can be listed, each joined to the path; nothing for a
    file. *)
Definition queued_by (path : string) : list string :=
  match stat path with
  | Some status =>
      if isDirectory status then
        match readdir path with
        | Some entries => map (Path.join path) entries
        | None => []
        end
      else []
  | None => []
  end.

(** The order of discovery: [queue] is what the walk has queued in its
    first [j] rounds, the root and behind it the entries of the first [j]
    queued paths, in the order of the queue and of the listings. *)
Definition discovery (root : string) (j : nat) (queue : list string) : Prop :=
  queue = root :: (take j queue ≫= queued_by).

(** What holds of the state between two rounds besides [walk_inv]: the
    queue is in the order of discovery, and every inode number in
    [visited] is that of a directory at an earlier position. *)
Record walk_order (root : string) (w : walk) : Prop := {
  ord_discovery : discovery root (index w) (queue w);
  ord_visited : ∀ n, n ∈ visited w →
    ∃ i p sp, i < index w ∧ queue w !! i = Some p
              ∧ stat p = Some sp ∧ isDirectory sp = true ∧ ino sp = n
}.

(** What a circular-directory error reports.  In the order of discovery
    the path [path] of the message stands at a position [j] and is a
    directory whose inode number is that of a directory [p] at an earlier
    position [i], one the walk went into before; and [path] is the first
    such: the directories in front of it have pairwise distinct inode
    numbers. *)
Definition circular (root : string) (e : exn) : Prop :=
  ∃ queue i j p path sp status,
    e = Error ("Circular directory: " +:+ path)
    ∧ discovery root j queue
    ∧ i < j
    ∧ queue !! i = Some p ∧ stat p = Some sp ∧ isDirectory sp = true
    ∧ queue !! j = Some path
    ∧ stat path = Some status ∧ isDirectory status = true
    ∧ ino sp = ino status
    ∧ reach root p ∧ reach root path
    ∧ (∀ a b pa pb sa sb,
         a < b → b < j →
         queue !! a = Some pa → queue !! b = Some pb →
         stat pa = Some sa → stat pb = Some sb →
         isDirectory sa = true → isDirectory sb = true →
         ino sa ≠ ino sb).

End Walk.

(** *** Sample file systems *)

Definition dir_status (i d : N) : Stats :=
  {| isDirectory := true; ino := i; dev := d |}.

Definition file_status (i d : N) : Stats :=
  {| isDirectory := false; ino := i; dev := d |}.

(** A project with the two pages [docs/a.md] and [docs/b.md]. *)
Definition docs_stat (path : string) : option Stats :=
  if String.eqb path "." then Some (dir_status 1 1)
  else if String.eqb path "docs" then Some (dir_status 2 1)
  else if String.eqb path "docs/a.md" then Some (file_status 3 1)
  else if String.eqb path "docs/b.md" then Some (file_status 4 1)
  else None.

Definition docs_readdir (path : string) : option (list string) :=
  if String.eqb path "." then Some ["docs"]
  else if String.eqb path "docs" then Some ["a.md"; "b.md"]
  else None.

Definition docs_tree : tree :=
  Dir (dir_status 1 1)
    [("docs", Dir (dir_status 2 1) [("a.md", File); ("b.md", File)])].

(** Two volumes under one root: the directories [r/a] and [r/m] are on
    different devices and have the same inode number. *)
Definition mounts_stat (path : string) : option Stats :=
  if String.eqb path "r" then Some (dir_status 1 1)
  else if String.eqb path "r/a" then Some (dir_status 2 1)
  else if String.eqb path "r/m" then Some (dir_status 2 7)
  else if String.eqb path "r/a/x.md" then Some (file_status 5 1)
  else if String.eqb path "r/m/y.md" then Some (file_status 5 7)
  else None.

Definition mounts_readdir (path : string) : option (list string) :=
  if String.eqb path "r" then Some ["a"; "m"]
  else if String.eqb path "r/a" then Some ["x.md"]
  else if String.eqb path "r/m" then Some ["y.md"]
  else None.

Definition mounts_tree : tree :=
  Dir (dir_status 1 1)
    [("a", Dir (dir_status 2 1) [("x.md", File)]);
     ("m", Dir (dir_status 2 7) [("y.md", File)])].

(** A directory that holds a page and a link [loop] to itself: every path
    whose extension is not [".md"] is that directory again. *)
Definition loop_stat (path : string) : option Stats :=
  if String.eqb (Path.extname path) ".md" then Some (file_status 2 1)
  else Some (dir_status 1 1).

Definition loop_readdir (path : string) : option (list string) :=
  Some ["x.md"; "loop"].

(** A directory [r] with the entries [a] and [b], where [b] is a link to
    the directory [a]: both paths show the same directory, which holds one
    page. *)
Definition links_stat (path : string) : option Stats :=
  if String.eqb (Path.extname path) ".md" then Some (file_status 3 1)
  else if String.eqb path "r" then Some (dir_status 1 1)
  else Some (dir_status 2 1).

Definition links_readdir (path : string) : option (list string) :=
  if String.eqb path "r" then Some ["a"; "b"] else Some ["x.md"].

(** ** [resolveImport] *)

(** The value of an awaited promise: fulfilled, or rejected with an
    exception that the awaiting function rethrows. *)
Inductive promise (A : Type) :=
  | Fulfilled (a : A)
  | Rejected (e : exn).
Arguments Fulfilled {A} a.
Arguments Rejected {A} e.

Definition await {A B : Type} (p : promise A) (k : A → promise B) : promise B :=
  match p with
  | Fulfilled a => k a
  | Rejected e => Rejected e
  end.

(** The object form of Rollup's [ResolveIdResult]; [external] is [None]
    when the property is left out. *)
Record ResolveId := { id : string; external : option bool }.

(** The first-party aliases and the client module of each. *)
Definition first_party : list (string * string) :=
  [ ("npm:@observablehq/runtime", "./src/client/runtime.js");
    ("npm:@observablehq/stdlib", "./src/client/stdlib.js");
    ("npm:@observablehq/dot", "./src/client/stdlib/dot.js");
    ("npm:@observablehq/duckdb", "./src/client/stdlib/duckdb.js");
    ("npm:@observablehq/inputs", "./src/client/stdlib/inputs.js");
    ("npm:@observablehq/mermaid", "./src/client/stdlib/mermaid.js");
    ("npm:@observablehq/tex", "./src/client/stdlib/tex.js");
    ("npm:@observablehq/sqlite", "./src/client/stdlib/sqlite.js");
    ("npm:@observablehq/xlsx", "./src/client/stdlib/xlsx.js");
    ("npm:@observablehq/zip", "./src/client/stdlib/zip.js") ].

(** A plain relative path: it begins with ["./"] or ["../"]. *)
Definition is_relative (specifier : string) : bool :=
  Str.startsWith specifier "./" || Str.startsWith specifier "../".

(** A stand-in for [isPathImport] where a concrete one is needed: the
    specifier begins with ["./"], ["../"] or ["/"]. *)
Definition path_prefixed (specifier : string) : bool :=
  Str.startsWith specifier "./" || Str.startsWith specifier "../"
  || Str.startsWith specifier "/".

Section Resolve.

(** Rollup's [AstNode], opaque here. *)
Context {AstNode : Type}.

(** The collaborators imported from the modules [url], [files] and
    [javascript/imports]. *)
Variable relativeUrl : string → string → string.
Variable getClientPath : string → string.
Variable resolveNpmImport : string → promise string.
Variable isPathImport : string → bool.

(** The argument [specifier: string | AstNode]. *)
Inductive Specifier :=
  | SpecString (s : string)
  | SpecNode (node : AstNode).

Definition client (source path : string) : promise (option ResolveId) :=
  Fulfilled (Some {| id := relativeUrl source (getClientPath path);
                     external := Some true |}).

Definition resolveImport (source : string) (specifier : Specifier)
  : promise (option ResolveId) :=
  match specifier with
  | SpecNode _ => Fulfilled None
  | SpecString specifier =>
      if Str.startsWith specifier "observablehq:" then
        client source
          ("./src/client/"
           +:+ Str.slice_from (String.length "observablehq:") specifier
           +:+ ".js")
      else if String.eqb specifier "npm:@observablehq/runtime" then
        client source "./src/client/runtime.js"
      else if String.eqb specifier "npm:@observablehq/stdlib" then
        client source "./src/client/stdlib.js"
      else if String.eqb specifier "npm:@observablehq/dot" then
        client source "./src/client/stdlib/dot.js"
      else if String.eqb specifier "npm:@observablehq/duckdb" then
        client source "./src/client/stdlib/duckdb.js"
      else if String.eqb specifier "npm:@observablehq/inputs" then
        client source "./src/client/stdlib/inputs.js"
      else if String.eqb specifier "npm:@observablehq/mermaid" then
        client source "./src/client/stdlib/mermaid.js"
      else if String.eqb specifier "npm:@observablehq/tex" then
        client source "./src/client/stdlib/tex.js"
      else if String.eqb specifier "npm:@observablehq/sqlite" then
        client source "./src/client/stdlib/sqlite.js"
      else if String.eqb specifier "npm:@observablehq/xlsx" then
        client source "./src/client/stdlib/xlsx.js"
      else if String.eqb specifier "npm:@observablehq/zip" then
        client source "./src/client/stdlib/zip.js"
      else if Str.startsWith specifier "npm:" then
        await (resolveNpmImport
                 (Str.slice_from (String.length "npm:") specifier))
              (λ resolution,
                 Fulfilled (Some {| id := resolution; external := None |}))
      else if negb (String.eqb source specifier)
              && negb (isPathImport specifier)
              && negb (String.eqb specifier "@observablehq/inputs") then
        await (resolveNpmImport specifier)
              (λ resolution,
                 Fulfilled (Some {| id := resolution;
                                    external := Some true |}))
      else Fulfilled None
  end.

End Resolve.

Arguments SpecString {AstNode} s.
Arguments SpecNode {AstNode} node.

(** ** [importMetaResolve] *)

(** The node types that the visitor tells apart, with what it could read
    of each: a member access [object.property] or, with the flag
    [computed], [object[property]]; a meta-property with the names of its
    two identifiers, [import.meta] or [new.target]; an identifier. *)
Inductive Node :=
  | MemberExpression (object property : Node) (computed : bool)
  | MetaProperty (meta property : string)
  | Identifier (name : string)
  | OtherNode (type : string) (raw : string).

Record CallExpression := {
  start : nat;
  end_ : nat;
  callee : Node;
  arguments : list Node
}.

(** Modelled from the spec: the class [Sourcemap] of the module
    [sourcemap], which is not among the sources.  It is the
    offset-preserving text buffer of the spec: the edits are kept sorted by
    their position in the input and are applied in one pass, each replacing
    the range from its start to its end. *)
Record Edit := { edit_start : nat; edit_end : nat; edit_value : string }.

Record Sourcemap := { input : string; edits : list Edit }.

Definition new_Sourcemap (input : string) : Sourcemap :=
  {| input := input; edits := [] |}.

(** Insertion before the first edit that does not start earlier. *)
Fixpoint insert_left (e : Edit) (es : list Edit) : list Edit :=
  match es with
  | [] => [e]
  | e' :: es' =>
      if edit_start e' <? edit_start e then e' :: insert_left e es'
      else e :: es
  end.

Definition replaceLeft (start end_ : nat) (value : string) (output : Sourcemap)
  : Sourcemap :=
  {| input := input output;
     edits := insert_left {| edit_start := start; edit_end := end_;
                             edit_value := value |} (edits output) |}.

Fixpoint materialize (input : string) (index : nat) (es : list Edit) : string :=
  match es with
  | [] => Str.slice_from index input
  | e :: es' =>
      Str.slice index (edit_start e) input
      +:+ edit_value e
      +:+ materialize input (edit_end e) es'
  end.

Definition Sourcemap_toString (output : Sourcemap) : string :=
  materialize (input output) 0 (edits output).

(** What the transform hook returns when it is not [null]. *)
Record Code := { code : string }.

Definition text_of (unchanged : string) (r : option Code) : string :=
  match r with
  | Some {| code := text |} => text
  | None => unchanged
  end.

Section Transform.

(** The parser of the plugin context, which returns the program or throws
    (on a text that is no module), and the walk of [acorn-walk]:
    [callExpressions] lists the call expressions in the order in which the
    visitor is called on them. *)
Context {Program : Type}.
Variable parse : string → Program + exn.
Variable callExpressions : Program → list CallExpression.

(** The helpers of the module [javascript/features], the package resolver
    and [JSON.stringify]. *)
Variable isStringLiteral : Node → bool.
Variable getStringLiteralValue : Node → string.
Variable resolveNpmImport : string → promise string.
Variable JSON_stringify : string → string.

(** The test of the visitor.  It reads the types of the callee, of its
    object and of its property, and the name of the property; it reads
    neither the names of the meta-property nor the flag [computed]. *)
Definition eligible (node : CallExpression) : bool :=
  match callee node with
  | MemberExpression (MetaProperty _ _) (Identifier name) _ =>
      String.eqb name "resolve"
      && Nat.eqb (length (arguments node)) 1
      && match arguments node !! 0 with
         | Some argument => isStringLiteral argument
         | None => false
         end
  | _ => false
  end.

(** [getStringLiteralValue(node.arguments[0])] *)
Definition specifier_of (node : CallExpression) : string :=
  match arguments node !! 0 with
  | Some argument => getStringLiteralValue argument
  | None => ""
  end.

(** The loop over [resolves]. *)
Fixpoint rewrite_resolves (resolves : list CallExpression) (output : Sourcemap)
  : promise Sourcemap :=
  match resolves with
  | [] => Fulfilled output
  | node :: rest =>
      let specifier := specifier_of node in
      if Str.startsWith specifier "npm:" then
        await (resolveNpmImport
                 (Str.slice_from (String.length "npm:") specifier))
              (λ resolution,
                 rewrite_resolves rest
                   (replaceLeft (start node) (end_ node)
                      (JSON_stringify resolution) output))
      else rewrite_resolves rest output
  end.

(** The array [resolves] that the visitor fills. *)
Definition collect_resolves (program : Program) : list CallExpression :=
  filter (λ node, eligible node = true) (callExpressions program).

(** The [transform] hook of the plugin; [None] stands for [null].  What
    [this.parse] throws rejects the promise of the hook. *)
Definition importMetaResolve (code : string) : promise (option Code) :=
  match parse code with
  | inr error => Rejected error
  | inl program =>
      let resolves := collect_resolves program in
      if Nat.eqb (length resolves) 0 then Fulfilled None
      else
        await (rewrite_resolves resolves (new_Sourcemap code))
              (λ output,
                 Fulfilled (Some {| code := Sourcemap_toString output |}))
  end.

(** Rollup keeps the module text when the hook returns [null]. *)
Definition transformed (code : string) : promise string :=
  await (importMetaResolve code)
        (λ r, Fulfilled (text_of code r)).

(** *** The call shapes, spelled out *)

(** The call of the claims, [import.meta.resolve(<string literal>)]: a
    plain member access on the meta-property [import.meta], with the
    property [resolve] and one argument, a string literal. *)
Definition import_meta_resolve (node : CallExpression) : Prop :=
  ∃ argument,
    callee node
    = MemberExpression (MetaProperty "import" "meta") (Identifier "resolve")
        false
    ∧ arguments node = [argument]
    ∧ isStringLiteral argument = true.

(** The calls that the visitor collects: a member access, computed or
    not, on any meta-property, with an identifier [resolve] as property and
    one argument, a string literal. *)
Definition meta_resolve (node : CallExpression) : Prop :=
  ∃ meta property computed argument,
    callee node
    = MemberExpression (MetaProperty meta property) (Identifier "resolve")
        computed
    ∧ arguments node = [argument]
    ∧ isStringLiteral argument = true.

(** Those among them whose literal begins with ["npm:"]. *)
Definition npm_resolve (node : CallExpression) : Prop :=
  meta_resolve node ∧ Str.startsWith (specifier_of node) "npm:" = true.

(** The call [node] is the first among [calls] whose resolution is
    rejected, with [e]: it is one of the calls [P], and the resolver
    answered for every call [P] in front of it. *)
Definition first_rejection (P : CallExpression → Prop)
    (calls : list CallExpression) (e : exn) : Prop :=
  ∃ pre node post,
    calls = pre ++ node :: post
    ∧ (∀ n, n ∈ pre → P n →
         ∃ r, resolveNpmImport (Str.slice_from 4 (specifier_of n)) = Fulfilled r)
    ∧ P node
    ∧ resolveNpmImport (Str.slice_from 4 (specifier_of node)) = Rejected e.

(** The collected calls whose literal begins with ["npm:"]. *)
Definition npm_calls (program : Program) : list CallExpression :=
  filter (λ node, Str.startsWith (specifier_of node) "npm:" = true)
         (collect_resolves program).

(** The edit that replaces a call by the quoted value [resolved] gives it. *)
Definition replacement (resolved : CallExpression → string)
    (node : CallExpression) : Edit :=
  {| edit_start := start node;
     edit_end := end_ node;
     edit_value := JSON_stringify (resolved node) |}.

End Transform.

(** The ranges of the nodes lie within the text, are not empty and do not
    overlap: what a parser gives for calls none of which contains another. *)
Definition ranges_ok (code : string) (nodes : list CallExpression) : Prop :=
  (∀ node, node ∈ nodes →
     start node < end_ node ∧ end_ node ≤ String.length code)
  ∧ (∀ i j a b, i ≠ j → nodes !! i = Some a → nodes !! j = Some b →
       end_ a ≤ start b ∨ end_ b ≤ start a).

(** The same of the nodes [P] among [nodes]. *)
Definition ranges_apart (P : CallExpression → Prop) (code : string)
    (nodes : list CallExpression) : Prop :=
  (∀ node, node ∈ nodes → P node →
     start node < end_ node ∧ end_ node ≤ String.length code)
  ∧ (∀ i j a b, i ≠ j → nodes !! i = Some a → nodes !! j = Some b →
       P a → P b → end_ a ≤ start b ∨ end_ b ≤ start a).

(** [rewritten offset rest es out]: the text [rest], which begins at
    [offset] of the input, is cut into the stretches between the edits and
    the ranges the edits name, in order; [out] keeps the stretches as they
    are and has the value of each edit in place of its range. *)
Inductive rewritten : nat → string → list Edit → string → Prop :=
  | rewritten_nil offset rest : rewritten offset rest [] rest
  | rewritten_cons offset gap range rest e es out :
      edit_start e = offset + String.length gap →
      edit_end e = edit_start e + String.length range →
      rewritten (edit_end e) rest es out →
      rewritten offset (gap +:+ range +:+ rest) (e :: es)
                (gap +:+ edit_value e +:+ out).

(** The edit [a] ends before the edit [b] starts. *)
Definition before (a b : Edit) : Prop := edit_end a ≤ edit_start b.

(** An edit with a range that is not empty and lies within [n] characters. *)
Definition edit_ok (n : nat) (e : Edit) : Prop :=
  edit_start e < edit_end e ∧ edit_end e ≤ n.

(** The ranges of two edits do not overlap. *)
Definition apart (a b : Edit) : Prop := before a b ∨ before b a.

(** From [index] on, the edits follow one another within [n] characters. *)
Fixpoint chain (n index : nat) (es : list Edit) : Prop :=
  match es with
  | [] => index ≤ n
  | e :: es' =>
      index ≤ edit_start e ∧ edit_start e ≤ edit_end e ∧ edit_end e ≤ n
      ∧ chain n (edit_end e) es'
  end.

(** *** Sample collaborators *)

Definition jsdelivr (specifier : string) : promise string :=
  Fulfilled ("https://cdn.jsdelivr.net/npm/" +:+ specifier +:+ "/+esm").

Definition sample_relativeUrl (source target : string) : string := target.

Definition sample_getClientPath (path : string) : string := path.

Definition double_quote : ascii := ascii_of_nat 34.

Definition sample_stringify (s : string) : string :=
  String double_quote (s +:+ String double_quote EmptyString).

Definition sample_code : string := "x = import.meta.resolve('npm:d3');".

(** A call [callee(argument)] with a string literal as argument. *)
Definition sample_call_of (callee : Node) (argument : string)
    (start end_ : nat) : CallExpression :=
  {| start := start; end_ := end_;
     callee := callee;
     arguments := [OtherNode "Literal" argument] |}.

Definition import_meta : Node := MetaProperty "import" "meta".

Definition new_target : Node := MetaProperty "new" "target".

(** [import.meta.resolve(argument)] *)
Definition sample_call (argument : string) (start end_ : nat) : CallExpression :=
  sample_call_of (MemberExpression import_meta (Identifier "resolve") false)
    argument start end_.

(** Sources in which the callee is another meta-property, or a computed
    member of [import.meta], where [resolve] is a variable. *)
Definition new_target_code : string :=
  "function f() { return new.target.resolve('npm:d3'); }".

Definition computed_code : string := "x = import.meta[resolve]('npm:d3');".

Definition mixed_code : string :=
  "import.meta.resolve('./a.js'); "
  +:+ "function f() { return new.target.resolve('npm:d3'); }".

(** What the parser and the walk give on the sample sources: the call
    expressions with their ranges; a text that is no module is refused. *)
Definition sample_parse (code : string) : list CallExpression + exn :=
  if String.eqb code sample_code then inl [sample_call "npm:d3" 4 33]
  else if String.eqb code "import.meta.resolve('./a.js')"
  then inl [sample_call "./a.js" 0 29]
  else if String.eqb code new_target_code
  then inl [sample_call_of
              (MemberExpression new_target (Identifier "resolve") false)
              "npm:d3" 22 50]
  else if String.eqb code computed_code
  then inl [sample_call_of
              (MemberExpression import_meta (Identifier "resolve") true)
              "npm:d3" 4 34]
  else if String.eqb code mixed_code
  then inl [sample_call "./a.js" 0 29;
            sample_call_of
              (MemberExpression new_target (Identifier "resolve") false)
              "npm:d3" 53 81]
  else if String.eqb code "x = ;"
  then inr (Error "SyntaxError: Unexpected token (1:4)")
  else inl [].

Definition sample_calls (program : list CallExpression) : list CallExpression :=
  program.

Definition sample_isStringLiteral (node : Node) : bool :=
  match node with
  | OtherNode type _ => String.eqb type "Literal"
  | _ => false
  end.

Definition sample_value (node : Node) : string :=
  match node with
  | OtherNode _ raw => raw
  | _ => ""
  end.

(** A resolver without a network: it rejects whatever it is asked. *)
Definition offline (specifier : string) : promise string :=
  Rejected (Error ("Unable to resolve " +:+ specifier)).

(** ** [rewriteInputsNamespace] *)

(** Whether the text begins with a word character. *)
Definition word_at (s : string) : bool :=
  match s with
  | String c _ => Str.is_word c
  | EmptyString => false
  end.

(** The pattern [/\b__ns__\b/] at the head of [s], where [prev] tells
    whether the character before is a word character: the pattern begins
    and ends with a word character, so the boundaries ask for none before
    and none after. *)
Definition ns_here (prev : bool) (s : string) : bool :=
  negb prev && Str.startsWith s "__ns__" && negb (word_at (Str.slice_from 6 s)).

(** [code.replace(/\b__ns__\b/g, "inputs-3a86ea")], from left to right:
    [skip] counts the characters of a match still to pass over. *)
Fixpoint replace_ns (skip : nat) (prev : bool) (s : string) : string :=
  match s with
  | EmptyString => EmptyString
  | String c s' =>
      match skip with
      | S k => replace_ns k (Str.is_word c) s'
      | 0 =>
          if ns_here prev s then "inputs-3a86ea" +:+ replace_ns 5 true s'
          else String c (replace_ns 0 (Str.is_word c) s')
      end
  end.

Definition rewriteInputsNamespace (code : string) : string :=
  replace_ns 0 false code.

(** The pattern matches nowhere in [s]. *)
Fixpoint ns_free (prev : bool) (s : string) : bool :=
  match s with
  | EmptyString => true
  | String c s' => negb (ns_here prev s) && ns_free (Str.is_word c) s'
  end.

(** A text of word characters only. *)
Fixpoint all_word (w : string) : bool :=
  match w with
  | EmptyString => true
  | String c w' => Str.is_word c && all_word w'
  end.

(** ** [rewriteTypeScriptImports] *)

(** The two classes of the pattern: [[\w./]], and the three quotes
    (backtick, single and double). *)
Definition is_path_char (c : ascii) : bool :=
  Str.is_word c || Ascii.eqb c "." || Ascii.eqb c "/".

Definition is_quote (c : ascii) : bool :=
  Ascii.eqb c "`" || Ascii.eqb c "'" || Ascii.eqb c (ascii_of_nat 34).

(** A look-behind is matched from right to left.  [before] is the text in
    front of the position, nearest character first. *)

(** What is left of [before] behind the longest run of [[\w./]]; a shorter
    run would have to be followed by a quote, which the class excludes. *)
Fixpoint skip_path (before : list ascii) : list ascii :=
  match before with
  | c :: rest => if is_path_char c then skip_path rest else before
  | [] => []
  end.

(** The characters [p] at the head of [before], and what follows them. *)
Fixpoint behind (p before : list ascii) : option (list ascii) :=
  match p with
  | [] => Some before
  | a :: p' =>
      match before with
      | c :: rest => if Ascii.eqb a c then behind p' rest else None
      | [] => None
      end
  end.

(** [\bimport\(], right to left: the boundary asks for no word character
    in front of the [i]. *)
Definition import_behind (before : list ascii) : bool :=
  match behind ["("; "t"; "r"; "o"; "p"; "m"; "i"]%char before with
  | Some (c :: _) => negb (Str.is_word c)
  | Some [] => true
  | None => false
  end.

(** The look-behind [\bimport\(], a quote, [[\w./]+]: the quote that the
    group captures. *)
Definition lookbehind (before : list ascii) : option ascii :=
  match before with
  | c :: _ =>
      if is_path_char c then
        match skip_path before with
        | q :: rest => if is_quote q && import_behind rest then Some q else None
        | [] => None
        end
      else None
  | [] => None
  end.

(** The whole pattern at the head of [s]: the look-behind, [\.ts], and the
    look-ahead [(?=\1\))] for the captured quote and the parenthesis. *)
Definition ts_here (before : list ascii) (s : string) : bool :=
  match lookbehind before with
  | Some q => Str.startsWith s (".ts" +:+ String q ")")
  | None => false
  end.

(** [code.replace(/.../g, ".js")], from left to right: at a match the
    replacement is written and the scan goes on behind the three matched
    characters; the look-behind reads the text as it was. *)
Fixpoint replace_ts (before : list ascii) (s : string) : string :=
  match s with
  | EmptyString => EmptyString
  | String c s' =>
      if ts_here before s then
        match s' with
        | String c1 (String c2 s'') =>
            ".js" +:+ replace_ts (c2 :: c1 :: c :: before) s''
        | _ => String c (replace_ts (c :: before) s')
        end
      else String c (replace_ts (c :: before) s')
  end.

Definition rewriteTypeScriptImports (code : string) : string :=
  replace_ts [] code.

(** A character and what may stand in its place after the rewriting. *)
Definition ts_js (a b : ascii) : Prop := a = b ∨ (a = "t" ∧ b = "j")%char.

(** ** [maybeStat] *)

Section MaybeStat.

(** [fs.stat] as a promise, and the helper of the module [error] with the
    property [code] it reads. *)
Variable stat : string → promise Stats.
Variable isNodeError : exn → bool.
Variable error_code : exn → string.

Definition maybeStat (path : string) : promise (option Stats) :=
  match stat path with
  | Fulfilled status => Fulfilled (Some status)
  | Rejected error =>
      if negb (isNodeError error)
         || negb (String.eqb (error_code error) "ENOENT")
      then Rejected error
      else Fulfilled None
  end.

End MaybeStat.

(** ** [prepareOutput] and [bundleStyles] *)

(** The part of the world these functions change: the readable files with
    their contents, the directories made, and the lines of the console. *)
Record world := {
  files : gmap string string;
  dirs : gset string;
  console : list (string * string)
}.

(** An asynchronous computation over the world: its result and the world
    it leaves, also when it rejects. *)
Definition io (A : Type) : Type := world → promise A * world.

Definition io_ret {A : Type} (a : A) : io A := λ w, (Fulfilled a, w).

Definition io_throw {A : Type} (e : exn) : io A := λ w, (Rejected e, w).

Definition io_bind {A B : Type} (m : io A) (k : A → io B) : io B :=
  λ w, match m w with
       | (Fulfilled a, w') => k a w'
       | (Rejected e, w') => (Rejected e, w')
       end.

(** [try { m } catch (error) { handler(error) }] *)
Definition io_catch {A : Type} (m : io A) (handler : exn → io A) : io A :=
  λ w, match m w with
       | (Fulfilled a, w') => (Fulfilled a, w')
       | (Rejected e, w') => handler e w'
       end.

(** [try { m } finally { cleanup }]: the cleanup runs either way, and its
    rejection replaces the outcome of [m]. *)
Definition io_finally {A : Type} (m : io A) (cleanup : io unit) : io A :=
  λ w, match m w with
       | (r, w') =>
           match cleanup w' with
           | (Fulfilled _, w'') => (r, w'')
           | (Rejected e, w'') => (Rejected e, w'')
           end
       end.

Notation "'let!' x ':=' m 'in' k" := (io_bind m (λ x, k))
  (at level 10, x name, m at level 100, k at level 200, only parsing).
Notation "'do!' m 'in' k" := (io_bind m (λ _, k))
  (at level 10, m at level 100, k at level 200, only parsing).

(** One file of [result.outputFiles]. *)
Record OutputFile := { file_path : string; contents : string; text : string }.

(** What [build] is given to bundle: an entry point or a text on stdin. *)
Inductive BuildInput :=
  | EntryPoints (paths : list string)
  | Stdin (stdin_contents : string).

(** The directory [path] and the directories above it, the nearest
    first, up to the current directory or the root, which are there. *)
Fixpoint ancestors (fuel : nat) (path : string) : list string :=
  match fuel with
  | 0 => []
  | S n =>
      if String.eqb path "." || String.eqb path "/" then []
      else path :: ancestors n (Path.dirname path)
  end.

Section Files.

(** How the file-system calls reject: [enoent path] is the rejection of
    [access] on a missing path, [denied] that of [access] on a file that
    is there, [mkdir_error] and [write_error] those of [mkdir] and
    [writeFile]. *)
Variable enoent : string → exn.
Variable denied : string → option exn.
Variable mkdir_error : string → option exn.
Variable write_error : string → option exn.

(** [access(path, constants.R_OK)] *)
Definition access (path : string) : io unit :=
  λ w, match files w !! path with
       | Some _ =>
           match denied path with
           | Some e => (Rejected e, w)
           | None => (Fulfilled tt, w)
           end
       | None => (Rejected (enoent path), w)
       end.

(** [mkdir(path, {recursive: true})]: the directory is made with the
    directories above it that are missing. *)
Definition mkdir (path : string) : io unit :=
  λ w, match mkdir_error path with
       | Some e => (Rejected e, w)
       | None =>
           (Fulfilled tt,
            {| files := files w;
               dirs := list_to_set (ancestors (S (String.length path)) path)
                       ∪ dirs w;
               console := console w |})
       end.

(** [writeFile(path, contents)] *)
Definition writeFile (path contents : string) : io unit :=
  λ w, match write_error path with
       | Some e => (Rejected e, w)
       | None =>
           (Fulfilled tt,
            {| files := <[path := contents]> (files w); dirs := dirs w;
               console := console w |})
       end.

(** [console.log(a, b)] *)
Definition console_log (a b : string) : io unit :=
  λ w, (Fulfilled tt,
        {| files := files w; dirs := dirs w;
           console := console w ++ [(a, b)] |}).

Definition prepareOutput (outputPath : string) : io unit :=
  let outputDir := Path.dirname outputPath in
  if String.eqb outputDir "." then io_ret tt
  else mkdir outputDir.

(** The collaborators of [bundleStyles]: esbuild's [build] with the input
    it is given, and the helpers of the modules [error], [theme] and
    [tty]. *)
Variable build : BuildInput → promise (list OutputFile).
Variable isEnoent : exn → bool.
Variable renderTheme : option (list string) → string.
Variable faint : string → string.

(** The body of the loop for the file at index [i] of [n]. *)
Definition bundle_file (includePath : option string) (n i : nat)
    (file : OutputFile) (text_ : option string) : io (option string) :=
  match includePath with
  | Some includePath =>
      if i <? n - 1 then
        let out := Path.join includePath (file_path file) in
        do! io_catch (access out)
              (λ error,
                 if negb (isEnoent error) then io_throw error
                 else
                   do! console_log (faint "css asset") out in
                   do! prepareOutput out in
                   writeFile out (contents file)) in
        io_ret text_
      else io_ret (Some (text file))
  | None => io_ret (Some (text file))
  end.

(** The loop, from index [i] on; [outputFiles] holds the files left. *)
Fixpoint bundle_loop (includePath : option string) (n i : nat)
    (outputFiles : list OutputFile) (text_ : option string)
  : io (option string) :=
  match outputFiles with
  | [] => io_ret text_
  | file :: rest =>
      let! text_ := bundle_file includePath n i file text_ in
      bundle_loop includePath n (S i) rest text_
  end.

(** The operand of [path ? ... : ...]: an empty path counts as none. *)
Definition build_input (path : option string) (theme : option (list string))
  : BuildInput :=
  match path with
  | Some p => if String.eqb p "" then Stdin (renderTheme theme)
              else EntryPoints [p]
  | None => Stdin (renderTheme theme)
  end.

Definition bundleStyles (path : option string) (theme : option (list string))
    (includePath : option string) : io (option string) :=
  λ w,
    match build (build_input path theme) with
    | Rejected e => (Rejected e, w)
    | Fulfilled outputFiles =>
        (let! text_ := bundle_loop includePath (length outputFiles) 0
                          outputFiles None in
         if bool_decide (path = Some "src/client/stdlib/inputs.css") then
           match text_ with
           | Some t => io_ret (Some (rewriteInputsNamespace t))
           | None =>
               io_throw
                 (Error "TypeError: Cannot read properties of undefined (reading 'replace')")
           end
         else io_ret text_) w
    end.

End Files.

(** The text [bundleStyles] returns for the files [build] gave: that of
    the last file, with the namespace rewritten for the inputs style
    sheet. *)
Definition final_text (path : option string) (outputFiles : list OutputFile)
  : option string :=
  let text_ := text <$> last outputFiles in
  if bool_decide (path = Some "src/client/stdlib/inputs.css")
  then rewriteInputsNamespace <$> text_
  else text_.

(** *** A sample build *)

Definition sample_enoent (path : string) : exn := SystemError "access" path.

Definition sample_isEnoent (e : exn) : bool :=
  match e with
  | SystemError syscall _ => String.eqb syscall "access"
  | Error _ => false
  end.

Definition no_error (path : string) : option exn := None.

Definition sample_outputs : list OutputFile :=
  [ {| file_path := "/_import/assets/logo.svg"; contents := "<svg/>";
       text := "<svg/>" |};
    {| file_path := "/_import/stdin.css"; contents := "a { color: red }";
       text := "a { color: red }" |} ].

Definition sample_build (input : BuildInput) : promise (list OutputFile) :=
  Fulfilled sample_outputs.

Definition sample_renderTheme (theme : option (list string)) : string := "".

Definition sample_faint (s : string) : string := s.

Definition empty_world : world :=
  {| files := ∅; dirs := ∅; console := [] |}.

(** * Properties *)

#[local] Arguments String.append : simpl nomatch.
#[local] Arguments Ascii.eqb : simpl never.

(** ** Paths *)

Example getLocalPath_above : getLocalPath "/a/b.md" "../../x" = None.
Proof. reflexivity. Qed.

Example getLocalPath_sibling : getLocalPath "/a/b.md" "c.md" = Some "a/c.md".
Proof. reflexivity. Qed.

Example getLocalPath_scenario :
  getLocalPath "docs/a.md" "./b.md" = Some "docs/b.md".
Proof. reflexivity. Qed.

Example getLocalPath_url : getLocalPath "/a/b.md" "https://example.com/x" = None.
Proof. reflexivity. Qed.

Lemma segments_no_slash s :
  Forall (λ x, Str.no_slash x = true) (Str.segments s).
Proof.
  induction s as [|c s IH]; simpl.
  - by repeat constructor.
  - destruct (Str.is_slash c) eqn:Hc.
    + by constructor.
    + destruct (Str.segments s) as [|seg segs].
      * repeat constructor. simpl. by rewrite Hc.
      * inversion IH; subst. constructor; [|done]. simpl. by rewrite Hc.
Qed.

Lemma normalize_step_good a res seg :
  Str.no_slash seg = true → Forall good_seg res →
  Forall good_seg (Path.normalize_step a res seg).
Proof.
  intros Hs Hres. unfold Path.normalize_step.
  destruct (String.eqb_spec seg "") as [->|Hne]; simpl; [done|].
  destruct (String.eqb_spec seg "."); [done|].
  destruct (String.eqb_spec seg "..") as [->|].
  - destruct res as [|l res']; [destruct a; repeat constructor; done|].
    inversion Hres; subst.
    destruct (String.eqb l ".."); [|done].
    destruct a; [|done]. constructor; [done|]. done.
  - by constructor.
Qed.

Lemma fold_good a segs : ∀ res,
  Forall (λ x, Str.no_slash x = true) segs → Forall good_seg res →
  Forall good_seg (fold_left (Path.normalize_step a) segs res).
Proof.
  induction segs as [|seg segs IH]; intros res Hs Hres; simpl; [done|].
  inversion Hs; subst. apply IH; [done|]. by apply normalize_step_good.
Qed.

Lemma normalize_segments_good a s :
  Forall good_seg (Path.normalize_segments a (Str.segments s)).
Proof.
  unfold Path.normalize_segments. apply Forall_reverse.
  apply fold_good; [apply segments_no_slash|constructor].
Qed.

(** Once the walk is above the root it stays there. *)
Lemma fold_above_stays segs : ∀ res,
  last res = Some ".." →
  last (fold_left (Path.normalize_step true) segs res) = Some "..".
Proof.
  induction segs as [|seg segs IH]; intros res Hres; simpl; [done|].
  apply IH. unfold Path.normalize_step.
  destruct (String.eqb seg "" || String.eqb seg "."); [done|].
  destruct (String.eqb seg "..").
  - destruct res as [|l res']; [done|].
    destruct (String.eqb_spec l "..") as [->|Hl].
    + by rewrite last_cons, Hres.
    + destruct res' as [|l' res'']; [simpl in Hres; congruence|].
      by rewrite last_cons_cons in Hres.
  - by rewrite last_cons, Hres.
Qed.

(** The normalized segments begin with [".."] exactly when the walk leaves
    the root. *)
Lemma fold_above_iff segs : ∀ res,
  ".." ∉ res →
  last (fold_left (Path.normalize_step true) segs res) = Some ".."
  ↔ ascends (length res) segs = true.
Proof.
  induction segs as [|seg segs IH]; intros res Hres; simpl.
  - split; [|done]. intros H%last_Some_elem_of. done.
  - unfold Path.normalize_step.
    destruct (String.eqb seg "" || String.eqb seg "."); [by apply IH|].
    destruct (String.eqb_spec seg "..") as [->|Hne].
    + destruct res as [|l res']; simpl.
      * split; [done|]. intros _. by apply fold_above_stays.
      * destruct (String.eqb_spec l "..") as [->|Hl].
        { exfalso. apply Hres. by left. }
        apply IH. intros H. apply Hres. by right.
    + apply (IH (seg :: res)).
      intros [E|H]%elem_of_cons; [by apply Hne|by apply Hres].
Qed.

Lemma normalize_segments_above segs :
  head (Path.normalize_segments true segs) = Some ".."
  ↔ ascends 0 segs = true.
Proof.
  unfold Path.normalize_segments. rewrite head_reverse.
  apply (fold_above_iff segs []). apply not_elem_of_nil.
Qed.

(** *** The rendered path *)

Lemma concat_shape x r :
  ∃ t, String.concat "/" (x :: r) = x +:+ t ∧ slash_led t.
Proof.
  destruct r as [|y r]; simpl.
  - exists "". split; [|by left]. induction x; simpl; congruence.
  - eexists. split; [reflexivity|]. right. by eexists.
Qed.

Lemma app_assoc_string (a b c : string) : (a +:+ b) +:+ c = a +:+ (b +:+ c).
Proof. induction a; simpl; congruence. Qed.

Lemma slash_led_snoc t : slash_led t → slash_led (t +:+ "/").
Proof. intros [->|[t' ->]]; right; simpl; by eexists. Qed.

Lemma prefix_up_seg x t :
  good_seg x → slash_led t →
  Str.startsWith (x +:+ t) "../" = true → x = "..".
Proof.
  intros [Hne Hns] Ht.
  destruct x as [|c1 [|c2 [|c3 x3]]]; simpl in *; [done| | |].
  - intros [_ H]%andb_true_iff.
    destruct Ht as [->|[t' ->]]; simpl in H; done.
  - intros [H1%Ascii.eqb_eq [H2%Ascii.eqb_eq _]%andb_true_iff]%andb_true_iff.
    by subst.
  - intros [_ [_ [H3%Ascii.eqb_eq _]%andb_true_iff]%andb_true_iff]%andb_true_iff.
    subst c3. change (Str.is_slash "/") with true in Hns. simpl in Hns.
    rewrite !andb_false_r in Hns. done.
Qed.

Lemma concat_empty_good segs :
  Forall good_seg segs → String.concat "/" segs = "" → segs = [].
Proof.
  intros Hg Hc. destruct segs as [|x r]; [done|].
  inversion Hg as [|? ? [Hne _] _]; subst.
  destruct (concat_shape x r) as (t & Ht & _). rewrite Hc in Ht.
  destruct x; [done|]. simpl in Ht. done.
Qed.

(** A relative path whose walk stays below the root is normalized to a
    string that does not begin with ["../"]. *)
Lemma normalize_within p :
  Path.isAbsolute p = false → ascends 0 (Str.segments p) = false →
  Str.startsWith (Path.normalize p) "../" = false.
Proof.
  intros Habs Hasc. unfold Path.normalize.
  destruct (String.eqb p ""); [done|]. rewrite Habs. simpl.
  unfold Path.normalizeString.
  pose proof (normalize_segments_good true p) as Hg.
  pose proof (normalize_segments_above (Str.segments p)) as Hab.
  destruct (Path.normalize_segments true (Str.segments p)) as [|x r] eqn:Hn.
  { simpl. by destruct (Path.trailingSeparator p). }
  assert (x ≠ "..") as Hx.
  { intros ->. simpl in Hab. destruct Hab as [Hab _].
    rewrite Hab in Hasc; done. }
  inversion Hg as [|? ? Hgx _]; subst.
  destruct (concat_shape x r) as (t & Ht & Hled). rewrite Ht.
  destruct (String.eqb (x +:+ t) ""); [by destruct (Path.trailingSeparator p)|].
  destruct (Path.trailingSeparator p).
  - rewrite app_assoc_string.
    destruct (Str.startsWith (x +:+ (t +:+ "/")) "../") eqn:Hp; [|done].
    apply prefix_up_seg in Hp; [done|done|by apply slash_led_snoc].
  - destruct (Str.startsWith (x +:+ t) "../") eqn:Hp; [|done].
    apply prefix_up_seg in Hp; done.
Qed.

(** A relative path whose walk leaves the root is normalized to a string
    that begins with ["../"], or to [".."] itself. *)
Lemma normalize_above p :
  Path.isAbsolute p = false → ascends 0 (Str.segments p) = true →
  Str.startsWith (Path.normalize p) "../" = true ∨ Path.normalize p = "..".
Proof.
  intros Habs Hasc. unfold Path.normalize.
  destruct (String.eqb_spec p "") as [->|Hp]; [done|]. rewrite Habs. simpl.
  unfold Path.normalizeString.
  apply normalize_segments_above in Hasc.
  destruct (Path.normalize_segments true (Str.segments p)) as [|x r]; [done|].
  simpl in Hasc. injection Hasc as ->.
  destruct r as [|y r].
  - simpl. destruct (Path.trailingSeparator p); [by left|by right].
  - left.
    change (String.concat "/" (".." :: y :: r))
      with (String "." (String "." (String "/" (String.concat "/" (y :: r))))).
    destruct (Path.trailingSeparator p); reflexivity.
Qed.

(** An absolute path is normalized to an absolute path. *)
Lemma normalize_absolute p :
  Path.isAbsolute p = true → Path.isAbsolute (Path.normalize p) = true.
Proof.
  intros Habs. unfold Path.normalize.
  destruct (String.eqb_spec p "") as [->|Hp]; [done|]. rewrite Habs.
  destruct (String.eqb _ ""); [done|].
  by destruct (Path.trailingSeparator p).
Qed.

Lemma absolute_not_up s :
  Path.isAbsolute s = true → Str.startsWith s "../" = false.
Proof.
  unfold Path.isAbsolute. destruct s as [|c s]; simpl; [done|].
  rewrite andb_true_r. intros <-%Ascii.eqb_eq. done.
Qed.

Lemma getLocalPath_unfold sourcePath name :
  getLocalPath sourcePath name =
  if is_url name then None
  else if Str.startsWith (Path.join (source_dir sourcePath) name) "../"
       then None
       else Some (Path.join (source_dir sourcePath) name).
Proof. reflexivity. Qed.

Lemma join_within sourcePath name :
  goes_above_root sourcePath name = false →
  Str.startsWith (Path.join (source_dir sourcePath) name) "../" = false.
Proof.
  unfold goes_above_root, Path.join.
  destruct (Path.joined (source_dir sourcePath) name) as [p|]; [|done].
  intros Hasc. destruct (Path.isAbsolute p) eqn:Habs.
  - by apply absolute_not_up, normalize_absolute.
  - by apply normalize_within.
Qed.

(** [getLocalPath] answers [None] for the URL-like names and for the joins
    that begin with ["../"], and for nothing else. *)
Lemma getLocalPath_none_iff sourcePath name :
  getLocalPath sourcePath name = None ↔
  is_url name = true
  ∨ Str.startsWith (Path.join (source_dir sourcePath) name) "../" = true.
Proof.
  rewrite getLocalPath_unfold.
  destruct (is_url name); [naive_solver|].
  destruct (Str.startsWith _ "../"); naive_solver.
Qed.

(** *** Relative results *)

Lemma dirname_scan_pos path : ∀ i m e,
  Path.dirname_scan path i m = Some e → 1 ≤ e.
Proof.
  induction i as [|j IH]; intros m e; simpl; [done|].
  destruct (String.get (S j) path) as [c|]; [|by apply IH].
  destruct (Str.is_slash c); [|by apply IH].
  destruct m; [by apply IH|]. intros [= <-]. lia.
Qed.

Lemma dirname_relative path :
  Path.isAbsolute path = false →
  Path.isAbsolute (Path.dirname path) = false ∧ Path.dirname path ≠ "".
Proof.
  intros Habs. unfold Path.dirname.
  destruct (String.eqb_spec path "") as [->|Hne]; [done|].
  unfold Path.isAbsolute in Habs. rewrite Habs. simpl.
  destruct (Path.dirname_scan path (String.length path - 1) true) as [e|] eqn:He;
    [|done].
  apply dirname_scan_pos in He.
  destruct e as [|e]; [lia|]. destruct path as [|c s]; [done|].
  unfold Str.slice. simpl. split; [|done].
  unfold Path.isAbsolute. simpl in *. by rewrite andb_true_r in *.
Qed.

Lemma source_dir_relative sourcePath :
  Str.startsWith sourcePath "//" = false →
  Path.isAbsolute (source_dir sourcePath) = false ∧ source_dir sourcePath ≠ "".
Proof.
  intros H. unfold source_dir. apply dirname_relative.
  destruct sourcePath as [|c s]; [done|]. simpl in *.
  rewrite andb_true_r.
  destruct (Ascii.eqb "/" c) eqn:Hc; simpl in *.
  - unfold Path.isAbsolute. destruct s as [|d s]; [done|]. simpl in *.
    by rewrite andb_true_r in *.
  - unfold Path.isAbsolute. simpl. by rewrite Hc.
Qed.

Lemma isAbsolute_app a b :
  a ≠ "" → Path.isAbsolute (a +:+ b) = Path.isAbsolute a.
Proof. destruct a; [done|]. intros _. reflexivity. Qed.

Lemma good_seg_relative x t : good_seg x → Path.isAbsolute (x +:+ t) = false.
Proof.
  intros [Hne Hns]. destruct x as [|c x]; [done|].
  unfold Path.isAbsolute. simpl in *. rewrite andb_true_r.
  apply andb_true_iff in Hns as [Hc _]. unfold Str.is_slash in Hc.
  rewrite Ascii.eqb_sym. by destruct (Ascii.eqb c "/").
Qed.

(** A relative path is normalized to a relative path. *)
Lemma normalize_relative p :
  Path.isAbsolute p = false → Path.isAbsolute (Path.normalize p) = false.
Proof.
  intros Habs. unfold Path.normalize.
  destruct (String.eqb p ""); [done|]. rewrite Habs. simpl.
  unfold Path.normalizeString.
  pose proof (normalize_segments_good true p) as Hg.
  destruct (Path.normalize_segments true (Str.segments p)) as [|x r].
  { simpl. by destruct (Path.trailingSeparator p). }
  inversion Hg as [|? ? Hgx _]; subst.
  destruct (concat_shape x r) as (t & -> & _).
  destruct (String.eqb (x +:+ t) ""); [by destruct (Path.trailingSeparator p)|].
  destruct (Path.trailingSeparator p).
  - rewrite app_assoc_string. by apply good_seg_relative.
  - by apply good_seg_relative.
Qed.

Lemma join_relative a b :
  Path.isAbsolute a = false → a ≠ "" → Path.isAbsolute (Path.join a b) = false.
Proof.
  intros Habs Hne. unfold Path.join, Path.joined.
  destruct (String.eqb_spec a ""); [done|].
  destruct (String.eqb b ""); apply normalize_relative; [done|].
  by rewrite isAbsolute_app.
Qed.

(** The text that [join] normalizes is relative when the source path
    does not begin with two slashes. *)
Lemma joined_relative sourcePath name p :
  Str.startsWith sourcePath "//" = false →
  Path.joined (source_dir sourcePath) name = Some p →
  Path.isAbsolute p = false.
Proof.
  intros [Habs Hne]%source_dir_relative. unfold Path.joined.
  destruct (String.eqb_spec (source_dir sourcePath) ""); [done|].
  destruct (String.eqb name ""); intros [= <-]; [done|].
  by rewrite isAbsolute_app.
Qed.

Lemma join_above sourcePath name :
  Str.startsWith sourcePath "//" = false →
  goes_above_root sourcePath name = true →
  Str.startsWith (Path.join (source_dir sourcePath) name) "../" = true
  ∨ Path.join (source_dir sourcePath) name = "..".
Proof.
  intros Hsrc. unfold goes_above_root, Path.join.
  destruct (Path.joined (source_dir sourcePath) name) as [p|] eqn:Hp; [|done].
  apply normalize_above. by apply (joined_relative sourcePath name).
Qed.

(** X1.  For a source path that does not begin with two slashes, whenever
    the resolution leaves the root [getLocalPath] answers [None], but for
    one case: a name that is not URL-like and whose normalized join is the
    bare string [".."], which it returns. *)
Lemma getLocalPath_above_cases sourcePath name :
  Str.startsWith sourcePath "//" = false →
  goes_above_root sourcePath name = true →
  getLocalPath sourcePath name
  = if is_url name then None
    else if String.eqb (Path.join (source_dir sourcePath) name) ".."
         then Some ".." else None.
Proof.
  intros Hsrc H. rewrite getLocalPath_unfold.
  destruct (is_url name); [done|].
  destruct (join_above _ _ Hsrc H) as [Hup| ->]; [|done].
  rewrite Hup.
  destruct (String.eqb_spec (Path.join (source_dir sourcePath) name) "..")
    as [E|_]; [|done].
  by rewrite E in Hup.
Qed.

(** An absolute directory has an absolute directory above it, and what is
    joined to an absolute path is absolute. *)
Lemma dirname_absolute path :
  Path.isAbsolute path = true → Path.isAbsolute (Path.dirname path) = true.
Proof.
  intros Habs. unfold Path.dirname.
  destruct (String.eqb_spec path "") as [->|Hne]; [done|].
  unfold Path.isAbsolute in Habs. rewrite Habs. simpl.
  destruct (Path.dirname_scan path (String.length path - 1) true) as [e|] eqn:He;
    [|done].
  apply dirname_scan_pos in He.
  destruct (Nat.eqb e 1); [done|].
  destruct e as [|e]; [lia|]. destruct path as [|c s]; [done|].
  unfold Str.slice. simpl. unfold Path.isAbsolute. simpl in *.
  by rewrite andb_true_r in *.
Qed.

Lemma source_dir_absolute sourcePath :
  Str.startsWith sourcePath "//" = true →
  Path.isAbsolute (source_dir sourcePath) = true.
Proof.
  intros H. unfold source_dir. apply dirname_absolute.
  destruct sourcePath as [|c [|d s]]; simpl in H; try done.
  - by rewrite andb_false_r in H.
  - apply andb_true_iff in H as [Hc H]. simpl. rewrite andb_true_r, Hc.
    simpl. unfold Path.isAbsolute. simpl. rewrite andb_true_r.
    by apply andb_true_iff in H as [Hd _].
Qed.

Lemma join_absolute a b :
  Path.isAbsolute a = true → Path.isAbsolute (Path.join a b) = true.
Proof.
  intros Habs. unfold Path.join, Path.joined.
  destruct (String.eqb_spec a "") as [->|Hne]; [done|].
  destruct (String.eqb b ""); apply normalize_absolute; [done|].
  by rewrite isAbsolute_app.
Qed.

(** *** The claims on [getLocalPath] *)

(** C1.  The claim asks for [null] whenever the normalized join lies above
    the root, the join that is exactly [".."] included.  At source path
    ["/b.md"] and name [".."] the resolution leaves the root and
    [getLocalPath] nevertheless returns the path [".."]: the guard
    [path.startsWith("../")] misses the bare parent link.  The same happens
    with an interior parent segment whose join is [".."]. *)
Theorem getLocalPath_bare_parent :
  goes_above_root "/b.md" ".." = true
  ∧ getLocalPath "/b.md" ".." = Some ".."
  ∧ goes_above_root "/a/b.md" "x/../../.." = true
  ∧ getLocalPath "/a/b.md" "x/../../.." = Some "..".
Proof. repeat split; reflexivity. Qed.

(** C7.  For every source path and every name that is not URL-like and
    whose resolution stays within the root, [getLocalPath] returns the
    normalized join of the name against the directory of the source path,
    its leading root slash stripped; for every source path that does not
    begin with two slashes the returned path is relative to the root: it
    has no leading slash. *)
Theorem getLocalPath_within_root sourcePath name :
  is_url name = false →
  goes_above_root sourcePath name = false →
  getLocalPath sourcePath name = Some (Path.join (source_dir sourcePath) name)
  ∧ (Str.startsWith sourcePath "//" = false →
     Path.isAbsolute (Path.join (source_dir sourcePath) name) = false).
Proof.
  intros Hurl Hin. split.
  - rewrite getLocalPath_unfold, Hurl. by rewrite join_within.
  - intros [Habs Hne]%source_dir_relative. by apply join_relative.
Qed.

Lemma getLocalPath_within_root_witness :
  getLocalPath "/a/b.md" "c.md" = Some "a/c.md".
Proof.
  exact (proj1 (getLocalPath_within_root "/a/b.md" "c.md" eq_refl eq_refl)).
Defined.

(** C7, as the claim has it, fails for a source path that begins with two
    slashes: one slash is stripped, the directory of what is left is the
    absolute ["/a"], and the name [c.md], which stays within the root, is
    answered with the absolute path ["/a/c.md"], not with a path relative
    to the root. *)
Lemma getLocalPath_within_root_absolute :
  is_url "c.md" = false
  ∧ goes_above_root "//a/b.md" "c.md" = false
  ∧ getLocalPath "//a/b.md" "c.md" = Some "/a/c.md"
  ∧ Path.isAbsolute "/a/c.md" = true.
Proof. repeat split; reflexivity. Qed.

(** ** Generators *)

Section Run.

Context {S : Type} (step : S → event S).

(** A run that has ended is not changed by more fuel. *)
Lemma run_more fuel : ∀ s extra,
  (run step fuel s).2 ≠ Suspended →
  run step (fuel + extra) s = run step fuel s.
Proof.
  induction fuel as [|n IH]; intros s extra; simpl; [done|].
  destruct (step s) as [v s'|s'| |e]; simpl; intros H; rewrite ?IH; done.
Qed.

Lemma run_stable fuel fuel' s :
  (run step fuel s).2 ≠ Suspended → fuel ≤ fuel' →
  run step fuel' s = run step fuel s.
Proof.
  intros H Hle. replace fuel' with (fuel + (fuel' - fuel)) by lia.
  by apply run_more.
Qed.

(** The markdown filter, on any inner generator. *)
Lemma run_markdown fuel : ∀ s,
  run (visitMarkdownFiles_step step) fuel s =
  (filter (λ file, Path.extname file = ".md") (run step fuel s).1,
   (run step fuel s).2).
Proof.
  induction fuel as [|n IH]; intros s; simpl; [done|].
  unfold visitMarkdownFiles_step at 1.
  destruct (step s) as [v s'|s'| |e]; simpl; rewrite ?IH; try done.
  destruct (String.eqb_spec (Path.extname v) ".md") as [Hmd|Hmd]; simpl.
  - rewrite IH. simpl. by rewrite filter_cons_True.
  - rewrite IH. by rewrite filter_cons_False.
Qed.

End Run.

(** ** The walk *)

Section WalkFacts.

Variable stat : string → option Stats.
Variable readdir : string → option (list string).
Variable cwd : string.

#[local] Abbreviation step := (visitFiles_step stat readdir cwd).

(** *** Termination *)

Lemma unvisited_shrinks (inos seen : gset N) i :
  i ∈ inos → i ∉ seen → size (inos ∖ ({[i]} ∪ seen)) < size (inos ∖ seen).
Proof. intros Hin Hout. apply subset_size. set_solver. Qed.

(** What each kind of round says about the state it started from. *)
Lemma step_yield root w v w' :
  step root w = Yield v w' →
  ∃ path status,
    queue w !! index w = Some path ∧ stat path = Some status
    ∧ isDirectory status = false
    ∧ v = Path.relative cwd root path
    ∧ w' = {| visited := visited w; queue := queue w; index := S (index w) |}.
Proof.
  unfold visitFiles_step.
  destruct (queue w !! index w) as [path|] eqn:Hq; [|done].
  destruct (stat path) as [status|] eqn:Hst; [|done].
  destruct (isDirectory status) eqn:Hd.
  - destruct (decide _); [done|]. by destruct (readdir path).
  - intros [= <- <-]. by exists path, status.
Qed.

Lemma step_skip root w w' :
  step root w = Skip w' →
  ∃ path status entries,
    queue w !! index w = Some path ∧ stat path = Some status
    ∧ isDirectory status = true ∧ (ino status ∉ visited w)
    ∧ readdir path = Some entries
    ∧ w' = {| visited := {[ino status]} ∪ visited w;
              queue := queue w ++ map (Path.join path) entries;
              index := S (index w) |}.
Proof.
  unfold visitFiles_step.
  destruct (queue w !! index w) as [path|] eqn:Hq; [|done].
  destruct (stat path) as [status|] eqn:Hst; [|done].
  destruct (isDirectory status) eqn:Hd; [|done].
  destruct (decide _); [done|].
  destruct (readdir path) as [entries|] eqn:Hrd; [|done].
  intros [= <-]. by exists path, status, entries.
Qed.

Lemma step_return root w :
  step root w = Return → length (queue w) ≤ index w.
Proof.
  unfold visitFiles_step.
  destruct (queue w !! index w) as [path|] eqn:Hq.
  - destruct (stat path) as [status|] eqn:Hst; [|done].
    destruct (isDirectory status); [|done].
    destruct (decide _); [done|]. by destruct (readdir path).
  - intros _. by apply lookup_ge_None.
Qed.

Lemma step_throw root w e :
  step root w = Throw e →
  ∃ path,
    queue w !! index w = Some path
    ∧ ((stat path = None ∧ e = SystemError "stat" path)
       ∨ ∃ status,
           stat path = Some status ∧ isDirectory status = true
           ∧ ((ino status ∈ visited w
               ∧ e = Error ("Circular directory: " +:+ path))
              ∨ (readdir path = None ∧ e = SystemError "scandir" path))).
Proof.
  unfold visitFiles_step.
  destruct (queue w !! index w) as [path|] eqn:Hq; [|done].
  intros H. exists path. split; [done|].
  destruct (stat path) as [status|] eqn:Hst.
  - destruct (isDirectory status) eqn:Hd; [|done].
    right. exists status. split; [done|]. split; [done|].
    destruct (decide (ino status ∈ visited w)) as [Hin|Hout].
    + left. split; [done|]. congruence.
    + right. destruct (readdir path) eqn:Hrd; [done|].
      split; [done|]. congruence.
  - left. split; [done|]. congruence.
Qed.

Lemma run_terminates inos root :
  finite_dirs stat inos →
  ∀ u w, size (inos ∖ visited w) ≤ u →
  ∃ fuel, (run (step root) fuel w).2 ≠ Suspended.
Proof.
  intros Hfin u. induction u as [u IHu] using lt_wf_ind. intros w Hu.
  remember (length (queue w) - index w) as r eqn:Hr.
  revert w Hu Hr. induction r as [r IHr] using lt_wf_ind. intros w Hu Hr.
  destruct (step root w) as [v w'|w'| |e] eqn:Hstep.
  - destruct (step_yield _ _ _ _ Hstep) as (path & status & Hq & _ & _ & _ & ->).
    apply lookup_lt_Some in Hq.
    destruct (IHr (length (queue w) - S (index w)) ltac:(lia)
                {| visited := visited w; queue := queue w;
                   index := S (index w) |} Hu eq_refl) as [fuel Hfuel].
    exists (S fuel). simpl. by rewrite Hstep.
  - destruct (step_skip _ _ _ Hstep)
      as (path & status & entries & Hq & Hst & Hd & Hfresh & _ & ->).
    pose proof (unvisited_shrinks inos (visited w) (ino status)
                  (Hfin _ _ Hst Hd) Hfresh) as Hlt.
    destruct (IHu (size (inos ∖ ({[ino status]} ∪ visited w))) ltac:(lia)
                {| visited := {[ino status]} ∪ visited w;
                   queue := queue w ++ map (Path.join path) entries;
                   index := S (index w) |} ltac:(simpl; lia)) as [fuel Hfuel].
    exists (S fuel). simpl. by rewrite Hstep.
  - exists 1. simpl. by rewrite Hstep.
  - exists 1. simpl. by rewrite Hstep.
Qed.


(** *** The invariant of the walk *)

Lemma walk_inv_init root : walk_inv stat readdir root (visitFiles_init root).
Proof.
  split; simpl; try done.
  - lia.
  - intros p ->%list_elem_of_singleton. constructor.
  - intros; lia.
  - intros; lia.
Qed.

Lemma walk_inv_yield root w v w' :
  walk_inv stat readdir root w → step root w = Yield v w' → walk_inv stat readdir root w'.
Proof.
  intros [Hroot Hidx Hreach Hdone Hfresh Hvis] Hstep.
  destruct (step_yield _ _ _ _ Hstep) as (path & status & Hq & Hst & Hd & _ & ->).
  pose proof (lookup_lt_Some _ _ _ Hq) as Hlt.
  split; simpl; try done.
  - intros j p sp Hj Hp Hsp Hdp.
    destruct (decide (j = index w)) as [->|Hne].
    + congruence.
    + apply (Hdone j p sp); [lia|done..].
  - intros j k p q sp sq Hjk Hk Hp Hq' Hsp Hsq Hdp Hdq.
    destruct (decide (k = index w)) as [->|Hne].
    + congruence.
    + apply (Hfresh j k p q sp sq); [done|lia|done..].
Qed.

Lemma walk_inv_skip root w w' :
  walk_inv stat readdir root w → step root w = Skip w' → walk_inv stat readdir root w'.
Proof.
  intros [Hroot Hidx Hreach Hdone Hfresh Hvis] Hstep.
  destruct (step_skip _ _ _ Hstep)
    as (path & status & entries & Hq & Hst & Hd & Hnew & Hrd & ->).
  pose proof (lookup_lt_Some _ _ _ Hq) as Hlt.
  split; simpl.
  - by apply lookup_app_l_Some.
  - rewrite length_app. lia.
  - intros p [Hp|Hp]%elem_of_app; [by apply Hreach|].
    apply list_elem_of_fmap in Hp as (entry & -> & Hentry).
    constructor; [apply Hreach; by eapply list_elem_of_lookup_2|].
    by exists status, entries.
  - intros j p sp Hj Hp Hsp Hdp.
    destruct (decide (j = index w)) as [->|Hne].
    + rewrite lookup_app_l in Hp by done.
      assert (p = path) as -> by congruence.
      assert (sp = status) as -> by congruence.
      split; [set_solver|].
      intros entry (status' & entries' & _ & _ & Hrd' & Hentry).
      assert (entries' = entries) as -> by congruence.
      apply list_elem_of_lookup in Hentry as [i Hi].
      exists (length (queue w) + i). split; [lia|].
      rewrite lookup_app_r by lia.
      replace (length (queue w) + i - length (queue w)) with i by lia.
      by rewrite list_lookup_fmap, Hi.
    + rewrite lookup_app_l in Hp by lia.
      destruct (Hdone j p sp ltac:(lia) Hp Hsp Hdp) as [Hin Hent].
      split; [set_solver|].
      intros entry Hentry. destruct (Hent entry Hentry) as (k & Hk & Hqk).
      exists k. split; [done|]. by apply lookup_app_l_Some.
  - intros j k p q sp sq Hjk Hk Hp Hq' Hsp Hsq Hdp Hdq.
    rewrite lookup_app_l in Hp by lia.
    rewrite lookup_app_l in Hq' by lia.
    destruct (decide (k = index w)) as [->|Hne].
    + assert (q = path) as -> by congruence.
      assert (sq = status) as -> by congruence.
      destruct (Hdone j p sp Hjk Hp Hsp Hdp) as [Hin _].
      intros Heq. apply Hnew. by rewrite <- Heq.
    + apply (Hfresh j k p q sp sq); [done|lia|done..].
  - intros i [Hi|Hi]%elem_of_union; [|by apply Hvis].
    apply elem_of_singleton in Hi as ->.
    exists path, status. split; [|done].
    apply Hreach. by eapply list_elem_of_lookup_2.
Qed.

(** *** The order of discovery *)

Lemma walk_order_init root : walk_order stat readdir root (visitFiles_init root).
Proof.
  split; simpl; [done|]. by intros n ?%elem_of_empty.
Qed.

Lemma discovery_next root j queue path new :
  discovery stat readdir root j queue → queue !! j = Some path →
  queued_by stat readdir path = new →
  discovery stat readdir root (S j) (queue ++ new).
Proof.
  unfold discovery. intros Hq Hj Hnew.
  pose proof (lookup_lt_Some _ _ _ Hj) as Hlt.
  rewrite take_app_le by lia. rewrite (take_S_r _ _ path) by done.
  rewrite bind_app. change ([path] ≫= queued_by stat readdir)
    with (queued_by stat readdir path ++ []).
  rewrite app_nil_r, Hnew. rewrite Hq at 1. by rewrite app_comm_cons.
Qed.

Lemma walk_order_yield root w v w' :
  walk_order stat readdir root w → step root w = Yield v w' →
  walk_order stat readdir root w'.
Proof.
  intros [Hdisc Hvis] Hstep.
  destruct (step_yield _ _ _ _ Hstep) as (path & status & Hq & Hst & Hd & _ & ->).
  split; simpl.
  - rewrite <- (app_nil_r (queue w)).
    apply (discovery_next root _ _ path); [done..|].
    unfold queued_by. by rewrite Hst, Hd.
  - intros n Hn. destruct (Hvis n Hn) as (i & p & sp & Hi & H).
    exists i, p, sp. split; [lia|done].
Qed.

Lemma walk_order_skip root w w' :
  walk_order stat readdir root w → step root w = Skip w' →
  walk_order stat readdir root w'.
Proof.
  intros [Hdisc Hvis] Hstep.
  destruct (step_skip _ _ _ Hstep)
    as (path & status & entries & Hq & Hst & Hd & Hnew & Hrd & ->).
  split; simpl.
  - apply (discovery_next root _ _ path); [done..|].
    unfold queued_by. by rewrite Hst, Hd, Hrd.
  - intros n [Hn|Hn]%elem_of_union.
    + apply elem_of_singleton in Hn as ->.
      exists (index w), path, status. split; [lia|].
      split; [by apply lookup_app_l_Some|done].
    + destruct (Hvis n Hn) as (i & p & sp & Hi & Hp & H).
      exists i, p, sp. split; [lia|]. split; [by apply lookup_app_l_Some|done].
Qed.

(** A round that throws the circular-directory error does so on the first
    queued directory whose inode number repeats that of an earlier one. *)
Lemma throw_visited root w path status :
  walk_inv stat readdir root w → walk_order stat readdir root w →
  queue w !! index w = Some path → stat path = Some status →
  isDirectory status = true → ino status ∈ visited w →
  circular stat readdir root (Error ("Circular directory: " +:+ path)).
Proof.
  intros Hinv [Hdisc Hvis] Hq Hst Hd Hin.
  destruct (Hvis _ Hin) as (i & p & sp & Hi & Hp & Hsp & Hdp & Hino).
  exists (queue w), i, (index w), p, path, sp, status.
  repeat split; try done.
  - apply (inv_reach _ _ _ _ Hinv). by eapply list_elem_of_lookup_2.
  - apply (inv_reach _ _ _ _ Hinv). by eapply list_elem_of_lookup_2.
  - intros a b pa pb sa sb Hab Hb. by apply (inv_fresh _ _ _ _ Hinv).
Qed.


(** *** Cycles *)

(** When the queue is used up, every reachable path has been queued. *)
Lemma reach_queued root w p :
  walk_inv stat readdir root w → length (queue w) ≤ index w →
  reach stat readdir root p → ∃ j, queue w !! j = Some p.
Proof.
  intros Hinv Hend Hp. induction Hp as [|p entry _ [j Hj] Hentry].
  - exists 0. apply Hinv.
  - pose proof (lookup_lt_Some _ _ _ Hj) as Hlt.
    destruct Hentry as (sp & entries & Hsp & Hd & Hrd & Hin).
    destruct (inv_done _ _ _ _ Hinv j p sp ltac:(lia) Hj Hsp Hd) as [_ Hent].
    destruct (Hent entry) as (k & _ & Hk); [by exists sp, entries|].
    by exists k.
Qed.

(** And every path beneath a queued directory is queued behind it. *)
Lemma below_queued root w j p q :
  walk_inv stat readdir root w → length (queue w) ≤ index w →
  queue w !! j = Some p → below stat readdir p q →
  ∃ k, j < k ∧ queue w !! k = Some q.
Proof.
  intros Hinv Hend Hj Hq.
  pose proof (lookup_lt_Some _ _ _ Hj) as Hlt.
  induction Hq as [entry Hentry|q entry _ (k & Hjk & Hk) Hentry].
  - destruct Hentry as (sp & entries & Hsp & Hd & Hrd & Hin).
    destruct (inv_done _ _ _ _ Hinv j p sp ltac:(lia) Hj Hsp Hd) as [_ Hent].
    apply Hent. by exists sp, entries.
  - pose proof (lookup_lt_Some _ _ _ Hk) as Hltk.
    destruct Hentry as (sq & entries & Hsq & Hd & Hrd & Hin).
    destruct (inv_done _ _ _ _ Hinv k q sq ltac:(lia) Hk Hsq Hd) as [_ Hent].
    destruct (Hent entry) as (k' & Hkk' & Hk'); [by exists sq, entries|].
    exists k'. split; [lia|done].
Qed.

(** A walk over a graph with a cycle never uses up its queue. *)
Lemma cycle_no_return root w :
  has_cycle stat readdir root → walk_inv stat readdir root w → step root w ≠ Return.
Proof.
  intros (p & q & sp & sq & Hp & Hq & Hsp & Hdp & Hsq & Hdq & _ & Hino)
         Hinv Hret%step_return.
  destruct (reach_queued _ _ _ Hinv Hret Hp) as [j Hj].
  destruct (below_queued _ _ _ _ _ Hinv Hret Hj Hq) as (k & Hjk & Hk).
  pose proof (lookup_lt_Some _ _ _ Hk) as Hlt.
  by apply (inv_fresh _ _ _ _ Hinv j k p q sp sq Hjk ltac:(lia) Hj Hk Hsp Hsq Hdp Hdq).
Qed.

(** On a well-formed graph the walk throws nothing but that error. *)
Lemma throw_circular root w e :
  well_formed stat readdir root →
  walk_inv stat readdir root w → walk_order stat readdir root w →
  step root w = Throw e → circular stat readdir root e.
Proof.
  intros Hwf Hinv Hord (path & Hq & Hcase)%step_throw.
  assert (reach stat readdir root path) as Hreach.
  { apply (inv_reach _ _ _ _ Hinv). by eapply list_elem_of_lookup_2. }
  destruct (Hwf path Hreach) as (status & Hst & Hrd).
  destruct Hcase as [[Hnone _]|(status' & Hst' & Hd & Hcase)]; [congruence|].
  assert (status' = status) as -> by congruence.
  destruct Hcase as [[Hin ->]|[Hnone _]].
  - by apply (throw_visited root w path status).
  - destruct (Hrd Hd) as [entries Hentries]. congruence.
Qed.

Lemma run_cycle root :
  well_formed stat readdir root → has_cycle stat readdir root →
  ∀ fuel w, walk_inv stat readdir root w → walk_order stat readdir root w →
    match (run (step root) fuel w).2 with
    | Completed => False
    | Failed e => circular stat readdir root e
    | Suspended => True
    end.
Proof.
  intros Hwf Hcyc fuel.
  induction fuel as [|n IH]; intros w Hinv Hord; simpl; [done|].
  destruct (step root w) as [v w'|w'| |e] eqn:Hstep; simpl.
  - apply IH; [by eapply walk_inv_yield|by eapply walk_order_yield].
  - apply IH; [by eapply walk_inv_skip|by eapply walk_order_skip].
  - by apply (cycle_no_return root w).
  - by eapply throw_circular.
Qed.

(** C3.  On a file system with finitely many directories [visitFiles]
    terminates: some number of rounds ends the walk.  If moreover the
    graph beneath the root is well formed and contains a cycle, the walk
    ends by throwing the error [Circular directory: path], where [path] is
    the first path, in the order of discovery, that is a directory whose
    inode number is that of a directory queued in front of it and entered
    before; what was yielded until then is all that is ever yielded,
    whatever the number of further rounds allowed. *)
Theorem visitFiles_terminates inos root :
  finite_dirs stat inos →
  (∃ fuel, (visitFiles stat readdir cwd fuel root).2 ≠ Suspended)
  ∧ (well_formed stat readdir (Path.normalize root) →
     has_cycle stat readdir (Path.normalize root) →
     ∃ fuel yielded e,
       circular stat readdir (Path.normalize root) e
       ∧ ∀ fuel', fuel ≤ fuel' →
           visitFiles stat readdir cwd fuel' root = (yielded, Failed e)).
Proof.
  intros Hfin. unfold visitFiles.
  destruct (run_terminates inos (Path.normalize root) Hfin _
              (visitFiles_init (Path.normalize root)) (le_n _))
    as [fuel Hfuel].
  split; [by exists fuel|].
  intros Hwf Hcyc.
  pose proof (run_cycle _ Hwf Hcyc fuel _ (walk_inv_init _)
                (walk_order_init _)) as Hrun.
  destruct (run (step (Path.normalize root)) fuel
              (visitFiles_init (Path.normalize root))) as [yielded o] eqn:Hr.
  simpl in *. destruct o as [|e|]; [done| |done].
  exists fuel, yielded, e. split; [done|].
  intros fuel' Hle. rewrite <- Hr. apply run_stable; [|done].
  by rewrite Hr.
Qed.

(** *** The markdown filter and the identity of directories *)

(** C8.  For every root, what [visitMarkdownFiles] yields is what
    [visitFiles] yields, filtered to the paths whose extension is [".md"],
    in the same order; both walks end the same way. *)
Theorem visitMarkdownFiles_filter fuel root :
  visitMarkdownFiles stat readdir cwd fuel root =
  (filter (λ file, Path.extname file = ".md")
          (visitFiles stat readdir cwd fuel root).1,
   (visitFiles stat readdir cwd fuel root).2).
Proof. apply run_markdown. Qed.

Lemma descents_fresh root fuel : ∀ w,
  NoDup (ino <$> descents stat readdir cwd root fuel w)
  ∧ ∀ i, i ∈ ino <$> descents stat readdir cwd root fuel w → i ∉ visited w.
Proof.
  induction fuel as [|n IH]; intros w; simpl.
  { split; [constructor|]. intros i Hi. by apply elem_of_nil in Hi. }
  destruct (step root w) as [v w'|w'| |e] eqn:Hstep.
  - destruct (step_yield _ _ _ _ Hstep) as (path & status & _ & _ & _ & _ & ->).
    apply (IH {| visited := visited w; queue := queue w;
                 index := S (index w) |}).
  - destruct (step_skip _ _ _ Hstep)
      as (path & status & entries & Hq & Hst & Hd & Hnew & Hrd & ->).
    rewrite Hq. simpl. rewrite Hst.
    destruct (IH {| visited := {[ino status]} ∪ visited w;
                    queue := queue w ++ map (Path.join path) entries;
                    index := S (index w) |}) as [Hnd Hout].
    simpl in Hout. split.
    + rewrite fmap_cons. constructor; [|done].
      intros Hin. apply (Hout _ Hin). set_solver.
    + intros i. rewrite fmap_cons. intros [->|Hin]%elem_of_cons; [done|].
      specialize (Hout _ Hin). set_solver.
  - split; [constructor|]. intros i Hi. by apply elem_of_nil in Hi.
  - split; [constructor|]. intros i Hi. by apply elem_of_nil in Hi.
Qed.

(** C10.  The walk tells directories apart by inode number alone: the
    directories it descends into have pairwise distinct inode numbers, and
    a round that finds a directory whose inode number is in [visited]
    throws the circular-directory error on its path, whatever the device
    of that directory. *)
Theorem visited_by_inode root :
  (∀ fuel,
     NoDup (ino <$> descents stat readdir cwd root fuel (visitFiles_init root)))
  ∧ (∀ w path status,
       queue w !! index w = Some path →
       stat path = Some status →
       isDirectory status = true →
       ino status ∈ visited w →
       step root w = Throw (Error ("Circular directory: " +:+ path))).
Proof.
  split.
  - intros fuel. apply descents_fresh.
  - intros w path status Hq Hst Hd Hin. unfold visitFiles_step.
    rewrite Hq, Hst, Hd. by rewrite decide_True.
Qed.

(** *** Trees *)

Lemma fs_tree_entries path status entries :
  fs_tree stat readdir path (Dir status entries) →
  fs_level stat readdir (entries_at (path, Dir status entries)).
Proof.
  simpl. intros (_ & _ & _ & Hall). unfold fs_level, entries_at. simpl.
  induction entries as [|[name t'] es IH]; simpl; [constructor|].
  destruct Hall as [Ht' Hes]. constructor; [done|]. by apply IH.
Qed.

Lemma fs_level_children level :
  fs_level stat readdir level → fs_level stat readdir (children_of level).
Proof.
  unfold fs_level, children_of. induction 1 as [|[p t] level Ht _ IH]; simpl.
  { constructor. }
  apply Forall_app. split; [|done].
  destruct t as [|status entries]; [constructor|].
  by apply fs_tree_entries.
Qed.

Lemma level_height_app l1 l2 :
  level_height (l1 ++ l2) = level_height l1 `max` level_height l2.
Proof.
  unfold level_height. induction l1 as [|node l1 IH]; simpl; [done|].
  rewrite IH. lia.
Qed.

Lemma level_height_entries path status entries :
  S (level_height (entries_at (path, Dir status entries)))
  = height (Dir status entries).
Proof.
  unfold entries_at, level_height. simpl. f_equal.
  induction entries as [|e es IH]; simpl; [done|]. by rewrite IH.
Qed.

Lemma level_height_children level :
  level_height (children_of level) ≤ pred (level_height level).
Proof.
  induction level as [|[p t] level IH]; [done|].
  change (children_of ((p, t) :: level))
    with (entries_at (p, t) ++ children_of level).
  change (level_height ((p, t) :: level))
    with (height t `max` level_height level).
  rewrite level_height_app.
  destruct t as [|status entries].
  - change (level_height (entries_at (p, File))) with 0.
    change (height File) with 1. lia.
  - rewrite <- (level_height_entries p status entries). lia.
Qed.

Lemma level_height_0 level : level_height level = 0 → level = [].
Proof.
  destruct level as [|[p t] level]; [done|]. simpl.
  destruct t; simpl; lia.
Qed.

Lemma all_files_entries path status entries :
  all_files path (Dir status entries)
  = files_below (entries_at (path, Dir status entries)).
Proof.
  unfold files_below, entries_at. simpl.
  induction entries as [|[name t'] es IH]; simpl; [done|]. by rewrite IH.
Qed.

Lemma dir_inos_entries path status entries :
  dir_inos (Dir status entries)
  = ino status :: all_inos (entries_at (path, Dir status entries)).
Proof.
  unfold all_inos, entries_at. simpl. f_equal.
  induction entries as [|[name t'] es IH]; simpl; [done|]. by rewrite IH.
Qed.

Lemma children_of_cons node level :
  children_of (node :: level) = entries_at node ++ children_of level.
Proof. reflexivity. Qed.

Lemma files_below_cons p t level :
  files_below ((p, t) :: level) = all_files p t ++ files_below level.
Proof. reflexivity. Qed.

Lemma files_below_app l1 l2 :
  files_below (l1 ++ l2) = files_below l1 ++ files_below l2.
Proof. apply bind_app. Qed.

Lemma all_inos_cons p t level :
  all_inos ((p, t) :: level) = dir_inos t ++ all_inos level.
Proof. reflexivity. Qed.

Lemma all_inos_app l1 l2 : all_inos (l1 ++ l2) = all_inos l1 ++ all_inos l2.
Proof. apply bind_app. Qed.

(** The files beneath a level are those of the level and those beneath the
    next level. *)
Lemma files_below_children level :
  files_below level ≡ₚ files_of level ++ files_below (children_of level).
Proof.
  induction level as [|[p t] level IH]; [done|].
  rewrite files_below_cons, children_of_cons, files_below_app.
  destruct t as [|status entries].
  - change (files_of ((p, File) :: level)) with (p :: files_of level).
    change (files_below (entries_at (p, File))) with (@nil string).
    change (all_files p File) with [p]. simpl. by rewrite IH.
  - change (files_of ((p, Dir status entries) :: level)) with (files_of level).
    rewrite (all_files_entries p status entries), IH.
    by rewrite Permutation_app_swap_app.
Qed.

Lemma all_inos_children level :
  all_inos level ≡ₚ level_inos level ++ all_inos (children_of level).
Proof.
  induction level as [|[p t] level IH]; [done|].
  rewrite all_inos_cons, children_of_cons, all_inos_app.
  destruct t as [|status entries].
  - change (level_inos ((p, File) :: level)) with (level_inos level).
    change (all_inos (entries_at (p, File))) with (@nil N).
    change (dir_inos File) with (@nil N). simpl. by rewrite IH.
  - change (level_inos ((p, Dir status entries) :: level))
      with (ino status :: level_inos level).
    rewrite (dir_inos_entries p status entries), IH. simpl. constructor.
    by rewrite Permutation_app_swap_app.
Qed.

(** Breadth-first order lists every file beneath the level once. *)
Lemma level_order_files n : ∀ level,
  level_height level ≤ n → level_order n level ≡ₚ files_below level.
Proof.
  induction n as [|n IH]; intros level Hh; simpl.
  - assert (level_height level = 0) as ->%level_height_0 by lia. done.
  - rewrite files_below_children. f_equiv. apply IH.
    pose proof (level_height_children level). lia.
Qed.

(** *** The walk over a tree *)

Lemma walk_eq v v' q q' i i' :
  v = v' → q = q' → i = i' →
  {| visited := v; queue := q; index := i |}
  = {| visited := v'; queue := q'; index := i' |}.
Proof. by intros -> -> ->. Qed.

Lemma entries_at_paths path status entries :
  (entries_at (path, Dir status entries)).*1 = map (Path.join path) (entries.*1).
Proof.
  unfold entries_at. simpl.
  induction entries as [|e es IH]; [done|]. csimpl. by f_equal.
Qed.

Lemma after_level_nil w : after_level w [] = w.
Proof.
  destruct w as [v q i]. unfold after_level. simpl.
  apply walk_eq; [set_solver|apply app_nil_r|lia].
Qed.

Lemma after_level_file w p level :
  after_level {| visited := visited w; queue := queue w;
                 index := S (index w) |} level
  = after_level w ((p, File) :: level).
Proof. unfold after_level. simpl. apply walk_eq; [done|done|lia]. Qed.

Lemma after_level_dir w p status entries level :
  after_level {| visited := {[ino status]} ∪ visited w;
                 queue := queue w ++ map (Path.join p) (entries.*1);
                 index := S (index w) |} level
  = after_level w ((p, Dir status entries) :: level).
Proof.
  unfold after_level. simpl. apply walk_eq; [set_solver| |lia].
  rewrite fmap_app, entries_at_paths. by rewrite <- app_assoc.
Qed.

(** The rounds that dequeue one level yield its files in order and queue
    the next level behind what was queued. *)
Lemma run_level root level : ∀ w pre post n,
  queue w = pre ++ level.*1 ++ post → index w = length pre →
  fs_level stat readdir level → NoDup (level_inos level) →
  (∀ i, i ∈ level_inos level → i ∉ visited w) →
  run (step root) (length level + n) w =
  ((Path.relative cwd root <$> files_of level)
     ++ (run (step root) n (after_level w level)).1,
   (run (step root) n (after_level w level)).2).
Proof.
  induction level as [|[p t] level IH]; intros w pre post n Hq Hidx Hfs Hnd Hnew.
  { rewrite after_level_nil. simpl. by destruct (run _ _ _). }
  assert (queue w !! index w = Some p) as Hp.
  { rewrite Hq, Hidx. by apply list_lookup_middle. }
  apply Forall_cons in Hfs as [Ht Hfs]. simpl in Ht.
  change (length ((p, t) :: level) + n) with (S (length level + n)).
  destruct t as [|status entries].
  - destruct Ht as (status & Hst & Hd).
    assert (step root w
            = Yield (Path.relative cwd root p)
                {| visited := visited w; queue := queue w;
                   index := S (index w) |}) as Hstep.
    { unfold visitFiles_step. by rewrite Hp, Hst, Hd. }
    simpl run. rewrite Hstep.
    rewrite (IH _ (pre ++ [p]) post n); simpl; try done.
    + by rewrite (after_level_file w p level).
    + by rewrite Hq, <- app_assoc.
    + rewrite length_app. simpl. lia.
  - destruct Ht as (Hst & Hd & Hrd & _).
    change (level_inos ((p, Dir status entries) :: level))
      with (ino status :: level_inos level) in Hnd, Hnew.
    apply NoDup_cons in Hnd as [Hfresh Hnd].
    assert (step root w
            = Skip {| visited := {[ino status]} ∪ visited w;
                      queue := queue w ++ map (Path.join p) (entries.*1);
                      index := S (index w) |}) as Hstep.
    { unfold visitFiles_step. rewrite Hp, Hst, Hd, Hrd.
      rewrite decide_False; [done|]. apply Hnew. by left. }
    simpl run. rewrite Hstep.
    rewrite (IH _ (pre ++ [p]) (post ++ map (Path.join p) (entries.*1)) n);
      simpl; try done.
    + by rewrite (after_level_dir w p status entries level).
    + rewrite Hq. by rewrite <- !app_assoc.
    + rewrite length_app. simpl. lia.
    + intros i Hi [->%elem_of_singleton|Hv]%elem_of_union; [done|].
      apply (Hnew i); [by right|done].
Qed.

(** Level after level, the walk over a forest whose directories have
    pairwise distinct inode numbers yields the files in breadth-first
    order and returns. *)
Lemma run_levels root n : ∀ level w pre,
  queue w = pre ++ level.*1 → index w = length pre →
  fs_level stat readdir level → NoDup (all_inos level) →
  (∀ i, i ∈ all_inos level → i ∉ visited w) →
  level_height level ≤ n →
  ∃ fuel,
    run (step root) fuel w
    = (Path.relative cwd root <$> level_order n level, Completed).
Proof.
  induction n as [|n IH]; intros level w pre Hq Hidx Hfs Hnd Hnew Hh.
  - assert (level_height level = 0) as ->%level_height_0 by lia.
    exists 1. simpl. unfold visitFiles_step.
    rewrite lookup_ge_None_2; [done|].
    rewrite Hq, Hidx, length_app. simpl. lia.
  - pose proof (all_inos_children level) as Hperm.
    rewrite Hperm in Hnd. apply NoDup_app in Hnd as (Hnd1 & Hdisj & Hnd2).
    destruct (IH (children_of level) (after_level w level) (queue w))
      as [fuel Hfuel]; simpl.
    + done.
    + rewrite Hidx, Hq, length_app, length_fmap. done.
    + by apply fs_level_children.
    + done.
    + intros i Hi [Hl%elem_of_list_to_set|Hv]%elem_of_union.
      * by apply (Hdisj i).
      * apply (Hnew i); [|done]. rewrite Hperm. apply elem_of_app. by right.
    + pose proof (level_height_children level). lia.
    + exists (length level + fuel).
      rewrite (run_level root level w pre [] fuel); try done.
      * rewrite Hfuel. simpl. by rewrite fmap_app.
      * by rewrite app_nil_r.
      * intros i Hi. apply Hnew. rewrite Hperm. apply elem_of_app. by left.
Qed.

(** C4, as it holds.  Over a directory tree whose directories have
    pairwise distinct inode numbers, [visitFiles] returns after yielding
    the files beneath the root, each once, as paths relative to the root,
    in breadth-first order for the given listings. *)
Theorem visitFiles_tree root t :
  fs_tree stat readdir (Path.normalize root) t →
  NoDup (dir_inos t) →
  (∃ fuel, ∀ fuel', fuel ≤ fuel' →
     visitFiles stat readdir cwd fuel' root
     = (Path.relative cwd (Path.normalize root)
          <$> bfs_files (Path.normalize root) t,
        Completed))
  ∧ bfs_files (Path.normalize root) t ≡ₚ all_files (Path.normalize root) t.
Proof.
  intros Hfs Hnd. set (r := Path.normalize root) in *.
  assert (level_height [(r, t)] ≤ height t) as Hh by (simpl; lia).
  split.
  - destruct (run_levels r (height t) [(r, t)] (visitFiles_init r) [])
      as [fuel Hfuel]; try done.
    + by constructor.
    + unfold all_inos. simpl. by rewrite app_nil_r.
    + exists fuel. intros fuel' Hle. unfold visitFiles, bfs_files. fold r.
      rewrite <- Hfuel. apply run_stable; [|done]. by rewrite Hfuel.
  - unfold bfs_files. rewrite (level_order_files _ _ Hh).
    unfold files_below. simpl. by rewrite app_nil_r.
Qed.

End WalkFacts.

(** *** The walk on the sample file systems *)

Example visitFiles_docs :
  visitFiles docs_stat docs_readdir "/project" 5 "."
  = (["docs/a.md"; "docs/b.md"], Completed).
Proof. vm_compute. reflexivity. Qed.

Example visitMarkdownFiles_docs :
  visitMarkdownFiles docs_stat docs_readdir "/project" 5 "."
  = (["docs/a.md"; "docs/b.md"], Completed).
Proof. vm_compute. reflexivity. Qed.

Example visitFiles_loop :
  visitFiles loop_stat loop_readdir "/project" 3 "r"
  = (["x.md"], Failed (Error "Circular directory: r/loop")).
Proof. vm_compute. reflexivity. Qed.

Lemma loop_finite : finite_dirs loop_stat {[1%N]}.
Proof.
  intros path status. unfold loop_stat.
  destruct (String.eqb _ ".md"); intros [= <-]; [done|]. set_solver.
Qed.

Lemma loop_well_formed root : well_formed loop_stat loop_readdir root.
Proof.
  intros path _. unfold loop_stat, loop_readdir.
  destruct (String.eqb _ ".md"); eexists; split; try done.
Qed.

Lemma loop_has_cycle : has_cycle loop_stat loop_readdir "r".
Proof.
  exists "r", (Path.join "r" "loop"), (dir_status 1 1), (dir_status 1 1).
  split; [constructor|]. split; [|done].
  constructor. exists (dir_status 1 1), ["x.md"; "loop"].
  repeat split; try done. set_solver.
Qed.

Lemma visitFiles_terminates_witness :
  (∃ fuel, (visitFiles loop_stat loop_readdir "/project" fuel "r").2 ≠ Suspended)
  ∧ ∃ fuel yielded e,
      circular loop_stat loop_readdir "r" e
      ∧ ∀ fuel', fuel ≤ fuel' →
          visitFiles loop_stat loop_readdir "/project" fuel' "r"
          = (yielded, Failed e).
Proof.
  destruct (visitFiles_terminates loop_stat loop_readdir "/project"
              {[1%N]} "r" loop_finite) as [Hend Hcycle].
  split; [exact Hend|].
  exact (Hcycle (loop_well_formed _) loop_has_cycle).
Defined.

Lemma docs_fs_tree : fs_tree docs_stat docs_readdir (Path.normalize ".") docs_tree.
Proof. simpl. repeat split; try done; by eexists. Qed.

Lemma docs_inos : NoDup (dir_inos docs_tree).
Proof. simpl. repeat constructor; set_solver. Qed.

Lemma visitFiles_tree_witness :
  (∃ fuel, ∀ fuel', fuel ≤ fuel' →
     visitFiles docs_stat docs_readdir "/project" fuel' "."
     = (["docs/a.md"; "docs/b.md"], Completed))
  ∧ ["docs/a.md"; "docs/b.md"] ≡ₚ ["docs/a.md"; "docs/b.md"].
Proof.
  exact (visitFiles_tree docs_stat docs_readdir "/project" "." docs_tree
           docs_fs_tree docs_inos).
Defined.

Lemma mounts_fs_tree :
  fs_tree mounts_stat mounts_readdir (Path.normalize "r") mounts_tree.
Proof. simpl. repeat split; try done; by eexists. Qed.

(** C4, as the claim has it, fails on a tree with two volumes: the
    directories [r/a] and [r/m] are distinct, on different devices, and
    have the same inode number.  The tree has no cycle and holds the files
    [a/x.md] and [m/y.md]; the walk yields neither and throws. *)
Lemma visitFiles_tree_mounts :
  fs_tree mounts_stat mounts_readdir (Path.normalize "r") mounts_tree
  ∧ Path.relative "/project" (Path.normalize "r")
      <$> bfs_files (Path.normalize "r") mounts_tree
    = ["a/x.md"; "m/y.md"]
  ∧ (∀ fuel,
       visitFiles mounts_stat mounts_readdir "/project" fuel "r"
       ≠ (Path.relative "/project" (Path.normalize "r")
            <$> bfs_files (Path.normalize "r") mounts_tree,
          Completed))
  ∧ (∀ fuel, 3 ≤ fuel →
       visitFiles mounts_stat mounts_readdir "/project" fuel "r"
       = ([], Failed (Error "Circular directory: r/m"))).
Proof.
  split; [exact mounts_fs_tree|]. split; [by vm_compute|].
  assert (∀ n, visitFiles mounts_stat mounts_readdir "/project" (3 + n) "r"
               = ([], Failed (Error "Circular directory: r/m"))) as Hthrow.
  { intros n. vm_compute. reflexivity. }
  split.
  - intros fuel. destruct fuel as [|[|[|n]]]; [by vm_compute..|].
    change (S (S (S n))) with (3 + n). rewrite (Hthrow n). done.
  - intros fuel Hle. replace fuel with (3 + (fuel - 3)) by lia. apply Hthrow.
Qed.

Lemma visited_by_inode_witness :
  visitFiles_step mounts_stat mounts_readdir "/project" "r"
    {| visited := {[1%N; 2%N]}; queue := ["r"; "r/a"; "r/m"]; index := 2 |}
  = Throw (Error "Circular directory: r/m").
Proof.
  refine (proj2 (visited_by_inode mounts_stat mounts_readdir "/project" "r")
            {| visited := {[1%N; 2%N]}; queue := ["r"; "r/a"; "r/m"];
               index := 2 |}
            "r/m" (dir_status 2 7) eq_refl eq_refl eq_refl _).
  simpl. set_solver.
Defined.

(** ** [resolveImport] *)

Lemma startsWith_head c s d p :
  Ascii.eqb d c = false → Str.startsWith (String c s) (String d p) = false.
Proof. intros H. simpl. by rewrite H. Qed.

Lemma eqb_head c s d p :
  Ascii.eqb c d = false → String.eqb (String c s) (String d p) = false.
Proof. intros H. simpl. by rewrite H. Qed.

Lemma startsWith_first s c p :
  Str.startsWith s (String c p) = true → ∃ s', s = String c s'.
Proof.
  destruct s as [|d s]; simpl; [done|].
  intros [->%Ascii.eqb_eq _]%andb_true_iff. by eexists.
Qed.

Section ResolveFacts.

Context {AstNode : Type}.
Variable relativeUrl : string → string → string.
Variable getClientPath : string → string.
Variable resolveNpmImport : string → promise string.
Variable isPathImport : string → bool.

#[local] Abbreviation resolve :=
  (resolveImport (AstNode := AstNode) relativeUrl getClientPath
     resolveNpmImport isPathImport).

(** C5.  [resolveImport] classifies: a specifier that is not a string
    resolves to [null]; a specifier that begins with ["observablehq:"]
    resolves to the client module of that name, marked external, relative
    to whichever source imports it; each first-party alias resolves to its
    own client module, marked external, relative to the source; and a
    plain relative path, which [isPathImport] accepts, resolves to
    [null]. *)
Theorem resolveImport_classifies :
  (∀ source node, resolve source (SpecNode node) = Fulfilled None)
  ∧ (∀ source specifier,
       Str.startsWith specifier "observablehq:" = true →
       resolve source (SpecString specifier)
       = Fulfilled (Some {|
           id := relativeUrl source
                   (getClientPath
                      ("./src/client/"
                       +:+ Str.slice_from 13 specifier +:+ ".js"));
           external := Some true |}))
  ∧ (∀ source alias path,
       (alias, path) ∈ first_party →
       resolve source (SpecString alias)
       = Fulfilled (Some {| id := relativeUrl source (getClientPath path);
                            external := Some true |}))
  ∧ (∀ source specifier,
       is_relative specifier = true →
       isPathImport specifier = true →
       resolve source (SpecString specifier) = Fulfilled None).
Proof.
  split; [done|]. split; [|split].
  - intros source specifier H. unfold resolveImport. by rewrite H.
  - intros source alias path Hin. unfold first_party in Hin.
    repeat (apply elem_of_cons in Hin as [Hin|Hin];
            [injection Hin as -> ->; reflexivity|]).
    by apply elem_of_nil in Hin.
  - intros source specifier Hrel Hpath.
    assert (∃ s, specifier = String "." s) as [s ->].
    { unfold is_relative in Hrel.
      apply orb_true_iff in Hrel as [H|H];
        by apply startsWith_first in H. }
    unfold resolveImport. rewrite Hpath.
    rewrite !startsWith_head by reflexivity.
    rewrite !eqb_head by reflexivity.
    simpl negb. by rewrite andb_false_r.
Qed.

(** C2, as it holds.  For a specifier that begins with ["npm:"] and is
    not a first-party alias, [resolveImport] hands what follows the marker
    to [resolveNpmImport] and returns the resolution as the [id], with no
    [external] property; a rejection of the resolver is passed on. *)
Theorem resolveImport_npm source specifier :
  Str.startsWith specifier "npm:" = true →
  specifier ∉ first_party.*1 →
  resolve source (SpecString specifier)
  = await (resolveNpmImport (Str.slice_from 4 specifier))
          (λ resolution,
             Fulfilled (Some {| id := resolution; external := None |})).
Proof.
  intros Hnpm Hout.
  assert (∀ alias, alias ∈ first_party.*1 → String.eqb specifier alias = false)
    as Hne.
  { intros alias Hin. apply String.eqb_neq. by intros ->. }
  unfold resolveImport. rewrite Hnpm.
  destruct (startsWith_first _ _ _ Hnpm) as [s Hs].
  replace (Str.startsWith specifier "observablehq:") with false
    by (rewrite Hs; symmetry; by apply startsWith_head).
  rewrite !Hne by (simpl; set_solver). done.
Qed.

End ResolveFacts.

Lemma resolveImport_classifies_witness :
  resolveImport (AstNode := unit) sample_relativeUrl sample_getClientPath
    jsdelivr path_prefixed "client.js" (SpecString "./util.js")
  = Fulfilled None.
Proof.
  exact (proj2 (proj2 (proj2
           (resolveImport_classifies (AstNode := unit) sample_relativeUrl
              sample_getClientPath jsdelivr path_prefixed)))
           "client.js" "./util.js" eq_refl eq_refl).
Defined.

Lemma d3_not_first_party : "npm:d3" ∉ first_party.*1.
Proof. simpl. set_solver. Qed.

Lemma resolveImport_npm_witness :
  resolveImport (AstNode := unit) sample_relativeUrl sample_getClientPath
    jsdelivr path_prefixed "client.js" (SpecString "npm:d3")
  = Fulfilled (Some {| id := "https://cdn.jsdelivr.net/npm/d3/+esm";
                       external := None |}).
Proof.
  exact (resolveImport_npm (AstNode := unit) sample_relativeUrl
           sample_getClientPath jsdelivr path_prefixed "client.js" "npm:d3"
           eq_refl d3_not_first_party).
Defined.

(** C2, as the claim has it, fails: ["npm:d3"] begins with the marker and
    is no first-party alias, the resolver answers, and the result carries
    the resolution without the mark [external: true]. *)
Lemma resolveImport_npm_unmarked :
  Str.startsWith "npm:d3" "npm:" = true
  ∧ ("npm:d3" ∉ first_party.*1)
  ∧ jsdelivr "d3" = Fulfilled "https://cdn.jsdelivr.net/npm/d3/+esm"
  ∧ resolveImport (AstNode := unit) sample_relativeUrl sample_getClientPath
      jsdelivr path_prefixed "client.js" (SpecString "npm:d3")
    = Fulfilled (Some {| id := "https://cdn.jsdelivr.net/npm/d3/+esm";
                         external := None |})
  ∧ resolveImport (AstNode := unit) sample_relativeUrl sample_getClientPath
      jsdelivr path_prefixed "client.js" (SpecString "npm:d3")
    ≠ Fulfilled (Some {| id := "https://cdn.jsdelivr.net/npm/d3/+esm";
                         external := Some true |}).
Proof.
  split; [done|]. split; [exact d3_not_first_party|].
  split; [done|]. split; [done|]. discriminate.
Qed.

Example resolveImport_bare :
  resolveImport (AstNode := unit) sample_relativeUrl sample_getClientPath
    jsdelivr path_prefixed "client.js" (SpecString "d3")
  = Fulfilled (Some {| id := "https://cdn.jsdelivr.net/npm/d3/+esm";
                       external := Some true |}).
Proof. reflexivity. Qed.

(** ** Slices *)

Lemma length_slice_from a s :
  String.length (Str.slice_from a s) = String.length s - a.
Proof.
  revert s. induction a as [|a IH]; intros [|c s]; simpl; try done; lia.
Qed.

Lemma length_slice_to k s :
  k ≤ String.length s → String.length (Str.slice_to k s) = k.
Proof.
  revert s. induction k as [|k IH]; intros [|c s]; simpl; try done; try lia.
  intros H. rewrite IH; lia.
Qed.

Lemma slice_to_from k s : Str.slice_to k s +:+ Str.slice_from k s = s.
Proof.
  revert s. induction k as [|k IH]; intros [|c s]; simpl; try done.
  by rewrite IH.
Qed.

Lemma slice_from_from a k s :
  Str.slice_from k (Str.slice_from a s) = Str.slice_from (a + k) s.
Proof.
  revert s. induction a as [|a IH]; intros s; simpl; [done|].
  destruct s as [|c s]; [by destruct k|]. apply IH.
Qed.

Lemma slice_from_split a b s :
  a ≤ b → Str.slice_from a s = Str.slice a b s +:+ Str.slice_from b s.
Proof.
  intros H. unfold Str.slice.
  replace (Str.slice_from b s) with (Str.slice_from (b - a) (Str.slice_from a s))
    by (rewrite slice_from_from; f_equal; lia).
  by rewrite slice_to_from.
Qed.

Lemma length_slice a b s :
  a ≤ b → b ≤ String.length s → String.length (Str.slice a b s) = b - a.
Proof.
  intros Hab Hb. unfold Str.slice. apply length_slice_to.
  rewrite length_slice_from. lia.
Qed.

(** ** The text buffer *)

Lemma materialize_rewritten input : ∀ es index,
  chain (String.length input) index es →
  rewritten index (Str.slice_from index input) es (materialize input index es).
Proof.
  induction es as [|e es IH]; intros index; simpl.
  - constructor.
  - intros (H1 & H2 & H3 & Hes).
    rewrite (slice_from_split index (edit_start e)) by done.
    rewrite (slice_from_split (edit_start e) (edit_end e)) by done.
    constructor.
    + rewrite length_slice by lia. lia.
    + rewrite length_slice by lia. lia.
    + by apply IH.
Qed.

Lemma insert_left_perm e es : insert_left e es ≡ₚ e :: es.
Proof.
  induction es as [|e' es IH]; simpl; [done|].
  destruct (edit_start e' <? edit_start e); [|done].
  rewrite IH. apply perm_swap.
Qed.

Lemma insert_left_sorted n e es :
  edit_ok n e → Forall (edit_ok n) es → Forall (apart e) es →
  StronglySorted before es → StronglySorted before (insert_left e es).
Proof.
  intros [He _] Hok Hap Hs.
  induction Hs as [|e' es Hs IH Hall]; simpl.
  { repeat constructor. }
  apply Forall_cons in Hok as [[He' _] Hok].
  apply Forall_cons in Hap as [Hap' Hap].
  destruct (Nat.ltb_spec (edit_start e') (edit_start e)) as [Hlt|Hge].
  - constructor; [by apply IH|].
    rewrite insert_left_perm. constructor; [|done].
    destruct Hap' as [H|H]; unfold before in *; lia.
  - constructor; [by constructor|].
    assert (before e e') as Hee'.
    { destruct Hap' as [H|H]; unfold before in *; lia. }
    constructor; [done|].
    eapply Forall_impl; [exact Hall|].
    intros x Hx. unfold before in *. simpl in *.
    assert (edit_start e' < edit_end e') by done. lia.
Qed.

(** Inserting edits that are pairwise apart, one after the other, keeps
    the list sorted and adds nothing else to it. *)
Lemma insert_all_sorted n : ∀ xs es,
  Forall (edit_ok n) xs → Forall (edit_ok n) es →
  Forall (λ x, Forall (apart x) es) xs →
  (∀ i j a b, i ≠ j → xs !! i = Some a → xs !! j = Some b → apart a b) →
  StronglySorted before es →
  StronglySorted before (fold_left (λ es x, insert_left x es) xs es)
  ∧ fold_left (λ es x, insert_left x es) xs es ≡ₚ es ++ xs
  ∧ Forall (edit_ok n) (fold_left (λ es x, insert_left x es) xs es).
Proof.
  induction xs as [|x xs IH]; intros es Hxs Hes Hap Hpair Hs; simpl.
  { by rewrite app_nil_r. }
  apply Forall_cons in Hxs as [Hx Hxs].
  apply Forall_cons in Hap as [Hapx Hap].
  destruct (IH (insert_left x es)) as (H1 & H2 & H3).
  - done.
  - rewrite insert_left_perm. by constructor.
  - apply Forall_forall. intros y Hy. rewrite insert_left_perm.
    constructor.
    + apply list_elem_of_lookup in Hy as [j Hj].
      apply (Hpair (S j) 0 y x); [lia|done|done].
    + by apply (proj1 (Forall_forall _ _) Hap).
  - intros i j a b Hij Ha Hb. by apply (Hpair (S i) (S j)); [lia|..].
  - by apply (insert_left_sorted n).
  - split; [done|]. split; [|done].
    rewrite H2, insert_left_perm. by rewrite <- Permutation_middle.
Qed.

Lemma sorted_chain n : ∀ es index,
  StronglySorted before es → Forall (edit_ok n) es →
  (∀ e, e ∈ es → index ≤ edit_start e) → index ≤ n →
  chain n index es.
Proof.
  induction es as [|e es IH]; intros index Hs Hok Hlow Hn; simpl; [done|].
  apply StronglySorted_inv in Hs as [Hs Hall].
  apply Forall_cons in Hok as [[He1 He2] Hok].
  split; [apply Hlow; by left|]. split; [lia|]. split; [done|].
  apply IH; try done.
  intros e' He'. by apply (proj1 (Forall_forall _ _) Hall).
Qed.

(** ** [importMetaResolve] *)

(** Elements at two positions of a filtered list stand at two positions of
    the list. *)
Lemma filter_lookup_apart {A} (P : A → Prop) `{!∀ x, Decision (P x)} :
  ∀ (l : list A) i j a b,
  i ≠ j → filter P l !! i = Some a → filter P l !! j = Some b →
  ∃ i' j', i' ≠ j' ∧ l !! i' = Some a ∧ l !! j' = Some b.
Proof.
  induction l as [|x l IH]; intros i j a b Hij; [done|].
  assert (∀ k c, filter P l !! k = Some c → ∃ k', l !! k' = Some c) as Hin.
  { intros k c Hk. apply list_elem_of_lookup_2 in Hk.
    apply list_elem_of_filter in Hk as [_ Hk].
    by apply list_elem_of_lookup in Hk. }
  destruct (decide (P x)) as [Hx|Hx].
  - rewrite filter_cons_True by done.
    destruct i as [|i], j as [|j]; simpl; try done.
    + intros [= <-] Hb. destruct (Hin _ _ Hb) as [k Hk].
      exists 0, (S k). done.
    + intros Ha [= <-]. destruct (Hin _ _ Ha) as [k Hk].
      exists (S k), 0. done.
    + intros Ha Hb.
      destruct (IH i j a b ltac:(lia) Ha Hb) as (i' & j' & Hne & Ha' & Hb').
      exists (S i'), (S j'). split; [lia|done].
  - rewrite filter_cons_False by done. intros Ha Hb.
    destruct (IH i j a b Hij Ha Hb) as (i' & j' & Hne & Ha' & Hb').
    exists (S i'), (S j'). split; [lia|done].
Qed.

Section TransformFacts.

Context {Program : Type}.
Variable parse : string → Program + exn.
Variable callExpressions : Program → list CallExpression.
Variable isStringLiteral : Node → bool.
Variable getStringLiteralValue : Node → string.
Variable resolveNpmImport : string → promise string.
Variable JSON_stringify : string → string.

#[local] Abbreviation resolves_of :=
  (collect_resolves callExpressions isStringLiteral).
#[local] Abbreviation npm_of :=
  (npm_calls callExpressions isStringLiteral getStringLiteralValue).
#[local] Abbreviation spec_of := (specifier_of getStringLiteralValue).
#[local] Abbreviation rewrite_of :=
  (rewrite_resolves getStringLiteralValue resolveNpmImport JSON_stringify).
#[local] Abbreviation transform :=
  (importMetaResolve parse callExpressions isStringLiteral
     getStringLiteralValue resolveNpmImport JSON_stringify).
#[local] Abbreviation transformed_of :=
  (transformed parse callExpressions isStringLiteral
     getStringLiteralValue resolveNpmImport JSON_stringify).
#[local] Abbreviation accepted := (meta_resolve isStringLiteral).
#[local] Abbreviation rewritable :=
  (npm_resolve isStringLiteral getStringLiteralValue).

(** The test of the visitor accepts exactly the spelled-out shape. *)
Lemma eligible_meta_resolve node :
  eligible isStringLiteral node = true ↔ accepted node.
Proof.
  unfold eligible, meta_resolve. destruct node as [s e c args]. simpl. split.
  - destruct c as [o p comp|?|?|?]; try done.
    destruct o as [?|m pr|?|?]; try done.
    destruct p as [?|?|name|?]; try done.
    intros [[Hname Hlen]%andb_true_iff Harg]%andb_true_iff.
    apply String.eqb_eq in Hname as ->.
    destruct args as [|a [|b l]]; simpl in *; try done.
    by exists m, pr, comp, a.
  - by intros (m & pr & comp & a & -> & -> & Ha).
Qed.

Lemma elem_of_resolves program node :
  node ∈ resolves_of program ↔
  node ∈ callExpressions program ∧ accepted node.
Proof.
  unfold collect_resolves.
  rewrite list_elem_of_filter, eligible_meta_resolve. naive_solver.
Qed.

Lemma elem_of_npm_calls program node :
  node ∈ npm_of program ↔
  node ∈ callExpressions program ∧ rewritable node.
Proof.
  unfold npm_calls, npm_resolve.
  rewrite list_elem_of_filter, elem_of_resolves. naive_solver.
Qed.

Lemma rewrite_resolves_cons node rest output :
  rewrite_of (node :: rest) output
  = if Str.startsWith (spec_of node) "npm:" then
      await (resolveNpmImport (Str.slice_from 4 (spec_of node)))
            (λ resolution,
               rewrite_of rest
                 (replaceLeft (start node) (end_ node)
                    (JSON_stringify resolution) output))
    else rewrite_of rest output.
Proof. reflexivity. Qed.

(** Calls without the marker leave the buffer as it is. *)
Lemma rewrite_resolves_plain : ∀ resolves output,
  (∀ node, node ∈ resolves → Str.startsWith (spec_of node) "npm:" = false) →
  rewrite_of resolves output = Fulfilled output.
Proof.
  induction resolves as [|node rest IH]; intros output H; [done|].
  rewrite rewrite_resolves_cons.
  rewrite (H node) by (by left). apply IH. intros n Hn. apply H. by right.
Qed.

(** When the resolver answers for every call with the marker, the loop
    ends with an edit for each of them, inserted in the order of the
    calls. *)
Lemma rewrite_resolves_edits (resolved : CallExpression → string) :
  ∀ resolves output,
  (∀ node, node ∈ resolves →
     Str.startsWith (spec_of node) "npm:" = true →
     resolveNpmImport (Str.slice_from 4 (spec_of node))
     = Fulfilled (resolved node)) →
  rewrite_of resolves output
  = Fulfilled {|
      input := input output;
      edits :=
        fold_left (λ es x, insert_left x es)
          (replacement JSON_stringify resolved
             <$> filter (λ node, Str.startsWith (spec_of node) "npm:" = true)
                        resolves)
          (edits output) |}.
Proof.
  induction resolves as [|node rest IH]; intros output H.
  { by destruct output. }
  rewrite rewrite_resolves_cons.
  destruct (Str.startsWith (spec_of node) "npm:") eqn:Hnpm.
  - rewrite filter_cons_True by done.
    rewrite (H node) by (done || by left). simpl.
    rewrite IH; [done|]. intros n Hn. apply H. by right.
  - rewrite filter_cons_False by (by rewrite Hnpm).
    apply IH. intros n Hn. apply H. by right.
Qed.

(** The ranges of the calls that are rewritten, as the loop meets them. *)
Lemma ranges_npm_calls code program :
  ranges_apart rewritable code (callExpressions program) →
  ranges_ok code (npm_of program).
Proof.
  intros [Hok Hapart]. split.
  - intros node [Hin Hnode]%elem_of_npm_calls. by apply Hok.
  - intros i j a b Hij Ha Hb.
    pose proof (proj1 (elem_of_npm_calls program a)
                  (list_elem_of_lookup_2 _ _ _ Ha)) as [_ HPa].
    pose proof (proj1 (elem_of_npm_calls program b)
                  (list_elem_of_lookup_2 _ _ _ Hb)) as [_ HPb].
    unfold npm_calls, collect_resolves in Ha, Hb.
    destruct (filter_lookup_apart _ _ i j a b Hij Ha Hb)
      as (i1 & j1 & Hij1 & Ha1 & Hb1).
    destruct (filter_lookup_apart _ _ i1 j1 a b Hij1 Ha1 Hb1)
      as (i2 & j2 & Hij2 & Ha2 & Hb2).
    by apply (Hapart i2 j2).
Qed.

(** X25.  On a text that parses, when some call of the collected shape has
    a literal that begins with ["npm:"], the resolver answers for each such
    call and their ranges are those of distinct calls of the source, the
    transform returns the source with the range of each such call, and of
    no other, replaced by the quoted resolution, and with every stretch
    outside these ranges as it was. *)
Theorem importMetaResolve_rewrites code program
    (resolved : CallExpression → string) :
  parse code = inl program →
  (∃ node,
     node ∈ callExpressions program
     ∧ npm_resolve isStringLiteral getStringLiteralValue node) →
  (∀ node,
     node ∈ callExpressions program →
     npm_resolve isStringLiteral getStringLiteralValue node →
     resolveNpmImport (Str.slice_from 4 (spec_of node))
     = Fulfilled (resolved node)) →
  ranges_apart (npm_resolve isStringLiteral getStringLiteralValue) code
    (callExpressions program) →
  ∃ text es,
    transform code = Fulfilled (Some {| code := text |})
    ∧ (∀ e, e ∈ es ↔
         ∃ node,
           node ∈ callExpressions program
           ∧ npm_resolve isStringLiteral getStringLiteralValue node
           ∧ e = replacement JSON_stringify resolved node)
    ∧ rewritten 0 code es text.
Proof.
  intros Hparse (n0 & Hn0 & Hacc0 & Hnpm0) Hres Hranges.
  destruct (ranges_npm_calls code program Hranges) as [Hok Hapart].
  unfold importMetaResolve. rewrite Hparse.
  destruct (resolves_of program) as [|node rest] eqn:Hcalls.
  { assert (n0 ∈ resolves_of program) as Hin by by apply elem_of_resolves.
    rewrite Hcalls in Hin. by apply elem_of_nil in Hin. }
  simpl Nat.eqb. cbv iota. rewrite <- Hcalls.
  rewrite (rewrite_resolves_edits resolved).
  2:{ intros n [Hn Hacc]%elem_of_resolves Hnpm. by apply Hres. }
  simpl.
  set (xs := replacement JSON_stringify resolved <$> npm_of program).
  destruct (insert_all_sorted (String.length code) xs [])
    as (Hsorted & Hperm & Hall).
  - apply Forall_fmap, Forall_forall. intros n Hn. by apply Hok.
  - constructor.
  - apply Forall_forall. intros x _. constructor.
  - intros i j a b Hij Ha Hb. unfold xs in Ha, Hb.
    apply list_lookup_fmap_Some in Ha as (na & -> & Ha).
    apply list_lookup_fmap_Some in Hb as (nb & -> & Hb).
    by apply (Hapart i j).
  - constructor.
  - eexists. exists (fold_left (λ es x, insert_left x es) xs []).
    split; [reflexivity|]. split.
    + intros e. rewrite Hperm. simpl. unfold xs.
      rewrite list_elem_of_fmap. split.
      * intros (n & -> & [Hn Hnode]%elem_of_npm_calls). by exists n.
      * intros (n & Hn & Hnode & ->). exists n. split; [done|].
        by apply elem_of_npm_calls.
    + unfold Sourcemap_toString. simpl.
      apply (materialize_rewritten code _ 0).
      apply sorted_chain; try done; lia.
Qed.

(** X26.  On a text that parses, the transform returns [null] exactly
    when no call has the collected shape, and the text then stays what it
    was, also when the pass runs again.  When calls of that shape are
    there and no literal among them begins with ["npm:"], it returns a code
    object whose text is the source. *)
Theorem importMetaResolve_keeps_text code program :
  parse code = inl program →
  (transform code = Fulfilled None ↔
   ∀ node, node ∈ callExpressions program →
     ¬ meta_resolve isStringLiteral node)
  ∧ (transform code = Fulfilled None →
     await (transformed_of code) transformed_of = Fulfilled code)
  ∧ ((∃ node,
        node ∈ callExpressions program ∧ meta_resolve isStringLiteral node) →
     (∀ node,
        node ∈ callExpressions program → meta_resolve isStringLiteral node →
        Str.startsWith (spec_of node) "npm:" = false) →
     transform code = Fulfilled (Some {| code := code |})).
Proof.
  intros Hparse.
  assert (resolves_of program = [] ↔
          ∀ node, node ∈ callExpressions program → ¬ accepted node) as Hnone.
  { split.
    - intros Hnil node Hin Hacc.
      assert (node ∈ resolves_of program) as H by by apply elem_of_resolves.
      rewrite Hnil in H. by apply elem_of_nil in H.
    - intros Hno. destruct (resolves_of program) as [|node rest] eqn:E; [done|].
      assert (node ∈ resolves_of program) as H by (rewrite E; by left).
      apply elem_of_resolves in H as [Hin Hacc]. by destruct (Hno node). }
  assert (transform code = Fulfilled None ↔ resolves_of program = []) as Hnull.
  { unfold importMetaResolve. rewrite Hparse.
    destruct (resolves_of program) as [|node rest]; [done|].
    simpl Nat.eqb. cbv iota.
    destruct (rewrite_of _ _); simpl; split; done. }
  split; [by rewrite Hnull|]. split.
  - intros Hnil. unfold transformed. rewrite Hnil. simpl.
    by rewrite Hnil.
  - intros (n0 & Hn0 & Hacc0) Hplain.
    unfold importMetaResolve. rewrite Hparse.
    destruct (resolves_of program) as [|node rest] eqn:Hres.
    { assert (n0 ∈ resolves_of program) as H by by apply elem_of_resolves.
      rewrite Hres in H. by apply elem_of_nil in H. }
    simpl Nat.eqb. cbv iota. rewrite <- Hres.
    rewrite rewrite_resolves_plain; [done|].
    intros n [Hn Hacc]%elem_of_resolves. by apply Hplain.
Qed.

End TransformFacts.

(** *** The transform on the sample sources *)

Example sample_rewrite :
  importMetaResolve sample_parse sample_calls sample_isStringLiteral
    sample_value jsdelivr sample_stringify sample_code
  = Fulfilled (Some {|
      code := "x = "
              +:+ sample_stringify "https://cdn.jsdelivr.net/npm/d3/+esm"
              +:+ ";" |}).
Proof. vm_compute. reflexivity. Qed.

(** The sample calls, by their shape. *)
Lemma sample_call_import_meta argument start end_ :
  import_meta_resolve sample_isStringLiteral (sample_call argument start end_).
Proof. by exists (OtherNode "Literal" argument). Qed.

Lemma sample_call_accepted callee_object computed argument start end_ meta property :
  callee_object = MetaProperty meta property →
  meta_resolve sample_isStringLiteral
    (sample_call_of
       (MemberExpression callee_object (Identifier "resolve") computed)
       argument start end_).
Proof.
  intros ->. by exists meta, property, computed, (OtherNode "Literal" argument).
Qed.

Lemma sample_call_other_meta argument start end_ :
  ¬ import_meta_resolve sample_isStringLiteral
      (sample_call_of
         (MemberExpression new_target (Identifier "resolve") false)
         argument start end_).
Proof. by intros (a & [=] & _). Qed.

Lemma sample_call_computed argument start end_ :
  ¬ import_meta_resolve sample_isStringLiteral
      (sample_call_of
         (MemberExpression import_meta (Identifier "resolve") true)
         argument start end_).
Proof. by intros (a & [=] & _). Qed.

(** C6.  The claim names the calls [import.meta.resolve(<string literal>)]
    and asks for [null] when the source has none.  The test of the visitor
    reads neither the names of the meta-property nor the flag [computed]:
    in the two sources below no call has the shape of the claim, the one
    call is [new.target.resolve('npm:d3')] in the first and
    [import.meta[resolve]('npm:d3')], with a variable [resolve], in the
    second, and the transform does not return [null] but replaces the call
    by the quoted resolution. *)
Theorem importMetaResolve_other_meta :
  (∃ call,
     sample_parse new_target_code = inl [call]
     ∧ ¬ import_meta_resolve sample_isStringLiteral call)
  ∧ importMetaResolve sample_parse sample_calls sample_isStringLiteral
      sample_value jsdelivr sample_stringify new_target_code
    = Fulfilled (Some {|
        code := "function f() { return "
                +:+ sample_stringify "https://cdn.jsdelivr.net/npm/d3/+esm"
                +:+ "; }" |})
  ∧ (∃ call,
       sample_parse computed_code = inl [call]
       ∧ ¬ import_meta_resolve sample_isStringLiteral call)
  ∧ importMetaResolve sample_parse sample_calls sample_isStringLiteral
      sample_value jsdelivr sample_stringify computed_code
    = Fulfilled (Some {|
        code := "x = "
                +:+ sample_stringify "https://cdn.jsdelivr.net/npm/d3/+esm"
                +:+ ";" |}).
Proof.
  split; [|split; [|split]].
  - eexists. split; [reflexivity|]. apply sample_call_other_meta.
  - vm_compute. reflexivity.
  - eexists. split; [reflexivity|]. apply sample_call_computed.
  - vm_compute. reflexivity.
Qed.

(** C9.  The claim asks for the text of the source when calls
    [import.meta.resolve(<string literal>)] are there and the literal of
    none begins with ["npm:"].  In the source below the one call of that
    shape has the literal ['./a.js'], and the transform returns another
    text: it has replaced the call [new.target.resolve('npm:d3')], which
    the test of the visitor collects as well. *)
Theorem importMetaResolve_keeps_text_other_meta :
  (∃ first second,
     sample_parse mixed_code = inl [first; second]
     ∧ import_meta_resolve sample_isStringLiteral first
     ∧ Str.startsWith (specifier_of sample_value first) "npm:" = false
     ∧ ¬ import_meta_resolve sample_isStringLiteral second)
  ∧ importMetaResolve sample_parse sample_calls sample_isStringLiteral
      sample_value jsdelivr sample_stringify mixed_code
    = Fulfilled (Some {|
        code := "import.meta.resolve('./a.js'); function f() { return "
                +:+ sample_stringify "https://cdn.jsdelivr.net/npm/d3/+esm"
                +:+ "; }" |})
  ∧ "import.meta.resolve('./a.js'); function f() { return "
    +:+ sample_stringify "https://cdn.jsdelivr.net/npm/d3/+esm" +:+ "; }"
    ≠ mixed_code.
Proof.
  split; [|split].
  - eexists _, _. split; [reflexivity|].
    split; [apply sample_call_import_meta|]. split; [reflexivity|].
    apply sample_call_other_meta.
  - vm_compute. reflexivity.
  - vm_compute. discriminate.
Qed.

Lemma importMetaResolve_keeps_text_witness :
  importMetaResolve sample_parse sample_calls sample_isStringLiteral
    sample_value jsdelivr sample_stringify "import.meta.resolve('./a.js')"
  = Fulfilled (Some {| code := "import.meta.resolve('./a.js')" |}).
Proof.
  refine (proj2 (proj2 (importMetaResolve_keeps_text sample_parse sample_calls
            sample_isStringLiteral sample_value jsdelivr sample_stringify
            "import.meta.resolve('./a.js')" [sample_call "./a.js" 0 29]
            eq_refl)) _ _).
  - exists (sample_call "./a.js" 0 29). split; [by left|].
    by apply (sample_call_accepted _ _ _ _ _ "import" "meta").
  - intros node Hnode _.
    apply list_elem_of_singleton in Hnode as ->. reflexivity.
Defined.

Lemma importMetaResolve_rewrites_witness :
  ∃ text es,
    importMetaResolve sample_parse sample_calls sample_isStringLiteral
      sample_value jsdelivr sample_stringify sample_code
    = Fulfilled (Some {| code := text |})
    ∧ (∀ e, e ∈ es ↔
         ∃ node, node ∈ [sample_call "npm:d3" 4 33]
                 ∧ npm_resolve sample_isStringLiteral sample_value node
                 ∧ e = replacement sample_stringify
                         (λ _, "https://cdn.jsdelivr.net/npm/d3/+esm") node)
    ∧ rewritten 0 sample_code es text.
Proof.
  refine (importMetaResolve_rewrites sample_parse sample_calls
            sample_isStringLiteral sample_value jsdelivr
            sample_stringify sample_code [sample_call "npm:d3" 4 33]
            (λ _, "https://cdn.jsdelivr.net/npm/d3/+esm") eq_refl _ _ _).
  - exists (sample_call "npm:d3" 4 33). split; [by left|]. split; [|done].
    by apply (sample_call_accepted _ _ _ _ _ "import" "meta").
  - intros node Hnode _.
    apply list_elem_of_singleton in Hnode as ->. reflexivity.
  - split.
    + intros node Hnode _.
      apply list_elem_of_singleton in Hnode as ->. vm_compute. lia.
    + intros i j a b Hij Ha Hb _ _.
      destruct i as [|i], j as [|j]; try done; destruct i; done || destruct j; done.
Defined.

(** * Further properties *)

(** ** [getLocalPath] *)

Lemma segments_nonempty s : Str.segments s ≠ [].
Proof.
  destruct s as [|c s]; simpl; [done|].
  destruct (Str.is_slash c); [done|]. by destruct (Str.segments s).
Qed.

Lemma segments_app a b :
  Str.segments (a +:+ String "/" b) = Str.segments a ++ Str.segments b.
Proof.
  induction a as [|c a IH]; [done|].
  change (String c a +:+ String "/" b) with (String c (a +:+ String "/" b)).
  simpl. rewrite IH.
  destruct (Str.is_slash c); [done|].
  pose proof (segments_nonempty a).
  by destruct (Str.segments a).
Qed.

Lemma dirname_nonempty path : Path.dirname path ≠ "".
Proof.
  unfold Path.dirname.
  destruct (String.eqb_spec path "") as [->|Hne]; [done|].
  destruct (Path.dirname_scan _ _ _) as [e|] eqn:He.
  - destruct (Str.startsWith path "/" && Nat.eqb e 1); [done|].
    apply dirname_scan_pos in He. destruct e as [|e]; [lia|].
    by destruct path.
  - by destruct (Str.startsWith path "/").
Qed.

Lemma string_app_nonempty (a b : string) : a ≠ "" → a +:+ b ≠ "".
Proof. by destruct a. Qed.

Lemma last_app_nonempty {A} (l1 l2 : list A) :
  l2 ≠ [] → last (l1 ++ l2) = last l2.
Proof.
  intros H. destruct l2 as [|x l2]; [done|].
  rewrite last_app. by destruct (last (x :: l2)) eqn:E;
    [|apply last_None in E].
Qed.

(** A slash at the head of the second argument of [join] changes nothing:
    the empty segment between the two slashes is dropped. *)
Lemma join_leading_slash dir name :
  dir ≠ "" → name ≠ "" →
  Path.join dir (String "/" name) = Path.join dir name.
Proof.
  intros Hdir Hname. unfold Path.join, Path.joined.
  destruct (String.eqb_spec dir ""); [done|].
  destruct (String.eqb_spec name ""); [done|].
  change (String.eqb (String "/" name) "") with false. cbv iota.
  unfold Path.normalize.
  destruct (String.eqb_spec (dir +:+ "/" +:+ String "/" name) "") as [E|_].
  { by apply string_app_nonempty in E. }
  destruct (String.eqb_spec (dir +:+ "/" +:+ name) "") as [E|_].
  { by apply string_app_nonempty in E. }
  assert (Path.isAbsolute (dir +:+ "/" +:+ String "/" name)
          = Path.isAbsolute (dir +:+ "/" +:+ name)) as ->.
  { by rewrite !isAbsolute_app. }
  assert (∀ a, Path.normalizeString (dir +:+ "/" +:+ String "/" name) a
               = Path.normalizeString (dir +:+ "/" +:+ name) a) as Hnorm.
  { intros a. unfold Path.normalizeString, Path.normalize_segments.
    change (dir +:+ "/" +:+ String "/" name)
      with (dir +:+ String "/" (String "/" name)).
    change (dir +:+ "/" +:+ name) with (dir +:+ String "/" name).
    rewrite !segments_app.
    change (Str.segments (String "/" name)) with ("" :: Str.segments name).
    by rewrite !fold_left_app. }
  assert (Path.trailingSeparator (dir +:+ "/" +:+ String "/" name)
          = Path.trailingSeparator (dir +:+ "/" +:+ name)) as ->.
  { unfold Path.trailingSeparator.
    change (dir +:+ "/" +:+ String "/" name)
      with (dir +:+ String "/" (String "/" name)).
    change (dir +:+ "/" +:+ name) with (dir +:+ String "/" name).
    rewrite !segments_app.
    change (Str.segments (String "/" name)) with ("" :: Str.segments name).
    rewrite (last_app_nonempty _ ("" :: Str.segments name)) by done.
    rewrite (last_app_nonempty _ (Str.segments name))
      by apply segments_nonempty.
    rewrite last_cons.
    pose proof (segments_nonempty name) as Hs.
    destruct (last (Str.segments name)) eqn:E; [|by apply last_None in E].
    destruct (String.eqb_spec (dir +:+ String "/" (String "/" name)) "")
      as [E'|_]; [by apply string_app_nonempty in E'|].
    destruct (String.eqb_spec (dir +:+ String "/" name) "")
      as [E'|_]; [by apply string_app_nonempty in E'|].
    done. }
  by rewrite !Hnorm.
Qed.

Lemma is_url_slash name : is_url (String "/" name) = false.
Proof. reflexivity. Qed.

(** X2.  A name that begins with a slash is not resolved from the root:
    for every name that is neither empty nor URL-like, [getLocalPath]
    answers for ["/" + name] what it answers for [name], the path under
    the directory of the source. *)
Theorem getLocalPath_leading_slash sourcePath name :
  name ≠ "" → is_url name = false →
  getLocalPath sourcePath (String "/" name) = getLocalPath sourcePath name.
Proof.
  intros Hname Hurl. rewrite !getLocalPath_unfold, is_url_slash, Hurl.
  by rewrite join_leading_slash by (done || apply dirname_nonempty).
Qed.

Lemma getLocalPath_leading_slash_witness :
  getLocalPath "/a/b.md" "/c.md" = Some "a/c.md".
Proof.
  rewrite (getLocalPath_leading_slash "/a/b.md" "c.md");
    [reflexivity|discriminate|reflexivity].
Defined.

(** X3.  What [getLocalPath] returns is the normalized join, and it is
    absolute exactly when the source path begins with two slashes (only
    one is stripped).  For every other source path the returned path is
    relative, and it is the bare [".."] or the resolution stayed within
    the root. *)
Theorem getLocalPath_returns sourcePath name path :
  getLocalPath sourcePath name = Some path →
  path = Path.join (source_dir sourcePath) name
  ∧ Path.isAbsolute path = Str.startsWith sourcePath "//"
  ∧ (Str.startsWith sourcePath "//" = false →
     path = ".." ∨ goes_above_root sourcePath name = false).
Proof.
  rewrite getLocalPath_unfold.
  destruct (is_url name) eqn:Hurl; [done|].
  destruct (Str.startsWith _ "../") eqn:Hup; [done|].
  intros [= <-]. split; [done|]. split.
  - destruct (Str.startsWith sourcePath "//") eqn:Hsrc.
    + by apply join_absolute, source_dir_absolute.
    + apply source_dir_relative in Hsrc as [Habs Hne]. by apply join_relative.
  - intros Hsrc.
    destruct (goes_above_root sourcePath name) eqn:Habove; [|by right].
    destruct (join_above _ _ Hsrc Habove) as [H|H]; [congruence|by left].
Qed.

Lemma getLocalPath_returns_witness :
  "docs/b.md" = Path.join (source_dir "docs/a.md") "./b.md"
  ∧ Path.isAbsolute "docs/b.md" = Str.startsWith "docs/a.md" "//"
  ∧ ("docs/b.md" = ".." ∨ goes_above_root "docs/a.md" "./b.md" = false).
Proof.
  destruct (getLocalPath_returns "docs/a.md" "./b.md" "docs/b.md" eq_refl)
    as (Hjoin & Habs & Hin).
  split; [exact Hjoin|]. split; [exact Habs|]. exact (Hin eq_refl).
Defined.

(** An absolute result: the name climbs out of the directory of a source
    path with two leading slashes and comes to rest at the root of the file
    system. *)
Example getLocalPath_two_slashes :
  getLocalPath "//a/b.md" "../../../etc/passwd" = Some "/etc/passwd"
  ∧ goes_above_root "//a/b.md" "../../../etc/passwd" = true.
Proof. split; reflexivity. Qed.

Lemma getLocalPath_above_cases_witness :
  getLocalPath "/a/b.md" "../../x" = None.
Proof.
  exact (getLocalPath_above_cases "/a/b.md" "../../x" eq_refl eq_refl).
Defined.

(** ** [visitFiles] on any file system *)

Section WalkMore.

Variable stat : string → option Stats.
Variable readdir : string → option (list string).
Variable cwd : string.

#[local] Abbreviation step := (visitFiles_step stat readdir cwd).

Lemma run_yields_files root fuel : ∀ w,
  walk_inv stat readdir root w →
  ∀ v, v ∈ (run (step root) fuel w).1 →
  ∃ p status,
    reach stat readdir root p ∧ stat p = Some status
    ∧ isDirectory status = false ∧ v = Path.relative cwd root p.
Proof.
  induction fuel as [|n IH]; intros w Hinv v; simpl.
  { by intros ?%elem_of_nil. }
  destruct (step root w) as [v0 w'|w'| |e] eqn:Hstep; simpl.
  - intros [->|Hv]%elem_of_cons.
    + destruct (step_yield _ _ _ _ _ _ _ Hstep)
        as (path & status & Hq & Hst & Hd & -> & _).
      exists path, status. repeat split; try done.
      apply (inv_reach _ _ _ _ Hinv). by eapply list_elem_of_lookup_2.
    + apply (IH w'); [by eapply walk_inv_yield|done].
  - apply IH. by eapply walk_inv_skip.
  - by intros ?%elem_of_nil.
  - by intros ?%elem_of_nil.
Qed.

(** X4.  Whatever the file system and however long the walk runs, every
    value [visitFiles] yields is the path, relative to the root, of a
    reachable entry that is not a directory. *)
Theorem visitFiles_yields_files fuel root v :
  v ∈ (visitFiles stat readdir cwd fuel root).1 →
  ∃ p status,
    reach stat readdir (Path.normalize root) p
    ∧ stat p = Some status ∧ isDirectory status = false
    ∧ v = Path.relative cwd (Path.normalize root) p.
Proof. apply run_yields_files, walk_inv_init. Qed.

Lemma run_complete root fuel : ∀ w,
  walk_inv stat readdir root w →
  (run (step root) fuel w).2 = Completed →
  ∀ p status,
    reach stat readdir root p → stat p = Some status →
    isDirectory status = false →
    p ∉ take (index w) (queue w) →
    Path.relative cwd root p ∈ (run (step root) fuel w).1.
Proof.
  induction fuel as [|n IH]; intros w Hinv; simpl; [done|].
  destruct (step root w) as [v0 w'|w'| |e] eqn:Hstep; simpl; [| | |done].
  - intros Hend p status Hp Hst Hd Hout.
    destruct (step_yield _ _ _ _ _ _ _ Hstep)
      as (path & status' & Hq & _ & _ & -> & Hw').
    destruct (decide (p = path)) as [->|Hne]; [by left|].
    right. apply (IH w' (walk_inv_yield _ _ _ _ _ _ _ Hinv Hstep) Hend
                    p status Hp Hst Hd).
    subst w'. simpl. rewrite (take_S_r _ _ path) by done.
    intros [H|H%list_elem_of_singleton]%elem_of_app; done.
  - intros Hend p status Hp Hst Hd Hout.
    destruct (step_skip _ _ _ _ _ _ Hstep)
      as (path & status' & entries & Hq & Hst' & Hd' & _ & _ & Hw').
    apply (IH w' (walk_inv_skip _ _ _ _ _ _ Hinv Hstep) Hend
             p status Hp Hst Hd).
    subst w'. simpl.
    pose proof (lookup_lt_Some _ _ _ Hq) as Hlt.
    rewrite take_app_le by lia. rewrite (take_S_r _ _ path) by done.
    intros [H|H%list_elem_of_singleton]%elem_of_app; [done|].
    subst p. congruence.
  - intros _ p status Hp Hst Hd Hout. exfalso. apply Hout.
    pose proof (step_return _ _ _ _ _ Hstep) as Hlen.
    destruct (reach_queued _ _ _ _ _ Hinv Hlen Hp) as [j Hj].
    rewrite take_ge by done. by eapply list_elem_of_lookup_2.
Qed.

(** X5.  When [visitFiles] returns, nothing was left out: every reachable
    entry that is not a directory has been yielded, as its path relative to
    the root. *)
Theorem visitFiles_complete fuel root p status :
  (visitFiles stat readdir cwd fuel root).2 = Completed →
  reach stat readdir (Path.normalize root) p →
  stat p = Some status → isDirectory status = false →
  Path.relative cwd (Path.normalize root) p
  ∈ (visitFiles stat readdir cwd fuel root).1.
Proof.
  intros Hend Hp Hst Hd.
  apply (run_complete _ fuel _ (walk_inv_init _ _ _) Hend p status);
    [done..|]. simpl. apply not_elem_of_nil.
Qed.

(** A queue that holds two paths to directories with one inode number is
    never used up. *)
Lemma shared_no_return root w p q sp sq :
  reach stat readdir root p → reach stat readdir root q → p ≠ q →
  stat p = Some sp → stat q = Some sq →
  isDirectory sp = true → isDirectory sq = true → ino sp = ino sq →
  walk_inv stat readdir root w → step root w ≠ Return.
Proof.
  intros Hp Hq Hne Hsp Hsq Hdp Hdq Hino Hinv Hret%step_return.
  destruct (reach_queued _ _ _ _ _ Hinv Hret Hp) as [j Hj].
  destruct (reach_queued _ _ _ _ _ Hinv Hret Hq) as [k Hk].
  pose proof (lookup_lt_Some _ _ _ Hj) as Hltj.
  pose proof (lookup_lt_Some _ _ _ Hk) as Hltk.
  destruct (Nat.lt_total j k) as [Hjk|[->|Hkj]].
  - by apply (inv_fresh _ _ _ _ Hinv j k p q sp sq Hjk ltac:(lia)).
  - congruence.
  - symmetry in Hino.
    by apply (inv_fresh _ _ _ _ Hinv k j q p sq sp Hkj ltac:(lia)).
Qed.

Lemma run_no_return root :
  (∀ w, walk_inv stat readdir root w → step root w ≠ Return) →
  well_formed stat readdir root →
  ∀ fuel w, walk_inv stat readdir root w → walk_order stat readdir root w →
    match (run (step root) fuel w).2 with
    | Completed => False
    | Failed e => circular stat readdir root e
    | Suspended => True
    end.
Proof.
  intros Hnever Hwf fuel.
  induction fuel as [|n IH]; intros w Hinv Hord; simpl; [done|].
  destruct (step root w) as [v w'|w'| |e] eqn:Hstep; simpl.
  - apply IH; [by eapply walk_inv_yield|by eapply walk_order_yield].
  - apply IH; [by eapply walk_inv_skip|by eapply walk_order_skip].
  - by apply (Hnever w).
  - by eapply throw_circular.
Qed.

(** X6.  No cycle is needed for the circular-directory error: on a
    well-formed file system with finitely many directories, two distinct
    reachable paths to directories with one inode number (a link to a
    sibling directory, say) make the walk throw it, on the first path in
    the order of discovery that is a directory whose inode number is that
    of a directory entered before; what was yielded until then is all that
    is yielded. *)
Theorem visitFiles_shared_directory inos root p q sp sq :
  finite_dirs stat inos →
  well_formed stat readdir (Path.normalize root) →
  reach stat readdir (Path.normalize root) p →
  reach stat readdir (Path.normalize root) q →
  p ≠ q →
  stat p = Some sp → stat q = Some sq →
  isDirectory sp = true → isDirectory sq = true → ino sp = ino sq →
  ∃ fuel yielded e,
    circular stat readdir (Path.normalize root) e
    ∧ ∀ fuel', fuel ≤ fuel' →
        visitFiles stat readdir cwd fuel' root = (yielded, Failed e).
Proof.
  intros Hfin Hwf Hp Hq Hne Hsp Hsq Hdp Hdq Hino. unfold visitFiles.
  destruct (run_terminates stat readdir cwd inos (Path.normalize root) Hfin _
              (visitFiles_init (Path.normalize root)) (le_n _))
    as [fuel Hfuel].
  pose proof (run_no_return _
                (λ w, shared_no_return _ w p q sp sq
                        Hp Hq Hne Hsp Hsq Hdp Hdq Hino)
                Hwf fuel _ (walk_inv_init _ _ _)
                (walk_order_init _ _ _)) as Hrun.
  destruct (run (step (Path.normalize root)) fuel
              (visitFiles_init (Path.normalize root))) as [yielded o] eqn:Hr.
  simpl in *. destruct o as [|e|]; [done| |done].
  exists fuel, yielded, e. split; [done|].
  intros fuel' Hle. rewrite <- Hr. apply run_stable; [|done].
  by rewrite Hr.
Qed.

Lemma run_S {S : Type} (f : S → event S) n s :
  run f (Datatypes.S n) s
  = match f s with
    | Yield v s' => (v :: (run f n s').1, (run f n s').2)
    | Skip s' => run f n s'
    | Return => ([], Completed)
    | Throw e => ([], Failed e)
    end.
Proof. reflexivity. Qed.

(** X7.  A root that is not a directory is itself the one entry: the walk
    yields the empty path (the root relative to itself) and returns, and
    [visitMarkdownFiles] yields nothing, whatever the name of the root. *)
Theorem visitFiles_file_root root status fuel :
  stat (Path.normalize root) = Some status →
  isDirectory status = false →
  2 ≤ fuel →
  visitFiles stat readdir cwd fuel root = ([""], Completed)
  ∧ visitMarkdownFiles stat readdir cwd fuel root = ([], Completed).
Proof.
  intros Hst Hd Hfuel. set (r := Path.normalize root) in *.
  assert (Path.relative cwd r r = "") as Hrel.
  { unfold Path.relative. by rewrite String.eqb_refl. }
  assert (step r (visitFiles_init r)
          = Yield "" {| visited := ∅; queue := [r]; index := 1 |}) as Hfirst.
  { unfold visitFiles_step. simpl. by rewrite Hst, Hd, Hrel. }
  assert (step r {| visited := ∅; queue := [r]; index := 1 |} = Return)
    as Hsecond by done.
  assert (visitFiles stat readdir cwd fuel root = ([""], Completed)) as Hrun.
  { destruct fuel as [|[|n]]; [lia..|].
    unfold visitFiles. fold r. rewrite run_S, Hfirst, run_S, Hsecond. done. }
  split; [done|].
  unfold visitMarkdownFiles. rewrite run_markdown.
  unfold visitFiles in Hrun. rewrite Hrun. done.
Qed.

Lemma run_failure root fuel : ∀ w,
  walk_inv stat readdir root w → walk_order stat readdir root w →
  ∀ e, (run (step root) fuel w).2 = Failed e →
  circular stat readdir root e
  ∨ (∃ p, reach stat readdir root p ∧ stat p = None
          ∧ e = SystemError "stat" p)
  ∨ (∃ p status, reach stat readdir root p ∧ stat p = Some status
                 ∧ isDirectory status = true ∧ readdir p = None
                 ∧ e = SystemError "scandir" p).
Proof.
  induction fuel as [|n IH]; intros w Hinv Hord e; simpl; [done|].
  destruct (step root w) as [v w'|w'| |e'] eqn:Hstep; simpl; [| |done|].
  - apply IH; [by eapply walk_inv_yield|by eapply walk_order_yield].
  - apply IH; [by eapply walk_inv_skip|by eapply walk_order_skip].
  - intros [= ->].
    destruct (step_throw _ _ _ _ _ _ Hstep) as (path & Hq & Hcase).
    assert (reach stat readdir root path) as Hreach.
    { apply (inv_reach _ _ _ _ Hinv). by eapply list_elem_of_lookup_2. }
    destruct Hcase as [[Hnone ->]|(status & Hst & Hd & [[Hin ->]|[Hnone ->]])].
    + right. left. by exists path.
    + left. by apply (throw_visited stat readdir root w path status).
    + right. right. by exists path, status.
Qed.

(** X8.  How the walk fails: with the circular-directory error on the
    first path in the order of discovery that is a directory whose inode
    number is that of a directory queued in front of it and entered
    before, or with the rejection of [stat] on a reachable path, or with
    the rejection of [readdir] on a reachable directory; it throws nothing
    else. *)
Theorem visitFiles_failure fuel root e :
  (visitFiles stat readdir cwd fuel root).2 = Failed e →
  circular stat readdir (Path.normalize root) e
  ∨ (∃ p, reach stat readdir (Path.normalize root) p ∧ stat p = None
          ∧ e = SystemError "stat" p)
  ∨ (∃ p status, reach stat readdir (Path.normalize root) p
                 ∧ stat p = Some status ∧ isDirectory status = true
                 ∧ readdir p = None ∧ e = SystemError "scandir" p).
Proof. apply run_failure; [apply walk_inv_init|apply walk_order_init]. Qed.

End WalkMore.

Lemma visitFiles_yields_files_witness :
  ∃ p status,
    reach docs_stat docs_readdir (Path.normalize ".") p
    ∧ docs_stat p = Some status ∧ isDirectory status = false
    ∧ "docs/a.md" = Path.relative "/project" (Path.normalize ".") p.
Proof.
  apply (visitFiles_yields_files docs_stat docs_readdir "/project" 5 ".").
  rewrite visitFiles_docs. simpl. by left.
Defined.

Lemma docs_reach_b : reach docs_stat docs_readdir "." "docs/b.md".
Proof.
  apply (reach_entry docs_stat docs_readdir "." "docs" "b.md").
  - apply (reach_entry docs_stat docs_readdir "." "." "docs"); [constructor|].
    exists (dir_status 1 1), ["docs"]. repeat split; try done. by left.
  - exists (dir_status 2 1), ["a.md"; "b.md"]. repeat split; try done.
    right. by left.
Qed.

Lemma visitFiles_complete_witness :
  Path.relative "/project" (Path.normalize ".") "docs/b.md"
  ∈ (visitFiles docs_stat docs_readdir "/project" 5 ".").1.
Proof.
  apply (visitFiles_complete docs_stat docs_readdir "/project" 5 "."
           "docs/b.md" (file_status 4 1)).
  - by rewrite visitFiles_docs.
  - exact docs_reach_b.
  - reflexivity.
  - reflexivity.
Defined.

Lemma links_finite : finite_dirs links_stat {[1%N; 2%N]}.
Proof.
  intros path status. unfold links_stat.
  destruct (String.eqb _ ".md"); [by intros [= <-]|].
  destruct (String.eqb path "r"); intros [= <-] _; set_solver.
Qed.

Lemma links_well_formed root : well_formed links_stat links_readdir root.
Proof.
  intros path _. unfold links_stat, links_readdir.
  destruct (String.eqb _ ".md"); [eexists; split; [done|]|];
    destruct (String.eqb path "r"); try (eexists; split; [done|]); by eexists.
Qed.

Lemma links_reach entry :
  entry ∈ ["a"; "b"] →
  reach links_stat links_readdir "r" (Path.join "r" entry).
Proof.
  intros H. constructor; [constructor|].
  by exists (dir_status 1 1), ["a"; "b"].
Qed.

Lemma visitFiles_shared_directory_witness :
  ∃ fuel yielded e,
    circular links_stat links_readdir (Path.normalize "r") e
    ∧ ∀ fuel', fuel ≤ fuel' →
        visitFiles links_stat links_readdir "/project" fuel' "r"
        = (yielded, Failed e).
Proof.
  apply (visitFiles_shared_directory links_stat links_readdir "/project"
           {[1%N; 2%N]} "r" "r/a" "r/b" (dir_status 2 1) (dir_status 2 1)).
  - exact links_finite.
  - apply links_well_formed.
  - apply (links_reach "a"). by left.
  - apply (links_reach "b"). right. by left.
  - discriminate.
  - reflexivity.
  - reflexivity.
  - reflexivity.
  - reflexivity.
  - reflexivity.
Defined.

Example visitFiles_links :
  visitFiles links_stat links_readdir "/project" 3 "r"
  = ([], Failed (Error "Circular directory: r/b")).
Proof. vm_compute. reflexivity. Qed.

Lemma visitFiles_file_root_witness :
  visitFiles docs_stat docs_readdir "/project" 2 "docs/a.md"
  = ([""], Completed)
  ∧ visitMarkdownFiles docs_stat docs_readdir "/project" 2 "docs/a.md"
    = ([], Completed).
Proof.
  apply (visitFiles_file_root docs_stat docs_readdir "/project" "docs/a.md"
           (file_status 3 1)); [reflexivity|reflexivity|lia].
Defined.

Lemma visitFiles_failure_witness :
  circular loop_stat loop_readdir (Path.normalize "r")
    (Error "Circular directory: r/loop")
  ∨ (∃ p, reach loop_stat loop_readdir (Path.normalize "r") p
          ∧ loop_stat p = None
          ∧ Error "Circular directory: r/loop" = SystemError "stat" p)
  ∨ (∃ p status, reach loop_stat loop_readdir (Path.normalize "r") p
                 ∧ loop_stat p = Some status ∧ isDirectory status = true
                 ∧ loop_readdir p = None
                 ∧ Error "Circular directory: r/loop" = SystemError "scandir" p).
Proof.
  apply (visitFiles_failure loop_stat loop_readdir "/project" 3 "r").
  by rewrite visitFiles_loop.
Defined.

(** ** [resolveImport] beyond the reserved names *)

Lemma startsWith_eqb s p :
  Str.startsWith p "npm:" = true → Str.startsWith s "npm:" = false →
  String.eqb s p = false.
Proof. intros Hp Hs. apply String.eqb_neq. intros ->. congruence. Qed.

Lemma first_party_npm alias :
  alias ∈ first_party.*1 → Str.startsWith alias "npm:" = true.
Proof.
  simpl. intros H.
  repeat (apply elem_of_cons in H as [->|H]; [reflexivity|]).
  by apply elem_of_nil in H.
Qed.

Lemma first_party_not_reserved alias :
  alias ∈ first_party.*1 → Str.startsWith alias "observablehq:" = false.
Proof.
  simpl. intros H.
  repeat (apply elem_of_cons in H as [->|H]; [reflexivity|]).
  by apply elem_of_nil in H.
Qed.

Section ResolveMore.

Context {AstNode : Type}.
Variable relativeUrl : string → string → string.
Variable getClientPath : string → string.
Variable resolveNpmImport : string → promise string.
Variable isPathImport : string → bool.

#[local] Abbreviation resolve :=
  (resolveImport (AstNode := AstNode) relativeUrl getClientPath
     resolveNpmImport isPathImport).

(** The last two branches, for a specifier without either marker. *)
Lemma resolveImport_unmarked source specifier :
  Str.startsWith specifier "observablehq:" = false →
  Str.startsWith specifier "npm:" = false →
  resolve source (SpecString specifier)
  = if negb (String.eqb source specifier)
       && negb (isPathImport specifier)
       && negb (String.eqb specifier "@observablehq/inputs")
    then await (resolveNpmImport specifier)
               (λ resolution,
                  Fulfilled (Some {| id := resolution;
                                     external := Some true |}))
    else Fulfilled None.
Proof.
  intros Hobs Hnpm. unfold resolveImport. rewrite Hobs, Hnpm.
  by rewrite !(startsWith_eqb specifier) by done.
Qed.

(** The branch of the marker ["npm:"], past the first-party aliases. *)
Lemma resolveImport_marked source specifier :
  Str.startsWith specifier "npm:" = true →
  specifier ∉ first_party.*1 →
  resolve source (SpecString specifier)
  = await (resolveNpmImport (Str.slice_from 4 specifier))
          (λ resolution,
             Fulfilled (Some {| id := resolution; external := None |})).
Proof.
  intros Hnpm Hout. unfold resolveImport. rewrite Hnpm.
  destruct (startsWith_first _ _ _ Hnpm) as [s ->].
  rewrite startsWith_head by reflexivity.
  repeat match goal with
  | |- context [String.eqb (String "n" s) ?alias] =>
      destruct (String.eqb_spec (String "n" s) alias) as [E|_];
      [exfalso; apply Hout; rewrite E; simpl; set_solver|]
  end.
  done.
Qed.

(** The branch of a first-party alias. *)
Lemma resolveImport_alias source alias :
  alias ∈ first_party.*1 →
  ∃ path, (alias, path) ∈ first_party
    ∧ resolve source (SpecString alias)
      = Fulfilled (Some {| id := relativeUrl source (getClientPath path);
                           external := Some true |}).
Proof.
  simpl. intros H.
  repeat (apply elem_of_cons in H as [->|H];
          [eexists; split; [|reflexivity]; unfold first_party;
           set_solver|]).
  by apply elem_of_nil in H.
Qed.

(** X9.  A bare specifier -- without either marker, not a path import,
    not the importing module itself and not ["@observablehq/inputs"] -- is
    handed whole to [resolveNpmImport], and the resolution is returned
    marked external. *)
Theorem resolveImport_bare_specifier source specifier :
  Str.startsWith specifier "observablehq:" = false →
  Str.startsWith specifier "npm:" = false →
  source ≠ specifier →
  isPathImport specifier = false →
  specifier ≠ "@observablehq/inputs" →
  resolve source (SpecString specifier)
  = await (resolveNpmImport specifier)
          (λ resolution,
             Fulfilled (Some {| id := resolution; external := Some true |})).
Proof.
  intros Hobs Hnpm Hself Hpath Hinputs.
  rewrite resolveImport_unmarked by done. rewrite Hpath.
  destruct (String.eqb_spec source specifier); [done|].
  by destruct (String.eqb_spec specifier "@observablehq/inputs").
Qed.

(** X10.  [resolveImport] answers [null] for a string exactly when the
    string has neither marker and is the importing module itself, a path
    import or ["@observablehq/inputs"]. *)
Theorem resolveImport_null_iff source specifier :
  resolve source (SpecString specifier) = Fulfilled None
  ↔ Str.startsWith specifier "observablehq:" = false
    ∧ Str.startsWith specifier "npm:" = false
    ∧ (source = specifier ∨ isPathImport specifier = true
       ∨ specifier = "@observablehq/inputs").
Proof.
  destruct (Str.startsWith specifier "observablehq:") eqn:Hobs.
  { split; [|by intros [? _]]. unfold resolveImport. by rewrite Hobs. }
  destruct (Str.startsWith specifier "npm:") eqn:Hnpm.
  { split; [|by intros (_ & ? & _)].
    destruct (decide (specifier ∈ first_party.*1)) as [Hin|Hout].
    - destruct (resolveImport_alias source specifier Hin) as (path & _ & ->).
      done.
    - rewrite (resolveImport_marked source specifier Hnpm Hout).
      by destruct (resolveNpmImport _). }
  rewrite resolveImport_unmarked by done.
  destruct (String.eqb_spec source specifier) as [Hself|Hself]; simpl.
  { naive_solver. }
  destruct (isPathImport specifier) eqn:Hpath; simpl.
  { naive_solver. }
  destruct (String.eqb_spec specifier "@observablehq/inputs") as [Hin|Hin];
    simpl.
  { naive_solver. }
  split.
  - by destruct (resolveNpmImport specifier).
  - intros (_ & _ & [?|[?|?]]); done.
Qed.

(** X11.  [resolveImport] rejects only when [resolveNpmImport] does, with
    the rejection of the resolver: on what follows the marker ["npm:"], or
    on the whole of a specifier that has no marker. *)
Theorem resolveImport_rejects source specifier e :
  resolve source specifier = Rejected e →
  ∃ s,
    specifier = SpecString s
    ∧ Str.startsWith s "observablehq:" = false
    ∧ ((Str.startsWith s "npm:" = true
        ∧ resolveNpmImport (Str.slice_from 4 s) = Rejected e)
       ∨ (Str.startsWith s "npm:" = false
          ∧ resolveNpmImport s = Rejected e)).
Proof.
  destruct specifier as [s|node]; [|done]. intros H. exists s.
  split; [done|].
  destruct (Str.startsWith s "observablehq:") eqn:Hobs.
  { unfold resolveImport in H. by rewrite Hobs in H. }
  split; [done|].
  destruct (Str.startsWith s "npm:") eqn:Hnpm.
  - left. split; [done|].
    destruct (decide (s ∈ first_party.*1)) as [Hin|Hout].
    + destruct (resolveImport_alias source s Hin) as (path & _ & Heq).
      congruence.
    + rewrite (resolveImport_marked source s Hnpm Hout) in H.
      destruct (resolveNpmImport _); [done|]. simpl in H. congruence.
  - right. split; [done|].
    rewrite resolveImport_unmarked in H by done.
    destruct (_ && _); [|done].
    destruct (resolveNpmImport s); [done|]. simpl in H. congruence.
Qed.

(** X12.  What a resolution carries: [external] is [true], except for a
    specifier with the marker ["npm:"] that is no first-party alias, where
    the property is left out; it is never [false].  The [id] is a URL
    relative to the source for the reserved names and the resolver's
    answer otherwise. *)
Theorem resolveImport_external source specifier r :
  resolve source (SpecString specifier) = Fulfilled (Some r) →
  (external r = Some true
   ∧ (Str.startsWith specifier "npm:" = true → specifier ∈ first_party.*1))
  ∨ (external r = None
     ∧ Str.startsWith specifier "observablehq:" = false
     ∧ Str.startsWith specifier "npm:" = true
     ∧ (specifier ∉ first_party.*1)
     ∧ resolveNpmImport (Str.slice_from 4 specifier) = Fulfilled (id r)).
Proof.
  intros H.
  destruct (decide (specifier ∈ first_party.*1)) as [Hin|Hout].
  { destruct (resolveImport_alias source specifier Hin) as (path & _ & Heq).
    rewrite Heq in H. injection H as <-. by left. }
  destruct (Str.startsWith specifier "observablehq:") eqn:Hobs.
  { unfold resolveImport in H. rewrite Hobs in H. injection H as <-.
    left. split; [done|]. intros Hnpm.
    destruct (startsWith_first _ _ _ Hobs) as [s1 ->].
    by rewrite startsWith_head in Hnpm. }
  destruct (Str.startsWith specifier "npm:") eqn:Hnpm.
  - right.
    rewrite (resolveImport_marked source specifier Hnpm Hout) in H.
    destruct (resolveNpmImport _) as [resolution|]; [|done].
    simpl in H. injection H as <-. done.
  - left. rewrite resolveImport_unmarked in H by done.
    destruct (_ && _); [|done].
    destruct (resolveNpmImport specifier); [|done].
    simpl in H. injection H as <-. done.
Qed.

End ResolveMore.

Lemma resolveImport_bare_specifier_witness :
  resolveImport (AstNode := unit) sample_relativeUrl sample_getClientPath
    jsdelivr path_prefixed "client.js" (SpecString "d3")
  = Fulfilled (Some {| id := "https://cdn.jsdelivr.net/npm/d3/+esm";
                       external := Some true |}).
Proof.
  refine (resolveImport_bare_specifier (AstNode := unit) sample_relativeUrl
            sample_getClientPath jsdelivr path_prefixed "client.js" "d3"
            eq_refl eq_refl _ eq_refl _); discriminate.
Defined.

Lemma resolveImport_rejects_witness :
  ∃ s,
    SpecString (AstNode := unit) "npm:d3" = SpecString s
    ∧ Str.startsWith s "observablehq:" = false
    ∧ ((Str.startsWith s "npm:" = true
        ∧ offline (Str.slice_from 4 s)
          = Rejected (Error "Unable to resolve d3"))
       ∨ (Str.startsWith s "npm:" = false
          ∧ offline s = Rejected (Error "Unable to resolve d3"))).
Proof.
  exact (resolveImport_rejects (AstNode := unit) sample_relativeUrl
           sample_getClientPath offline path_prefixed "client.js"
           (SpecString "npm:d3") (Error "Unable to resolve d3") eq_refl).
Defined.

Lemma resolveImport_external_witness :
  (None = Some true
   ∧ (Str.startsWith "npm:d3" "npm:" = true → "npm:d3" ∈ first_party.*1))
  ∨ (None (A := bool) = None
     ∧ Str.startsWith "npm:d3" "observablehq:" = false
     ∧ Str.startsWith "npm:d3" "npm:" = true
     ∧ ("npm:d3" ∉ first_party.*1)
     ∧ jsdelivr (Str.slice_from 4 "npm:d3")
       = Fulfilled "https://cdn.jsdelivr.net/npm/d3/+esm").
Proof.
  exact (resolveImport_external (AstNode := unit) sample_relativeUrl
           sample_getClientPath jsdelivr path_prefixed "client.js" "npm:d3"
           {| id := "https://cdn.jsdelivr.net/npm/d3/+esm"; external := None |}
           eq_refl).
Defined.

(** ** Rejections of [importMetaResolve] *)

Section TransformMore.

Context {Program : Type}.
Variable parse : string → Program + exn.
Variable callExpressions : Program → list CallExpression.
Variable isStringLiteral : Node → bool.
Variable getStringLiteralValue : Node → string.
Variable resolveNpmImport : string → promise string.
Variable JSON_stringify : string → string.

#[local] Abbreviation spec_of := (specifier_of getStringLiteralValue).
#[local] Abbreviation rewrite_of :=
  (rewrite_resolves getStringLiteralValue resolveNpmImport JSON_stringify).
#[local] Abbreviation transform :=
  (importMetaResolve parse callExpressions isStringLiteral
     getStringLiteralValue resolveNpmImport JSON_stringify).
#[local] Abbreviation rewritable :=
  (npm_resolve isStringLiteral getStringLiteralValue).
#[local] Abbreviation rejection :=
  (first_rejection getStringLiteralValue resolveNpmImport rewritable).

(** A call that is not resolved, or for which the resolver answers, is
    passed over. *)
Lemma first_rejection_pass x l e :
  (rewritable x →
   ∃ r, resolveNpmImport (Str.slice_from 4 (spec_of x)) = Fulfilled r) →
  rejection l e ↔ rejection (x :: l) e.
Proof.
  intros Hx. split.
  - intros (pre & n & post & -> & Hpre & Hn & He).
    exists (x :: pre), n, post. split; [done|]. split; [|done].
    intros m [->|Hm]%elem_of_cons; [done|by apply Hpre].
  - intros (pre & n & post & Heq & Hpre & Hn & He).
    destruct pre as [|m pre]; simpl in Heq.
    { injection Heq as -> ->. destruct (Hx Hn) as [r Hr]. congruence. }
    injection Heq as -> ->.
    exists pre, n, post. split; [done|]. split; [|done].
    intros m' Hm'. apply Hpre. by right.
Qed.

(** The loop stops at a call whose resolution is rejected. *)
Lemma first_rejection_here x l e e' :
  rewritable x →
  resolveNpmImport (Str.slice_from 4 (spec_of x)) = Rejected e' →
  rejection (x :: l) e ↔ e' = e.
Proof.
  intros Hx Hres. split.
  - intros (pre & n & post & Heq & Hpre & Hn & He).
    destruct pre as [|m pre]; simpl in Heq.
    { injection Heq as -> ->. congruence. }
    injection Heq as -> ->.
    destruct (Hpre m ltac:(by left) Hx) as [r Hr]. congruence.
  - intros <-. exists [], x, l. split; [done|]. split; [|done].
    by intros n ?%elem_of_nil.
Qed.

Lemma rewrite_resolves_rejects : ∀ calls output e,
  rewrite_of (filter (λ n, eligible isStringLiteral n = true) calls) output
  = Rejected e
  ↔ rejection calls e.
Proof.
  induction calls as [|x l IH]; intros output e.
  { split; [done|]. intros (pre & n & post & H & _). by destruct pre. }
  destruct (eligible isStringLiteral x) eqn:Hel.
  - rewrite filter_cons_True by done.
    apply (eligible_meta_resolve isStringLiteral) in Hel.
    rewrite (rewrite_resolves_cons getStringLiteralValue resolveNpmImport
               JSON_stringify).
    destruct (Str.startsWith (spec_of x) "npm:") eqn:Hnpm.
    + destruct (resolveNpmImport (Str.slice_from 4 (spec_of x)))
        as [r|e'] eqn:Hres; simpl.
      * rewrite IH. apply first_rejection_pass. intros _. by exists r.
      * rewrite (first_rejection_here x l e e') by done.
        split; congruence.
    + rewrite IH. apply first_rejection_pass. intros [_ H]. congruence.
  - rewrite filter_cons_False by (by rewrite Hel).
    rewrite IH. apply first_rejection_pass.
    intros [H%(eligible_meta_resolve isStringLiteral) _]. congruence.
Qed.

(** X13.  The hook rejects in two ways only.  On a text that the parser
    refuses it rejects with what the parser throws.  On a text that parses
    it rejects exactly when the resolver rejects for a call of the
    collected shape whose literal begins with ["npm:"], while it answered
    for every such call in front of it in the order of the visit, and then
    with that rejection, whatever the resolver would answer for the calls
    behind. *)
Theorem importMetaResolve_rejects code e :
  transform code = Rejected e
  ↔ parse code = inr e
    ∨ ∃ program,
        parse code = inl program
        ∧ first_rejection getStringLiteralValue resolveNpmImport
            (npm_resolve isStringLiteral getStringLiteralValue)
            (callExpressions program) e.
Proof.
  unfold importMetaResolve.
  destruct (parse code) as [program|error] eqn:Hparse.
  - pose proof (rewrite_resolves_rejects (callExpressions program)
                  (new_Sourcemap code) e) as Hloop.
    unfold collect_resolves.
    destruct (filter _ (callExpressions program)) as [|node rest] eqn:Hres.
    { simpl. split; [done|]. intros [[=]|(p & [= <-] & H)].
      by apply Hloop in H. }
    simpl Nat.eqb. cbv iota. split.
    + intros H. right. exists program. split; [done|]. apply Hloop.
      revert H. clear Hloop.
      destruct (rewrite_of (node :: rest) (new_Sourcemap code)); simpl;
        [intros [=]|by intros [= ->]].
    + intros [[=]|(p & [= <-] & H)]. apply Hloop in H. by rewrite H.
  - split.
    + intros [= ->]. by left.
    + by intros [[= ->]|(p & ? & _)].
Qed.

End TransformMore.

Example importMetaResolve_offline :
  importMetaResolve sample_parse sample_calls sample_isStringLiteral
    sample_value offline sample_stringify sample_code
  = Rejected (Error "Unable to resolve d3").
Proof. reflexivity. Qed.

(** A text that is no module: the hook rejects with the error of the
    parser. *)
Example importMetaResolve_syntax_error :
  importMetaResolve sample_parse sample_calls sample_isStringLiteral
    sample_value jsdelivr sample_stringify "x = ;"
  = Rejected (Error "SyntaxError: Unexpected token (1:4)").
Proof. reflexivity. Qed.

(** ** [rewriteInputsNamespace] *)

Lemma replace_ns_cons prev c s :
  replace_ns 0 prev (String c s)
  = if ns_here prev (String c s)
    then "inputs-3a86ea" +:+ replace_ns 5 true s
    else String c (replace_ns 0 (Str.is_word c) s).
Proof. reflexivity. Qed.

(** Behind a word character nothing matches. *)
Lemma replace_ns_word c s :
  replace_ns 0 true (String c s) = String c (replace_ns 0 (Str.is_word c) s).
Proof. reflexivity. Qed.

Lemma ns_free_weaken s : ns_free false s = true → ns_free true s = true.
Proof.
  destruct s as [|c s]; [done|]. simpl.
  intros [_ H]%andb_true_iff. done.
Qed.

Lemma ns_free_any prev s : ns_free false s = true → ns_free prev s = true.
Proof. destruct prev; [apply ns_free_weaken|done]. Qed.

(** A text in which the pattern matches nowhere is left as it is. *)
Lemma replace_ns_free : ∀ s prev,
  ns_free prev s = true → replace_ns 0 prev s = s.
Proof.
  induction s as [|c s IH]; intros prev; [done|].
  rewrite replace_ns_cons.
  change (ns_free prev (String c s))
    with (negb (ns_here prev (String c s)) && ns_free (Str.is_word c) s).
  intros [Hhere Hrest]%andb_true_iff.
  apply negb_true_iff in Hhere. rewrite Hhere. by rewrite IH.
Qed.

(** A run of word characters that the result shows behind a word
    character stood there in the text. *)
Lemma replace_ns_run : ∀ w s,
  all_word w = true →
  Str.startsWith (replace_ns 0 true s) w = true →
  ∃ r, s = w +:+ r ∧ replace_ns 0 true s = w +:+ replace_ns 0 true r.
Proof.
  induction w as [|c w IH]; intros s Hw Hs.
  { by exists s. }
  destruct s as [|d s]; [done|].
  rewrite replace_ns_word in Hs. simpl in Hw, Hs.
  apply andb_true_iff in Hw as [Hc Hw].
  apply andb_true_iff in Hs as [->%Ascii.eqb_eq Hs].
  rewrite Hc in Hs. destruct (IH s Hw Hs) as (r & -> & Hr).
  exists r. split; [done|]. rewrite replace_ns_word, Hc, Hr. done.
Qed.

Lemma word_at_replace r : word_at (replace_ns 0 true r) = word_at r.
Proof. by destruct r. Qed.

(** Where the pattern does not match in the text, it does not match in
    the result. *)
Lemma ns_here_replace prev c s :
  ns_here prev (String c s) = false →
  ns_here prev (String c (replace_ns 0 (Str.is_word c) s)) = false.
Proof.
  intros Hno.
  destruct (ns_here prev (String c (replace_ns 0 (Str.is_word c) s)))
    eqn:Hyes; [|done].
  exfalso. unfold ns_here in Hyes.
  apply andb_true_iff in Hyes as [[Hprev Hstart]%andb_true_iff Hend].
  simpl in Hstart. apply andb_true_iff in Hstart as [<-%Ascii.eqb_eq Hstart].
  change (Str.is_word "_") with true in Hstart, Hend.
  destruct (replace_ns_run "_ns__" s eq_refl Hstart) as (r & -> & Hr).
  rewrite Hr in Hend.
  change (Str.slice_from 6 (String "_" ("_ns__" +:+ replace_ns 0 true r)))
    with (replace_ns 0 true r) in Hend.
  rewrite word_at_replace in Hend.
  unfold ns_here in Hno. rewrite Hprev in Hno.
  change (Str.slice_from 6 (String "_" ("_ns__" +:+ r))) with r in Hno.
  rewrite Hend in Hno. done.
Qed.

Lemma ns_free_literal prev t :
  ns_free true t = true → ns_free prev ("inputs-3a86ea" +:+ t) = true.
Proof. intros H. destruct prev; exact H. Qed.

Lemma ns_free_true prev s : ns_free prev s = true → ns_free true s = true.
Proof. destruct prev; [done|apply ns_free_weaken]. Qed.

(** The pattern matches nowhere in what [replace_ns] returns. *)
Lemma replace_ns_clean : ∀ s skip prev,
  ns_free (match skip with 0 => prev | S _ => true end)
          (replace_ns skip prev s) = true.
Proof.
  induction s as [|c s IH]; intros skip prev.
  { by destruct skip. }
  destruct skip as [|k].
  - rewrite replace_ns_cons.
    destruct (ns_here prev (String c s)) eqn:Hhere.
    + apply ns_free_literal. apply (IH 5 true).
    + change (ns_free prev (String c (replace_ns 0 (Str.is_word c) s)))
        with (negb (ns_here prev (String c (replace_ns 0 (Str.is_word c) s)))
              && ns_free (Str.is_word c) (replace_ns 0 (Str.is_word c) s)).
      rewrite ns_here_replace by done. apply (IH 0).
  - change (replace_ns (S k) prev (String c s))
      with (replace_ns k (Str.is_word c) s).
    specialize (IH k (Str.is_word c)).
    destruct k; [by apply ns_free_true in IH|done].
Qed.

(** X14.  [rewriteInputsNamespace] leaves no match of its pattern behind,
    and so a second pass changes nothing. *)
Theorem rewriteInputsNamespace_idempotent code :
  ns_free false (rewriteInputsNamespace code) = true
  ∧ rewriteInputsNamespace (rewriteInputsNamespace code)
    = rewriteInputsNamespace code.
Proof.
  pose proof (replace_ns_clean code 0 false) as Hclean.
  split; [exact Hclean|]. by apply replace_ns_free.
Qed.

(** X15.  [rewriteInputsNamespace] returns the text unchanged exactly when
    the pattern matches nowhere in it. *)
Theorem rewriteInputsNamespace_unchanged code :
  rewriteInputsNamespace code = code ↔ ns_free false code = true.
Proof.
  split; [|apply replace_ns_free].
  unfold rewriteInputsNamespace. generalize false.
  induction code as [|c s IH]; intros prev; [done|].
  rewrite replace_ns_cons.
  destruct (ns_here prev (String c s)) eqn:Hhere.
  - intros [= <- _]. unfold ns_here in Hhere.
    by rewrite andb_false_r in Hhere.
  - intros [= H]. simpl. rewrite Hhere. by apply IH.
Qed.

Example rewriteInputsNamespace_sample :
  rewriteInputsNamespace ".__ns__ form.__ns__-x my__ns__ __ns__s"
  = ".inputs-3a86ea form.inputs-3a86ea-x my__ns__ __ns__s".
Proof. reflexivity. Qed.

(** ** [maybeStat] *)

Section MaybeStatFacts.

Variable stat : string → promise Stats.
Variable isNodeError : exn → bool.
Variable error_code : exn → string.

#[local] Abbreviation maybe := (maybeStat stat isNodeError error_code).

(** X16.  [maybeStat] answers with the status exactly when [stat] does,
    with [undefined] exactly when [stat] rejects with a Node error whose
    code is [ENOENT], and rejects exactly with the other rejections of
    [stat]. *)
Theorem maybeStat_outcomes path :
  (∀ status, maybeStat stat isNodeError error_code path = Fulfilled (Some status)
             ↔ stat path = Fulfilled status)
  ∧ (maybeStat stat isNodeError error_code path = Fulfilled None
     ↔ ∃ e, stat path = Rejected e ∧ isNodeError e = true
            ∧ error_code e = "ENOENT")
  ∧ (∀ e, maybeStat stat isNodeError error_code path = Rejected e
          ↔ stat path = Rejected e
            ∧ (isNodeError e = false ∨ error_code e ≠ "ENOENT")).
Proof.
  unfold maybeStat.
  destruct (stat path) as [status|error].
  { split; [|split].
    - intros status'. split; congruence.
    - split; [done|]. by intros (e & ? & _).
    - intros e. split; [done|]. by intros [? _]. }
  destruct (isNodeError error) eqn:Hnode; simpl.
  - destruct (String.eqb_spec (error_code error) "ENOENT") as [Hcode|Hcode];
      simpl.
    + split; [|split].
      * intros status. split; congruence.
      * split; [|done]. intros _. by exists error.
      * intros e. split; [done|].
        intros [[= <-] [H|H]]; congruence.
    + split; [|split].
      * intros status. split; congruence.
      * split; [done|]. intros (e & [= <-] & _ & H). done.
      * intros e. split.
        -- intros [= <-]. split; [done|]. by right.
        -- by intros [[= <-] _].
  - split; [|split].
    + intros status. split; congruence.
    + split; [done|]. intros (e & [= <-] & H & _). congruence.
    + intros e. split.
      * intros [= <-]. split; [done|]. by left.
      * by intros [[= <-] _].
Qed.

End MaybeStatFacts.

(** ** [prepareOutput] *)

Lemma get_no_slash : ∀ s i c,
  Str.no_slash s = true → String.get i s = Some c → Str.is_slash c = false.
Proof.
  induction s as [|d s IH]; intros i c; simpl; [done|].
  intros [Hd Hs]%andb_true_iff. destruct i as [|i].
  - intros [= <-]. by apply negb_true_iff.
  - by apply IH.
Qed.

Lemma dirname_scan_no_slash path :
  Str.no_slash path = true → ∀ i m, Path.dirname_scan path i m = None.
Proof.
  intros Hpath. induction i as [|j IH]; intros m; simpl; [done|].
  destruct (String.get (S j) path) as [c|] eqn:Hc; [|apply IH].
  by rewrite (get_no_slash _ _ _ Hpath Hc).
Qed.

(** The directory of a bare file name is the current one. *)
Lemma dirname_no_slash path : Str.no_slash path = true → Path.dirname path = ".".
Proof.
  intros Hpath. unfold Path.dirname.
  destruct (String.eqb path ""); [done|].
  rewrite dirname_scan_no_slash by done.
  destruct path as [|c s]; [done|]. simpl in *.
  apply andb_true_iff in Hpath as [Hc _]. apply negb_true_iff in Hc.
  unfold Str.is_slash in Hc. rewrite Ascii.eqb_sym in Hc. by rewrite Hc.
Qed.

Section FilesFacts.

Variable enoent : string → exn.
Variable denied : string → option exn.
Variable mkdir_error : string → option exn.
Variable write_error : string → option exn.
Variable build : BuildInput → promise (list OutputFile).
Variable isEnoent : exn → bool.
Variable renderTheme : option (list string) → string.
Variable faint : string → string.

#[local] Abbreviation prepare := (prepareOutput mkdir_error).
#[local] Abbreviation one_file :=
  (bundle_file enoent denied mkdir_error write_error isEnoent faint).
#[local] Abbreviation loop :=
  (bundle_loop enoent denied mkdir_error write_error isEnoent faint).
#[local] Abbreviation bundle :=
  (bundleStyles enoent denied mkdir_error write_error build isEnoent
     renderTheme faint).

(** X17.  For a bare file name, one without a slash, [prepareOutput]
    makes no directory: it leaves the world as it is. *)
Theorem prepareOutput_bare outputPath w :
  Str.no_slash outputPath = true →
  prepareOutput mkdir_error outputPath w = (Fulfilled tt, w).
Proof.
  intros H. unfold prepareOutput. by rewrite dirname_no_slash.
Qed.

Lemma prepareOutput_files outputPath w :
  files (prepare outputPath w).2 = files w.
Proof.
  unfold prepareOutput. destruct (String.eqb _ "."); [done|].
  unfold mkdir. by destruct (mkdir_error _).
Qed.

(** What one round of the loop does to the files: nothing, or it adds the
    asset at a path that was missing. *)
Lemma bundle_file_files includePath n i file t w :
  (∀ p e, denied p = Some e → isEnoent e = false) →
  files (one_file includePath n i file t w).2 = files w
  ∨ ∃ ip, includePath = Some ip ∧ i < n - 1
      ∧ files w !! Path.join ip (file_path file) = None
      ∧ files (one_file includePath n i file t w).2
        = <[Path.join ip (file_path file) := contents file]> (files w).
Proof.
  intros Hdenied. unfold bundle_file.
  destruct includePath as [ip|]; [|by left].
  destruct (Nat.ltb_spec i (n - 1)) as [Hlt|Hge]; [|by left].
  unfold io_bind, io_catch, access.
  destruct (files w !! Path.join ip (file_path file)) as [c|] eqn:Hfile.
  - left. destruct (denied _) as [e|] eqn:He; [|done].
    by rewrite (Hdenied _ _ He).
  - destruct (isEnoent (enoent _)); simpl; [|by left].
    match goal with
    | |- context [prepare ?p ?w0] =>
        pose proof (prepareOutput_files p w0) as Hprep;
        destruct (prepare p w0) as [[[]|e] w1]
    end; simpl in *; [|by left].
    unfold writeFile. destruct (write_error _); simpl; [by left|].
    right. exists ip. rewrite Hprep. done.
Qed.

Lemma bundle_file_keeps includePath n i file t w :
  (∀ p e, denied p = Some e → isEnoent e = false) →
  files w ⊆ files (one_file includePath n i file t w).2.
Proof.
  intros Hdenied.
  destruct (bundle_file_files includePath n i file t w Hdenied)
    as [->|(ip & _ & _ & Hnone & ->)]; [done|].
  by apply insert_subseteq.
Qed.

Lemma bundle_loop_keeps includePath n : ∀ outputFiles i t w,
  (∀ p e, denied p = Some e → isEnoent e = false) →
  files w ⊆ files (loop includePath n i outputFiles t w).2.
Proof.
  induction outputFiles as [|file rest IH]; intros i t w Hdenied; [done|].
  simpl. unfold io_bind.
  pose proof (bundle_file_keeps includePath n i file t w Hdenied) as Hone.
  destruct (one_file includePath n i file t w) as [[t'|e] w1]; [|done].
  etrans; [exact Hone|]. by apply IH.
Qed.

(** X18.  [bundleStyles] never replaces or removes a readable file: what
    could be read before the call reads the same after it, however the
    call ends, as long as [access] rejects with an [ENOENT] error only for
    a missing path. *)
Theorem bundleStyles_keeps_files path theme includePath w :
  (∀ p e, denied p = Some e → isEnoent e = false) →
  files w
  ⊆ files (bundleStyles enoent denied mkdir_error write_error build isEnoent
             renderTheme faint path theme includePath w).2.
Proof.
  intros Hdenied. unfold bundleStyles.
  destruct (build _) as [outputFiles|e]; [|done].
  unfold io_bind.
  pose proof (bundle_loop_keeps includePath (length outputFiles)
                outputFiles 0 None w Hdenied) as Hloop.
  destruct (loop includePath (length outputFiles) 0 outputFiles None w)
    as [[t|e] w1]; [|done].
  destruct (bool_decide _); [|done]. by destruct t.
Qed.

(** The text the loop ends with: that of the last file, or what it began
    with when there is none. *)
Lemma bundle_loop_text includePath n : ∀ outputFiles i t0 w t w',
  i + length outputFiles = n →
  loop includePath n i outputFiles t0 w = (Fulfilled t, w') →
  t = match last outputFiles with
      | Some file => Some (text file)
      | None => t0
      end.
Proof.
  induction outputFiles as [|file rest IH]; intros i t0 w t w' Hn; simpl.
  { by intros [= <- _]. }
  unfold io_bind.
  destruct (one_file includePath n i file t0 w) as [[t1|e] w1] eqn:Hone;
    [|done].
  intros Hrest. apply IH in Hrest; [|simpl in Hn; lia]. rewrite Hrest.
  destruct rest as [|file' rest].
  2:{ rewrite last_cons_cons.
      destruct (last (file' :: rest)) eqn:E; [done|].
      by apply last_None in E. }
  simpl. unfold bundle_file in Hone.
  destruct includePath as [ip|]; [|by injection Hone as <- _].
  destruct (Nat.ltb_spec i (n - 1)) as [Hlt|Hge]; [simpl in Hn; lia|].
  by injection Hone as <- _.
Qed.

(** X19.  When [bundleStyles] answers, the text is that of the last file
    of the build (rewritten for the inputs style sheet), whatever files
    came before it and whether assets were written or not; with no output
    file it answers [undefined]. *)
Theorem bundleStyles_text path theme includePath w outputFiles t w' :
  build (build_input renderTheme path theme) = Fulfilled outputFiles →
  bundleStyles enoent denied mkdir_error write_error build isEnoent
    renderTheme faint path theme includePath w = (Fulfilled t, w') →
  t = final_text path outputFiles.
Proof.
  intros Hbuild. unfold bundleStyles, final_text. rewrite Hbuild.
  unfold io_bind.
  destruct (loop includePath (length outputFiles) 0 outputFiles None w)
    as [[t1|e] w1] eqn:Hloop; [|done].
  apply bundle_loop_text in Hloop; [|done]. subst t1.
  destruct (bool_decide _).
  - destruct (last outputFiles); simpl; [|done]. by intros [= <- _].
  - destruct (last outputFiles); by intros [= <- _].
Qed.

Lemma bundle_loop_none n : ∀ outputFiles i t w,
  (loop None n i outputFiles t w).2 = w.
Proof.
  induction outputFiles as [|file rest IH]; intros i t w; [done|].
  simpl. unfold io_bind. simpl. apply IH.
Qed.

(** X20.  Without an include path [bundleStyles] touches nothing: no file
    is written, no directory made, nothing logged, however the build
    ends. *)
Theorem bundleStyles_no_include path theme w :
  (bundleStyles enoent denied mkdir_error write_error build isEnoent
     renderTheme faint path theme None w).2 = w.
Proof.
  unfold bundleStyles. destruct (build _) as [outputFiles|e]; [|done].
  unfold io_bind.
  pose proof (bundle_loop_none (length outputFiles) outputFiles 0 None w)
    as Hloop.
  destruct (loop None (length outputFiles) 0 outputFiles None w)
    as [[t|e] w1]; simpl in *; subst; [|done].
  destruct (bool_decide _); [|done]. by destruct t.
Qed.

(** A round that ends well for a file that is not the last leaves its
    asset readable. *)
Lemma bundle_file_present ip n i file t w t' w' :
  i < n - 1 →
  one_file (Some ip) n i file t w = (Fulfilled t', w') →
  is_Some (files w' !! Path.join ip (file_path file)).
Proof.
  intros Hlt. unfold bundle_file.
  destruct (Nat.ltb_spec i (n - 1)) as [_|Hge]; [|lia].
  unfold io_bind, io_catch, access.
  destruct (files w !! Path.join ip (file_path file)) as [c|] eqn:Hfile.
  - destruct (denied _) as [e|]; simpl.
    + destruct (isEnoent e); simpl; [|done].
      match goal with
      | |- context [prepareOutput mkdir_error ?p ?w0] =>
          pose proof (prepareOutput_files p w0) as Hprep;
          destruct (prepareOutput mkdir_error p w0) as [[[]|e'] w1]
      end; simpl in *; [|done].
      unfold writeFile. destruct (write_error _); simpl; [done|].
      intros [= _ <-]. simpl. rewrite lookup_insert_eq. by eexists.
    + intros [= _ <-]. by eexists.
  - destruct (isEnoent (enoent _)); simpl; [|done].
    match goal with
    | |- context [prepareOutput mkdir_error ?p ?w0] =>
        pose proof (prepareOutput_files p w0) as Hprep;
        destruct (prepareOutput mkdir_error p w0) as [[[]|e'] w1]
    end; simpl in *; [|done].
    unfold writeFile. destruct (write_error _); simpl; [done|].
    intros [= _ <-]. simpl. rewrite lookup_insert_eq. by eexists.
Qed.

Lemma bundle_loop_cons includePath n i file rest t w :
  loop includePath n i (file :: rest) t w
  = match one_file includePath n i file t w with
    | (Fulfilled t', w') => loop includePath n (S i) rest t' w'
    | (Rejected e, w') => (Rejected e, w')
    end.
Proof. done. Qed.

Lemma bundle_loop_assets ip n : ∀ outputFiles i t0 w t w',
  (∀ p e, denied p = Some e → isEnoent e = false) →
  loop (Some ip) n i outputFiles t0 w = (Fulfilled t, w') →
  ∀ k file, outputFiles !! k = Some file → i + k < n - 1 →
    is_Some (files w' !! Path.join ip (file_path file)).
Proof.
  induction outputFiles as [|file rest IH]; intros i t0 w t w' Hdenied;
    [done|].
  rewrite bundle_loop_cons.
  destruct (one_file (Some ip) n i file t0 w) as [[t1|e] w1] eqn:Hone;
    [|done].
  intros Hrest [|k] file' Hk Hlt.
  - injection Hk as <-.
    destruct (bundle_file_present ip n i file t0 w t1 w1 ltac:(lia) Hone)
      as [c Hc].
    exists c.
    pose proof (bundle_loop_keeps (Some ip) n rest (S i) t1 w1 Hdenied) as Hk.
    rewrite Hrest in Hk. simpl in Hk.
    by eapply lookup_weaken.
  - apply (IH (S i) t1 w1 t w' Hdenied Hrest k file' Hk). lia.
Qed.

(** X21.  When [bundleStyles] answers with an include path, every output
    file but the last is readable under the include path afterwards: it
    was there already, or it has been written. *)
Theorem bundleStyles_assets path theme ip w outputFiles t w' k file :
  (∀ p e, denied p = Some e → isEnoent e = false) →
  build (build_input renderTheme path theme) = Fulfilled outputFiles →
  bundleStyles enoent denied mkdir_error write_error build isEnoent
    renderTheme faint path theme (Some ip) w = (Fulfilled t, w') →
  outputFiles !! k = Some file → k < length outputFiles - 1 →
  is_Some (files w' !! Path.join ip (file_path file)).
Proof.
  intros Hdenied Hbuild. unfold bundleStyles. rewrite Hbuild.
  unfold io_bind.
  destruct (loop (Some ip) (length outputFiles) 0 outputFiles None w)
    as [[t1|e] w1] eqn:Hloop; [|done].
  intros Hend Hk Hlt.
  assert (w' = w1) as ->.
  { destruct (bool_decide _); [destruct t1|]; by injection Hend. }
  by apply (bundle_loop_assets ip _ _ 0 None w t1 w1 Hdenied Hloop k file).
Qed.

(** Once the assets are readable the loop writes nothing. *)
Lemma bundle_loop_settled ip n : ∀ outputFiles i t0 w,
  (∀ p, denied p = None) →
  (∀ k file, outputFiles !! k = Some file → i + k < n - 1 →
     is_Some (files w !! Path.join ip (file_path file))) →
  (loop (Some ip) n i outputFiles t0 w).2 = w
  ∧ ∃ t, (loop (Some ip) n i outputFiles t0 w).1 = Fulfilled t.
Proof.
  induction outputFiles as [|file rest IH]; intros i t0 w Hdenied Hthere.
  { split; [done|]. by eexists. }
  rewrite bundle_loop_cons.
  assert (∃ t1, one_file (Some ip) n i file t0 w = (Fulfilled t1, w))
    as [t1 ->].
  { unfold bundle_file.
    destruct (Nat.ltb_spec i (n - 1)) as [Hlt|Hge]; [|by eexists].
    destruct (Hthere 0 file eq_refl ltac:(lia)) as [c Hc].
    unfold io_bind, io_catch, access. rewrite Hc, Hdenied. by eexists. }
  apply IH; [done|]. intros k file' Hk Hlt.
  apply (Hthere (S k) file' Hk). lia.
Qed.

(** X22.  On a file system where what is there can be read, a second
    [bundleStyles] after one that answered changes nothing and answers the
    same: the assets are found and left alone. *)
Theorem bundleStyles_again path theme includePath w t w' :
  (∀ p, denied p = None) →
  bundleStyles enoent denied mkdir_error write_error build isEnoent
    renderTheme faint path theme includePath w = (Fulfilled t, w') →
  bundleStyles enoent denied mkdir_error write_error build isEnoent
    renderTheme faint path theme includePath w' = (Fulfilled t, w').
Proof.
  intros Hdenied. unfold bundleStyles.
  destruct (build _) as [outputFiles|e]; [|done].
  unfold io_bind.
  destruct (loop includePath (length outputFiles) 0 outputFiles None w)
    as [[t1|e] w1] eqn:Hloop; [|done].
  intros Hend.
  assert (w' = w1) as ->.
  { destruct (bool_decide _); [destruct t1|]; by injection Hend. }
  assert (loop includePath (length outputFiles) 0 outputFiles None w1
          = (Fulfilled t1, w1)) as ->; [|done].
  pose proof (bundle_loop_text includePath _ _ 0 None w t1 w1 eq_refl Hloop)
    as Ht1.
  destruct includePath as [ip|].
  - destruct (bundle_loop_settled ip (length outputFiles) outputFiles 0 None
                w1 Hdenied) as [Hworld [t2 Ht2]].
    { intros k file Hk Hlt.
      apply (bundle_loop_assets ip (length outputFiles) outputFiles 0 None w
               t1 w1) with k; try done.
      intros p e. by rewrite Hdenied. }
    destruct (loop (Some ip) (length outputFiles) 0 outputFiles None w1)
      as [r w2] eqn:Hagain.
    simpl in *. subst r w2.
    apply bundle_loop_text in Hagain; [|done]. congruence.
  - pose proof (bundle_loop_none (length outputFiles) outputFiles 0 None w)
      as Hw.
    rewrite Hloop in Hw. simpl in Hw. subst w1. done.
Qed.

End FilesFacts.

(** *** The sample build, into an empty [dist] *)

Lemma prepareOutput_bare_witness :
  prepareOutput no_error "index.html" empty_world = (Fulfilled tt, empty_world).
Proof. apply prepareOutput_bare. reflexivity. Defined.

Lemma bundleStyles_keeps_files_witness :
  files (bundleStyles sample_enoent no_error no_error no_error sample_build
           sample_isEnoent sample_renderTheme sample_faint
           None None (Some "dist")
           {| files := {[ "dist/_import/assets/logo.svg" := "<old/>" ]};
              dirs := ∅; console := [] |}).2
    !! "dist/_import/assets/logo.svg"
  = Some "<old/>".
Proof.
  eapply lookup_weaken; [|apply bundleStyles_keeps_files].
  - vm_compute. reflexivity.
  - intros p e. discriminate.
Defined.

Lemma bundleStyles_text_witness :
  Some "a { color: red }" = final_text None sample_outputs.
Proof.
  apply (bundleStyles_text sample_enoent no_error no_error no_error
           sample_build sample_isEnoent sample_renderTheme sample_faint
           None None None empty_world sample_outputs
           (Some "a { color: red }") empty_world); reflexivity.
Defined.

(** The asset is written, the style sheet is not. *)
Example bundleStyles_sample :
  let r := bundleStyles sample_enoent no_error no_error no_error sample_build
             sample_isEnoent sample_renderTheme sample_faint
             None None (Some "dist") empty_world in
  r.1 = Fulfilled (Some "a { color: red }")
  ∧ files r.2 !! "dist/_import/assets/logo.svg" = Some "<svg/>"
  ∧ files r.2 !! "dist/_import/stdin.css" = None
  ∧ console r.2 = [("css asset", "dist/_import/assets/logo.svg")].
Proof. vm_compute. done. Qed.

Lemma bundleStyles_assets_witness :
  is_Some
    (files (bundleStyles sample_enoent no_error no_error no_error sample_build
              sample_isEnoent sample_renderTheme sample_faint
              None None (Some "dist") empty_world).2
       !! Path.join "dist" "/_import/assets/logo.svg").
Proof.
  apply (bundleStyles_assets sample_enoent no_error no_error no_error
           sample_build sample_isEnoent sample_renderTheme sample_faint
           None None "dist" empty_world sample_outputs
           (Some "a { color: red }") _ 0
           {| file_path := "/_import/assets/logo.svg"; contents := "<svg/>";
              text := "<svg/>" |}).
  - intros p e. discriminate.
  - reflexivity.
  - vm_compute. reflexivity.
  - reflexivity.
  - simpl. lia.
Defined.

Lemma bundleStyles_again_witness :
  bundleStyles sample_enoent no_error no_error no_error sample_build
    sample_isEnoent sample_renderTheme sample_faint None None (Some "dist")
    (bundleStyles sample_enoent no_error no_error no_error sample_build
       sample_isEnoent sample_renderTheme sample_faint
       None None (Some "dist") empty_world).2
  = (Fulfilled (Some "a { color: red }"),
     (bundleStyles sample_enoent no_error no_error no_error sample_build
        sample_isEnoent sample_renderTheme sample_faint
        None None (Some "dist") empty_world).2).
Proof.
  apply (bundleStyles_again sample_enoent no_error no_error no_error
           sample_build sample_isEnoent sample_renderTheme sample_faint
           None None (Some "dist") empty_world).
  - intros p. reflexivity.
  - vm_compute. reflexivity.
Defined.

(** The directories of an asset are made with it. *)
Example prepareOutput_sample :
  dirs (prepareOutput no_error "dist/_import/assets/logo.svg" empty_world).2
  = {[ "dist/_import/assets"; "dist/_import"; "dist" ]}.
Proof. vm_compute. reflexivity. Qed.

(** ** [rewriteTypeScriptImports] *)

Lemma replace_ts_miss b c s :
  ts_here b (String c s) = false →
  replace_ts b (String c s) = String c (replace_ts (c :: b) s).
Proof. intros H. simpl. by rewrite H. Qed.

(** A match shows the five characters that the pattern reads from the
    position on. *)
Lemma ts_here_inv b s :
  ts_here b s = true →
  ∃ q s4, lookbehind b = Some q
    ∧ s = String "." (String "t" (String "s" (String q (String ")" s4)))).
Proof.
  unfold ts_here. destruct (lookbehind b) as [q|]; [|done].
  intros H. exists q.
  destruct s as [|c0 [|c1 [|c2 [|c3 [|c4 s4]]]]]; simpl in H;
    repeat match type of H with
    | (_ && _) = true => apply andb_true_iff in H as [?%Ascii.eqb_eq H]
    | false = true => discriminate H
    end.
  exists s4. by subst.
Qed.

Lemma ts_here_intro b q s4 :
  lookbehind b = Some q →
  ts_here b (String "." (String "t" (String "s" (String q (String ")" s4)))))
  = true.
Proof.
  intros H. unfold ts_here. rewrite H. simpl.
  by rewrite !Ascii.eqb_refl.
Qed.

Lemma replace_ts_hit b q s4 :
  lookbehind b = Some q →
  replace_ts b (String "." (String "t" (String "s" (String q (String ")" s4)))))
  = String "." (String "j" (String "s"
      (replace_ts ("s" :: "t" :: "." :: b)%char (String q (String ")" s4))))).
Proof.
  intros H.
  change (replace_ts b (String "." (String "t" (String "s" ?s))))
    with (if ts_here b (String "." (String "t" (String "s" s)))
          then ".js" +:+ replace_ts ("s" :: "t" :: "." :: b)%char s
          else String "." (replace_ts ("." :: b)%char (String "t" (String "s" s)))).
  by rewrite (ts_here_intro b q s4 H).
Qed.

Lemma ts_js_refl a : ts_js a a.
Proof. by left. Qed.

Lemma ts_js_eq a c : ts_js a c → c ≠ "j"%char → a = c.
Proof. intros [->|[_ ->]]; done. Qed.

Lemma ts_js_path a c : ts_js a c → is_path_char c = is_path_char a.
Proof. by intros [->|[-> ->]]. Qed.

Lemma ts_js_word a c : ts_js a c → Str.is_word c = Str.is_word a.
Proof. by intros [->|[-> ->]]. Qed.

Lemma is_quote_not_j q : is_quote q = true → q ≠ "j"%char.
Proof. by intros H ->. Qed.

Lemma skip_path_ts_js b b' :
  Forall2 ts_js b b' → Forall2 ts_js (skip_path b) (skip_path b').
Proof.
  induction 1 as [|a c b b' Hac Hb IH]; simpl; [done|].
  rewrite (ts_js_path a c Hac).
  destruct (is_path_char a); [done|]. by constructor.
Qed.

Lemma behind_ts_js p : ∀ b b' r',
  Forall (λ c, c ≠ "j"%char) p →
  Forall2 ts_js b b' → behind p b' = Some r' →
  ∃ r, behind p b = Some r ∧ Forall2 ts_js r r'.
Proof.
  induction p as [|a p IH]; intros b b' r' Hp Hb; simpl.
  { intros [= <-]. by exists b. }
  apply Forall_cons in Hp as [Ha Hp].
  destruct Hb as [|x c b b' Hxc Hb]; [done|].
  destruct (Ascii.eqb a c) eqn:E; [|done].
  apply Ascii.eqb_eq in E. subst c.
  rewrite (ts_js_eq x a Hxc Ha), Ascii.eqb_refl.
  by apply IH.
Qed.

Lemma import_behind_ts_js b b' :
  Forall2 ts_js b b' → import_behind b' = true → import_behind b = true.
Proof.
  intros Hb. unfold import_behind.
  destruct (behind _ b') as [r'|] eqn:E; [|done].
  eapply behind_ts_js in E as (r & -> & Hr); [|by repeat constructor|done].
  destruct Hr as [|x c r r' Hxc Hr]; [done|].
  by rewrite (ts_js_word x c Hxc).
Qed.

(** The look-behind that holds on the rewritten text held on the text. *)
Lemma lookbehind_ts_js b b' q :
  Forall2 ts_js b b' → lookbehind b' = Some q → lookbehind b = Some q.
Proof.
  intros Hb. pose proof (skip_path_ts_js b b' Hb) as Hskip.
  unfold lookbehind.
  destruct Hb as [|x c b b' Hxc Hb]; [done|].
  rewrite (ts_js_path x c Hxc).
  destruct (is_path_char x); [|done].
  destruct Hskip as [|y d r r' Hyd Hr]; [done|].
  destruct (is_quote d) eqn:Hq; [|done].
  destruct (import_behind r') eqn:Hi; [|done].
  intros [= <-]. simpl.
  rewrite (ts_js_eq y d Hyd (is_quote_not_j d Hq)), Hq.
  by rewrite (import_behind_ts_js r r' Hr Hi).
Qed.

Lemma replace_ts_ts_js_le n : ∀ s b,
  String.length s ≤ n →
  Forall2 ts_js (list_ascii_of_string s) (list_ascii_of_string (replace_ts b s)).
Proof.
  induction n as [|n IH]; intros s b Hn.
  { destruct s; [constructor|simpl in Hn; lia]. }
  destruct s as [|c s]; [constructor|].
  destruct (ts_here b (String c s)) eqn:Hhere.
  - apply ts_here_inv in Hhere as (q & s4 & Hq & Hs). rewrite Hs.
    rewrite (replace_ts_hit b q s4 Hq).
    injection Hs as -> ->. simpl in Hn.
    simpl. constructor; [apply ts_js_refl|].
    constructor; [by right|]. constructor; [apply ts_js_refl|].
    apply (IH (String q (String ")" s4))). simpl. lia.
  - rewrite (replace_ts_miss b c s Hhere). simpl.
    constructor; [apply ts_js_refl|]. apply IH. simpl in Hn. lia.
Qed.

(** X23.  [rewriteTypeScriptImports] replaces characters in place: the
    result has the characters of the code, but for a [j] where the code
    has the [t] of a matched [.ts]; no character is added or removed. *)
Theorem rewriteTypeScriptImports_in_place code :
  Forall2 ts_js (list_ascii_of_string code)
    (list_ascii_of_string (rewriteTypeScriptImports code)).
Proof. by apply (replace_ts_ts_js_le (String.length code)). Qed.

Lemma replace_ts_again_le n : ∀ s b b',
  String.length s ≤ n → Forall2 ts_js b b' →
  replace_ts b' (replace_ts b s) = replace_ts b s.
Proof.
  induction n as [|n IH]; intros s b b' Hn Hb.
  { destruct s; [done|simpl in Hn; lia]. }
  destruct s as [|c s]; [done|].
  destruct (ts_here b (String c s)) eqn:Hhere.
  - apply ts_here_inv in Hhere as (q & s4 & Hq & Hs). rewrite Hs.
    rewrite (replace_ts_hit b q s4 Hq).
    injection Hs as -> ->. simpl in Hn.
    set (rest := replace_ts _ (String q _)).
    assert (∀ x y s0, x ≠ "."%char →
              ts_here y (String x s0) = false) as Hnot.
    { intros x y s0 Hx. unfold ts_here. destruct (lookbehind y); [|done].
      simpl. apply Ascii.eqb_neq in Hx. rewrite Ascii.eqb_sym in Hx.
      by rewrite Hx. }
    rewrite replace_ts_miss.
    2:{ unfold ts_here. by destruct (lookbehind b'). }
    rewrite replace_ts_miss by (by apply Hnot).
    rewrite replace_ts_miss by (by apply Hnot).
    do 3 f_equal. subst rest. apply IH; [simpl; lia|].
    constructor; [apply ts_js_refl|].
    constructor; [by right|]. constructor; [apply ts_js_refl|done].
  - rewrite (replace_ts_miss b c s Hhere).
    rewrite replace_ts_miss.
    { f_equal. apply IH; [simpl in Hn; lia|].
      constructor; [apply ts_js_refl|done]. }
    destruct (ts_here b' _) eqn:Hagain; [|done].
    apply ts_here_inv in Hagain as (q & s4 & Hq & Hs).
    pose proof (replace_ts_ts_js_le n s (c :: b) ltac:(simpl in Hn; lia))
      as Hrel.
    injection Hs as -> Hs. rewrite Hs in Hrel.
    assert (is_quote q = true) as Hquote.
    { unfold lookbehind in Hq.
      destruct b' as [|x b']; [done|].
      destruct (is_path_char x); [|done].
      destruct (skip_path _) as [|d r]; [done|].
      destruct (is_quote d) eqn:Hd; [|done].
      destruct (import_behind r); [|done]. by injection Hq as <-. }
    destruct s as [|c1 [|c2 [|c3 [|c4 s5]]]];
      simpl in Hrel; repeat
        match goal with
        | H : Forall2 _ [] (_ :: _) |- _ => by apply Forall2_nil_cons_inv in H
        | H : Forall2 _ (_ :: _) (_ :: _) |- _ =>
            apply Forall2_cons in H as [? H]
        end.
    rewrite (ts_js_eq c1 "t") in Hhere by done.
    rewrite (ts_js_eq c2 "s") in Hhere by done.
    rewrite (ts_js_eq c3 q) in Hhere by (by try apply is_quote_not_j).
    rewrite (ts_js_eq c4 ")") in Hhere by done.
    rewrite (ts_here_intro b q s5) in Hhere; [done|].
    by apply (lookbehind_ts_js b b').
Qed.

(** X24.  [rewriteTypeScriptImports] is idempotent: what it writes gives
    the pattern nothing to match, so a second pass changes nothing. *)
Theorem rewriteTypeScriptImports_idempotent code :
  rewriteTypeScriptImports (rewriteTypeScriptImports code)
  = rewriteTypeScriptImports code.
Proof. by apply (replace_ts_again_le (String.length code)). Qed.

(** The import of a TypeScript module is rewritten, whatever the quote. *)
Example rewriteTypeScriptImports_sample :
  rewriteTypeScriptImports "await import('./stdlib/foo.ts'); import(`../a.ts`)"
  = "await import('./stdlib/foo.js'); import(`../a.js`)".
Proof. vm_compute. reflexivity. Qed.

(** Left alone: a name that only ends in [import], a closing quote that
    is not the opening one, characters outside [[\w./]] in the path, and
    an extension that goes on. *)
Example rewriteTypeScriptImports_left_alone :
  rewriteTypeScriptImports
    "reimport('./a.ts'); import('./a.ts`); import('./a-b.ts'); import('./a.tsx')"
  = "reimport('./a.ts'); import('./a.ts`); import('./a-b.ts'); import('./a.tsx')".
Proof. vm_compute. reflexivity. Qed.
